(** * A shallow embedding of the streaming core of the AI SDK

    The development follows the TypeScript sources:

    - [packages/core/rsc/streamable.tsx]: [createStreamableUI] and
      [createStreamableValue] (the incremental UI and value cells), and
      of [render] the parts of [handleRender] and [onText] that run
      without waiting;
    - [packages/core/shared/utils.ts]: [createChunkDecoder] and
      [isStreamStringEqualToType];
    - [examples/next-openai/app/api/assistant/AssistantResponse.ts]: the
      line encoder of the assistant response;
    - the [useChat] hook: [getStreamedResponse], [triggerRequest], [append],
      [reload], [stop], [setMessages], [handleSubmit],
      [experimental_addToolResult] and the two helpers that decide
      automatic roundtrips;
    - [packages/core/mistral/mistral-chat-language-model.ts]: [getArgs] and
      the transform of [doStream];
    - [packages/core/provider/openai/openai-chat-language-model.ts]: the
      three transforms of [doStream].

    JavaScript strings are sequences of UTF-16 code units, promises are
    cells of an explicit store, and closures over [let] variables become
    records threaded through the operations.  Calls that may throw return
    a [Result].  What the hook receives from outside (the answers of the
    transport, the moments at which the caller stops a request and at
    which React renders) is a script given to the model.

    The modules with the definitions come first; the modules whose names
    end in [Facts] hold the lemmas and the theorems. *)

From Stdlib Require Import ZArith NArith Lia String Ascii.
From stdpp Require Import base option list gmap.

Set Default Proof Using "Type".

(** ** JavaScript strings *)

Module JS.

(** A string value: its UTF-16 code units. *)
Definition jsstring : Type := list N.

(** String literals of the sources (all of them ASCII). *)
Definition lit (s : string) : jsstring :=
  List.map N_of_ascii (list_ascii_of_string s).

(** [s.length] *)
Definition len (s : jsstring) : Z := Z.of_nat (length s).

(** [String.prototype.startsWith(search)] with the default position 0. *)
Fixpoint startsWith (s search : jsstring) {struct search} : bool :=
  match search with
  | [] => true
  | c :: search' =>
      match s with
      | [] => false
      | d :: s' => N.eqb c d && startsWith s' search'
      end
  end.

(** [String.prototype.endsWith(search)] with the default end position. *)
Definition endsWith (s search : jsstring) : bool :=
  let start := (len s - len search)%Z in
  if (start <? 0)%Z then false
  else bool_decide (drop (Z.to_nat start) s = search).

(** The clamping of a relative index of [String.prototype.slice]. *)
Definition clampIndex (size rel : Z) : Z :=
  if (rel <? 0)%Z then Z.max (size + rel) 0 else Z.min rel size.

(** [String.prototype.slice(start, end)]; [end] is optional. *)
Definition slice (s : jsstring) (start : Z) (end_ : option Z) : jsstring :=
  let size := len s in
  let from := clampIndex size start in
  let to := match end_ with
            | None => size
            | Some e => clampIndex size e
            end in
  take (Z.to_nat (Z.max (to - from) 0)) (drop (Z.to_nat from) s).

(** [String.prototype.split('\n')]: the segments between line feeds; the
    empty string splits into one empty segment. *)
Definition LF : N := 10%N.

Fixpoint split_lines (s : jsstring) : list jsstring :=
  match s with
  | [] => [[]]
  | c :: rest =>
      if N.eqb c LF then [] :: split_lines rest
      else match split_lines rest with
           | [] => [[c]]
           | seg :: segs => (c :: seg) :: segs
           end
  end.

(** [line !== ''] *)
Definition nonEmpty (line : jsstring) : bool :=
  match line with [] => false | _ :: _ => true end.

(** The outcome of a call that may throw [new Error(message)]. *)
Inductive Result (A : Type) : Type :=
| Returned (a : A)
| Threw (message : jsstring).
Arguments Returned {A} a.
Arguments Threw {A} message.

End JS.

(** ** Incremental cells: [packages/core/rsc/streamable.tsx] *)

Module Streamable.

Import JS.

(** Values handled by the cells ([T = any], [error: any]).  Strings are
    primitives; objects are known by their reference only. *)
Inductive Value : Type :=
| VUndefined
| VNull
| VBool (b : bool)
| VInt (z : Z)
| VString (s : jsstring)
| VObject (ref : nat).

(** [React.ReactNode]: text is a primitive, an element is an object. *)
Inductive ReactNode : Type :=
| RUndefined
| RNull
| RText (s : jsstring)
| RElement (ref : nat).

(** [value === currentValue] on nodes: primitives compare by value,
    elements by reference. *)
Definition strictEq (a b : ReactNode) : bool :=
  match a, b with
  | RUndefined, RUndefined => true
  | RNull, RNull => true
  | RText s, RText t => bool_decide (s = t)
  | RElement r, RElement r' => Nat.eqb r r'
  | _, _ => false
  end.

(** *** Promises *)

Inductive PromiseState (R : Type) : Type :=
| Pending
| Fulfilled (r : R)
| Rejected (reason : Value).
Arguments Pending {R}.
Arguments Fulfilled {R} r.
Arguments Rejected {R} reason.

(** The promises allocated so far; [fresh] is the next identity. *)
Record Store (R : Type) : Type := mkStore {
  cells : gmap nat (PromiseState R);
  fresh : nat
}.
Arguments mkStore {R} cells fresh.
Arguments cells {R} s.
Arguments fresh {R} s.

Definition emptyStore {R : Type} : Store R := mkStore ∅ 0.

(** Modelled from the spec: [createResolvablePromise] of [rsc/utils],
    which is not among the sources: a new deferred reference, unresolved,
    together with the two functions that settle it (here: its identity). *)
Definition createResolvablePromise {R : Type} (st : Store R) : nat * Store R :=
  (fresh st, mkStore (<[fresh st := Pending]> (cells st)) (S (fresh st))).

(** Calling the [resolve] or [reject] function of promise [p]: only a
    pending promise is settled, later calls are ignored. *)
Definition settle {R : Type} (p : nat) (outcome : PromiseState R)
    (st : Store R) : Store R :=
  match cells st !! p with
  | Some Pending => mkStore (<[p := outcome]> (cells st)) (fresh st)
  | _ => st
  end.

(** The chain of published revisions that starts at promise [p]: it ends
    at the open tail, at a rejected promise, or at a revision without
    [next]. *)
Inductive revisions {R : Type} (next : R -> option nat)
    (m : gmap nat (PromiseState R)) : nat -> list R -> Prop :=
| revisions_open p :
    m !! p = Some Pending -> revisions next m p []
| revisions_rejected p reason :
    m !! p = Some (Rejected reason) -> revisions next m p []
| revisions_last p r :
    m !! p = Some (Fulfilled r) -> next r = None -> revisions next m p [r]
| revisions_more p r q rows :
    m !! p = Some (Fulfilled r) -> next r = Some q ->
    revisions next m q rows -> revisions next m p (r :: rows).

(** The part of a chain strictly before promise [t]. *)
Inductive chain_to {R : Type} (next : R -> option nat)
    (m : gmap nat (PromiseState R)) : nat -> list R -> nat -> Prop :=
| chain_here t : chain_to next m t [] t
| chain_step p r q rows t :
    m !! p = Some (Fulfilled r) -> next r = Some q ->
    chain_to next m q rows t -> chain_to next m p (r :: rows) t.

(** *** The idle warning *)

(** [warningTimeout] and the timers of the runtime that are still armed. *)
Record Timers : Type := mkTimers {
  warningTimeout : option nat;
  armed : gset nat;
  nextTimer : nat
}.

Definition noTimers : Timers := mkTimers None ∅ 0.

(** [if (warningTimeout) clearTimeout(warningTimeout)] *)
Definition clearWarning (t : Timers) : Timers :=
  match warningTimeout t with
  | Some h => mkTimers (warningTimeout t) (armed t ∖ {[h]}) (nextTimer t)
  | None => t
  end.

(** [warnUnclosedStream]; [development] is
    [process.env.NODE_ENV === 'development']. *)
Definition warnUnclosedStream (development : bool) (t : Timers) : Timers :=
  if development then
    let t' := clearWarning t in
    mkTimers (Some (nextTimer t')) (armed t' ∪ {[nextTimer t']})
             (S (nextTimer t'))
  else t.

(** *** [createStreamableUI] *)

Module UI.

(** What a promise of the chain resolves to. *)
Record Row : Type := mkRow {
  value : ReactNode;
  done_flag : bool;
  append_flag : bool;
  next : option nat
}.

(** The variables closed over by the four methods.  [row] is the promise
    of the initial suspended chunk, which [.value] hands to the client. *)
Record Cell : Type := mkCell {
  currentValue : ReactNode;
  closed : bool;
  row : nat;
  resolve : nat;
  reject : nat;
  timers : Timers;
  store : Store Row
}.

Definition assertStream (method : jsstring) (c : Cell) : option jsstring :=
  if closed c then Some (method ++ lit ": UI stream is already closed.")
  else None.

(** Modelled from the spec: [createSuspensedChunk] of [rsc/utils], which
    is not among the sources: the initial revision shows [initialValue]
    and waits on a fresh open tail. *)
Definition createSuspensedChunk (st : Store Row) : nat * Store Row :=
  createResolvablePromise st.

Definition createStreamableUI (development : bool)
    (initialValue : ReactNode) : Cell :=
  let '(p, st) := createSuspensedChunk emptyStore in
  mkCell initialValue false p p p
         (warnUnclosedStream development noTimers) st.

Definition update (development : bool) (v : ReactNode) (c : Cell)
    : Result Cell :=
  match assertStream (lit ".update()") c with
  | Some e => Threw e
  | None =>
      if strictEq v (currentValue c) then
        Returned (mkCell (currentValue c) (closed c) (row c) (resolve c)
                    (reject c)
                    (warnUnclosedStream development (timers c)) (store c))
      else
        let '(p, st) := createResolvablePromise (store c) in
        let st' := settle (resolve c)
                     (Fulfilled (mkRow v false false (Some p))) st in
        Returned (mkCell v (closed c) (row c) p p
                    (warnUnclosedStream development (timers c)) st')
  end.

Definition append (development : bool) (v : ReactNode) (c : Cell)
    : Result Cell :=
  match assertStream (lit ".append()") c with
  | Some e => Threw e
  | None =>
      let '(p, st) := createResolvablePromise (store c) in
      let st' := settle (resolve c)
                   (Fulfilled (mkRow v false true (Some p))) st in
      Returned (mkCell v (closed c) (row c) p p
                  (warnUnclosedStream development (timers c)) st')
  end.

Definition error (e : Value) (c : Cell) : Result Cell :=
  match assertStream (lit ".error()") c with
  | Some msg => Threw msg
  | None =>
      Returned (mkCell (currentValue c) true (row c) (resolve c) (reject c)
                  (clearWarning (timers c))
                  (settle (reject c) (Rejected e) (store c)))
  end.

(** [done(...args)]: [args] is [None] for a call without argument. *)
Definition done (args : option ReactNode) (c : Cell) : Result Cell :=
  match assertStream (lit ".done()") c with
  | Some msg => Threw msg
  | None =>
      let final := match args with
                   | Some v => v
                   | None => currentValue c
                   end in
      Returned (mkCell (currentValue c) true (row c) (resolve c) (reject c)
                  (clearWarning (timers c))
                  (settle (resolve c)
                     (Fulfilled (mkRow final true false None)) (store c)))
  end.

(** A call of one of the four methods. *)
Inductive Call : Type :=
| CallUpdate (v : ReactNode)
| CallAppend (v : ReactNode)
| CallError (e : Value)
| CallDone (args : option ReactNode).

Definition call (development : bool) (op : Call) (c : Cell) : Result Cell :=
  match op with
  | CallUpdate v => update development v c
  | CallAppend v => append development v c
  | CallError e => error e c
  | CallDone args => done args c
  end.

(** The cells a program can hold: made by [createStreamableUI] and
    changed by calls that return. *)
Inductive reachable (development : bool) : Cell -> Prop :=
| reachable_create initialValue :
    reachable development (createStreamableUI development initialValue)
| reachable_call c op c' :
    reachable development c ->
    call development op c = Returned c' ->
    reachable development c'.

(** The revisions an observer of [.value] can read. *)
Definition published (c : Cell) (rows : list Row) : Prop :=
  revisions next (cells (store c)) (row c) rows.

(** Calls made one after the other by a caller that catches what is
    thrown: a call that throws leaves the cell as it was. *)
Fixpoint run (development : bool) (ops : list Call) (c : Cell)
    : Cell * list (option jsstring) :=
  match ops with
  | [] => (c, [])
  | op :: ops' =>
      match call development op c with
      | Returned c' =>
          let '(c'', log) := run development ops' c' in (c'', None :: log)
      | Threw msg =>
          let '(c'', log) := run development ops' c in
          (c'', Some msg :: log)
      end
  end.

End UI.

(** *** [createStreamableValue] *)

Module Val.

(** [StreamablePatch]: [undefined | [0, string]]. *)
Definition Patch : Type := Z * jsstring.

(** [StreamableValue]: every field is optional; [typed] says that the
    [type] tag of an initial chunk is present. *)
Record Wrapped : Type := mkWrapped {
  curr : option Value;
  diff : option Patch;
  next : option nat;
  error_field : option Value;
  typed : bool
}.

(** The object literal without any field. *)
Definition emptyWrapped : Wrapped := mkWrapped None None None None false.

Record Cell : Type := mkCell {
  closed : bool;
  resolvable : nat;
  currentValue : Value;
  currentError : Value;
  currentPromise : option nat;
  currentPatchValue : option Patch;
  timers : Timers;
  store : Store Wrapped
}.

Definition assertStream (method : jsstring) (c : Cell) : option jsstring :=
  if closed c then Some (method ++ lit ": Value stream is already closed.")
  else None.

Definition createStreamableValue (development : bool)
    (initialValue : Value) : Cell :=
  let '(p, st) := createResolvablePromise emptyStore in
  mkCell false p initialValue VUndefined (Some p) None
         (warnUnclosedStream development noTimers) st.

Definition createWrapped (initialChunk : bool) (c : Cell) : Wrapped :=
  let init :=
    match currentError c with
    | VUndefined =>
        match currentPatchValue c with
        | Some patch =>
            if initialChunk
            then mkWrapped (Some (currentValue c)) None None None false
            else mkWrapped None (Some patch) None None false
        | None => mkWrapped (Some (currentValue c)) None None None false
        end
    | e => mkWrapped None None None (Some e) false
    end in
  mkWrapped (curr init) (diff init) (currentPromise c) (error_field init)
            initialChunk.

(** The patch of [updateValueStates]: present when both the new and the
    current value are strings and the new one starts with the current
    one. *)
Definition patchFor (current value : Value) : option Patch :=
  match value, current with
  | VString v, VString cur =>
      if startsWith v cur then Some (0%Z, slice v (len cur) None)
      else None
  | _, _ => None
  end.

Definition updateValueStates (v : Value) (c : Cell) : Cell :=
  mkCell (closed c) (resolvable c) v (currentError c) (currentPromise c)
         (patchFor (currentValue c) v) (timers c) (store c).

(** The getter [value]. *)
Definition value (c : Cell) : Wrapped := createWrapped true c.

Definition update (development : bool) (v : Value) (c : Cell)
    : Result Cell :=
  match assertStream (lit ".update()") c with
  | Some e => Threw e
  | None =>
      let resolvePrevious := resolvable c in
      let '(p, st) := createResolvablePromise (store c) in
      let c1 := updateValueStates v
                  (mkCell (closed c) p (currentValue c) (currentError c)
                     (currentPromise c) (currentPatchValue c) (timers c)
                     st) in
      let c2 := mkCell (closed c1) (resolvable c1) (currentValue c1)
                  (currentError c1) (Some p) (currentPatchValue c1)
                  (timers c1) (store c1) in
      Returned (mkCell (closed c2) (resolvable c2) (currentValue c2)
                  (currentError c2) (currentPromise c2)
                  (currentPatchValue c2)
                  (warnUnclosedStream development (timers c2))
                  (settle resolvePrevious
                     (Fulfilled (createWrapped false c2)) (store c2)))
  end.

Definition error (e : Value) (c : Cell) : Result Cell :=
  match assertStream (lit ".error()") c with
  | Some msg => Threw msg
  | None =>
      Returned (mkCell true (resolvable c) (currentValue c) e None
                  (currentPatchValue c) (clearWarning (timers c))
                  (settle (resolvable c)
                     (Fulfilled (mkWrapped None None None (Some e) false))
                     (store c)))
  end.

Definition done (args : option Value) (c : Cell) : Result Cell :=
  match assertStream (lit ".done()") c with
  | Some msg => Threw msg
  | None =>
      let c1 := mkCell true (resolvable c) (currentValue c)
                  (currentError c) None (currentPatchValue c)
                  (clearWarning (timers c)) (store c) in
      match args with
      | Some v =>
          let c2 := updateValueStates v c1 in
          Returned (mkCell (closed c2) (resolvable c2) (currentValue c2)
                      (currentError c2) (currentPromise c2)
                      (currentPatchValue c2) (timers c2)
                      (settle (resolvable c2)
                         (Fulfilled (createWrapped false c2)) (store c2)))
      | None =>
          Returned (mkCell (closed c1) (resolvable c1) (currentValue c1)
                      (currentError c1) (currentPromise c1)
                      (currentPatchValue c1) (timers c1)
                      (settle (resolvable c1) (Fulfilled emptyWrapped)
                         (store c1)))
      end
  end.

(** The value cell has no [append]. *)
Inductive Call : Type :=
| CallUpdate (v : Value)
| CallError (e : Value)
| CallDone (args : option Value).

Definition call (development : bool) (op : Call) (c : Cell) : Result Cell :=
  match op with
  | CallUpdate v => update development v c
  | CallError e => error e c
  | CallDone args => done args c
  end.

Inductive reachable (development : bool) : Cell -> Prop :=
| reachable_create initialValue :
    reachable development (createStreamableValue development initialValue)
| reachable_call c op c' :
    reachable development c ->
    call development op c = Returned c' ->
    reachable development c'.

(** The revisions read by an observer that holds promise [p]. *)
Definition observed (c : Cell) (p : nat) (rows : list Wrapped) : Prop :=
  revisions next (cells (store c)) p rows.

Fixpoint run (development : bool) (ops : list Call) (c : Cell)
    : Cell * list (option jsstring) :=
  match ops with
  | [] => (c, [])
  | op :: ops' =>
      match call development op c with
      | Returned c' =>
          let '(c'', log) := run development ops' c' in (c'', None :: log)
      | Threw msg =>
          let '(c'', log) := run development ops' c in
          (c'', Some msg :: log)
      end
  end.

(** The rule of the specification for merging a patch
    [(offset, suffix)] into the local string (this definition follows
    the specification's words, to be compared with [patchFor]):
    [local = local.slice(0, offset) + suffix]. *)
Definition applyPatchBySlice (local : jsstring) (patch : Patch) : jsstring :=
  slice local 0 (Some (fst patch)) ++ snd patch.

End Val.

(** *** Invariant of the UI cell *)

(** [resolve] and [reject] belong to the same promise, the open tail;
    it is pending as long as the cell is open, and the chain that starts
    at the initial chunk leads to it. *)
Definition ui_inv (c : UI.Cell) : Prop :=
  UI.reject c = UI.resolve c /\
  (forall p, fresh (UI.store c) <= p -> cells (UI.store c) !! p = None) /\
  (UI.closed c = false ->
   cells (UI.store c) !! UI.resolve c = Some Pending) /\
  exists rows,
    chain_to UI.next (cells (UI.store c)) (UI.row c) rows (UI.resolve c).

(** The store after a revision [r] that points to the new tail has been
    published. *)
Definition publish {R : Type} (t : nat) (r : R) (st : Store R) : Store R :=
  mkStore (<[t := Fulfilled r]> (<[fresh st := Pending]> (cells st)))
          (S (fresh st)).

(** *** Invariant of the value cell *)

(** The revision that [update] and [done] publish for the new value [v]
    when the value before was [cur]: a patch when there is one, the full
    value otherwise. *)
Definition val_revision (cur v : Value) (nxt : option nat) : Val.Wrapped :=
  match Val.patchFor cur v with
  | Some patch => Val.mkWrapped None (Some patch) nxt None false
  | None => Val.mkWrapped (Some v) None nxt None false
  end.

Definition val_inv (c : Val.Cell) : Prop :=
  (forall p, fresh (Val.store c) <= p -> cells (Val.store c) !! p = None) /\
  (Val.closed c = false ->
   cells (Val.store c) !! Val.resolvable c = Some Pending /\
   Val.currentPromise c = Some (Val.resolvable c) /\
   Val.currentError c = VUndefined) /\
  (forall p, is_Some (cells (Val.store c) !! p) ->
     exists rows,
       chain_to Val.next (cells (Val.store c)) p rows (Val.resolvable c)).

(** The name under which a method reports a closed stream. *)
Definition ui_methodName (op : UI.Call) : jsstring :=
  match op with
  | UI.CallUpdate _ => lit ".update()"
  | UI.CallAppend _ => lit ".append()"
  | UI.CallError _ => lit ".error()"
  | UI.CallDone _ => lit ".done()"
  end.

Definition val_methodName (op : Val.Call) : jsstring :=
  match op with
  | Val.CallUpdate _ => lit ".update()"
  | Val.CallError _ => lit ".error()"
  | Val.CallDone _ => lit ".done()"
  end.

(** [done] and [error] are the calls that close a cell. *)
Definition ui_closes (op : UI.Call) : bool :=
  match op with
  | UI.CallError _ | UI.CallDone _ => true
  | _ => false
  end.

Definition val_closes (op : Val.Call) : bool :=
  match op with
  | Val.CallError _ | Val.CallDone _ => true
  | _ => false
  end.

(** The reading of C8 for the value cell (this definition follows the
    specification's words): the revision carries the value [v], and no
    [next]. *)
Definition carriesFinalValue (w : Val.Wrapped) (v : Value) : Prop :=
  Val.curr w = Some v /\ Val.next w = None.

(** *** Notions used in the further statements *)

(** What the idle warning leaves behind: outside development no timer is
    ever created; in development the last handle is known, and its timer
    is the only armed one as long as the cell is open. *)
Definition warningTimers (development closed : bool) (t : Timers) : Prop :=
  if development then
    exists handle,
      warningTimeout t = Some handle /\
      handle < nextTimer t /\
      armed t = (if closed then ∅ else {[handle]})
  else t = noTimers.

End Streamable.

(** ** The encoder of [AssistantResponse.ts] *)

Module AssistantResponse.

Import JS.

(** The JSON values that the three payloads are made of. *)
#[local] Unset Elimination Schemes.
Inductive JSON : Type :=
| JString (s : jsstring)
| JArray (items : list JSON)
| JObject (fields : list (jsstring * JSON)).
#[local] Set Elimination Schemes.

(** *** [JSON.stringify] without indentation *)

(** A lower-case hexadecimal digit. *)
Definition hexDigit (n : N) : N :=
  if (n <? 10)%N then (48 + n)%N else (87 + n)%N.

(** [UnicodeEscape]: a backslash, a [u] and four hexadecimal digits. *)
Definition unicodeEscape (c : N) : jsstring :=
  [92; 117; hexDigit (c / 4096 mod 16); hexDigit (c / 256 mod 16);
   hexDigit (c / 16 mod 16); hexDigit (c mod 16)]%N.

Definition isLeadingSurrogate (c : N) : bool :=
  (55296 <=? c)%N && (c <=? 56319)%N.
Definition isTrailingSurrogate (c : N) : bool :=
  (56320 <=? c)%N && (c <=? 57343)%N.

(** The escape of one code unit that is not half of a surrogate pair. *)
Definition quoteUnit (c : N) : jsstring :=
  if (c =? 8)%N then lit "\b"
  else if (c =? 9)%N then lit "\t"
  else if (c =? 10)%N then lit "\n"
  else if (c =? 12)%N then lit "\f"
  else if (c =? 13)%N then lit "\r"
  else if (c =? 34)%N then [92; 34]%N
  else if (c =? 92)%N then [92; 92]%N
  else if (c <? 32)%N || isLeadingSurrogate c || isTrailingSurrogate c
       then unicodeEscape c
  else [c].

(** The body of [QuoteJSONString]: a surrogate pair is copied, any other
    code unit is escaped on its own. *)
Fixpoint quoteUnits (s : jsstring) : jsstring :=
  match s with
  | [] => []
  | c :: rest =>
      if isLeadingSurrogate c then
        match rest with
        | d :: rest' =>
            if isTrailingSurrogate d then c :: d :: quoteUnits rest'
            else quoteUnit c ++ quoteUnits rest
        | [] => quoteUnit c
        end
      else quoteUnit c ++ quoteUnits rest
  end.

Definition quoteJSONString (s : jsstring) : jsstring :=
  [34%N] ++ quoteUnits s ++ [34%N].

(** [Array.prototype.join(',')] of already serialised members. *)
Fixpoint joinComma (parts : list jsstring) : jsstring :=
  match parts with
  | [] => []
  | [p] => p
  | p :: rest => p ++ [44%N] ++ joinComma rest
  end.

Fixpoint stringify (j : JSON) : jsstring :=
  match j with
  | JString s => quoteJSONString s
  | JArray items => [91%N] ++ joinComma (List.map stringify items) ++ [93%N]
  | JObject fields =>
      [123%N]
      ++ joinComma
           (List.map (fun kv => quoteJSONString (fst kv) ++ [58%N]
                                  ++ stringify (snd kv)) fields)
      ++ [125%N]
  end.

(** *** The payloads *)

Inductive StatusKind : Type := in_progress | complete | failed.

Definition statusText (k : StatusKind) : jsstring :=
  match k with
  | in_progress => lit "in_progress"
  | complete => lit "complete"
  | failed => lit "failed"
  end.

(** [AssistantStatus] *)
Record AssistantStatus : Type := mkStatus {
  status : StatusKind;
  information : option jsstring
}.

(** [AssistantMessage]: [role] is always ['assistant'] and every content
    part has type ['text']; [content] lists the [text.value] of the
    parts. *)
Record AssistantMessage : Type := mkMessage {
  id : jsstring;
  content : list jsstring
}.

(** The objects as [JSON.stringify] sees them, the properties in the
    order of the type declarations; an absent [information] is no
    property. *)
Definition statusJSON (s : AssistantStatus) : JSON :=
  JObject ((lit "status", JString (statusText (status s)))
           :: match information s with
              | Some i => [(lit "information", JString i)]
              | None => []
              end).

Definition contentPartJSON (text : jsstring) : JSON :=
  JObject [(lit "type", JString (lit "text"));
           (lit "text", JObject [(lit "value", JString text)])].

Definition messageJSON (m : AssistantMessage) : JSON :=
  JObject [(lit "id", JString (id m));
           (lit "role", JString (lit "assistant"));
           (lit "content", JArray (List.map contentPartJSON (content m)))].

(** A call of one of the three functions handed to [process]. *)
Inductive Send : Type :=
| sendStatus (s : AssistantStatus)
| sendThreadId (threadId : jsstring)
| sendMessage (m : AssistantMessage).

Definition prefix (e : Send) : jsstring :=
  match e with
  | sendStatus _ => lit "3"
  | sendThreadId _ => lit "4"
  | sendMessage _ => lit "0"
  end.

Definition payload (e : Send) : JSON :=
  match e with
  | sendStatus s => statusJSON s
  | sendThreadId t => JString t
  | sendMessage m => messageJSON m
  end.

(** The text handed to [textEncoder.encode] and enqueued. *)
Definition encode (e : Send) : jsstring :=
  match e with
  | sendStatus s => lit "3: " ++ stringify (statusJSON s) ++ [LF; LF]
  | sendThreadId t => lit "4: " ++ stringify (JString t) ++ [LF; LF]
  | sendMessage m => lit "0: " ++ stringify (messageJSON m) ++ [LF; LF]
  end.

(** The position of the first colon, [indexOf(':')]. *)
Fixpoint indexOfColon (s : jsstring) : option nat :=
  match s with
  | [] => None
  | c :: rest =>
      if (c =? 58)%N then Some 0
      else option_map S (indexOfColon rest)
  end.

(** The line format of the specification (this definition follows the
    specification's words): [<prefix>:<jsonPayload>] and one line
    break. *)
Definition specLine (e : Send) : jsstring :=
  prefix e ++ [58%N] ++ stringify (payload e) ++ [LF].

Definition noLF (s : jsstring) : Prop := Forall (fun c => c <> LF) s.

End AssistantResponse.

(** ** [TextDecoder] in streaming mode *)

Module TextDecoder.

Import JS.

(** The state of the UTF-8 decoder of the Encoding standard. *)
Record Utf8 : Type := mkUtf8 {
  codePoint : N;
  bytesSeen : N;
  bytesNeeded : N;
  lowerBoundary : N;
  upperBoundary : N
}.

Definition utf8Initial : Utf8 := mkUtf8 0 0 0 128 191.

(** What the handler returns for one byte. *)
Inductive Handled : Type :=
| Continue
| CodePoint (cp : N)
| DecodeError
| DecodeErrorRestore.

Definition between (lo b hi : N) : bool := (lo <=? b)%N && (b <=? hi)%N.

(** The handler of the UTF-8 decoder for the byte [b]. *)
Definition handler (d : Utf8) (b : N) : Utf8 * Handled :=
  if (bytesNeeded d =? 0)%N then
    if between 0 b 127 then (d, CodePoint b)
    else if between 194 b 223 then
      (mkUtf8 (N.land b 31) (bytesSeen d) 1
              (lowerBoundary d) (upperBoundary d), Continue)
    else if between 224 b 239 then
      (mkUtf8 (N.land b 15) (bytesSeen d) 2
              (if (b =? 224)%N then 160%N else lowerBoundary d)
              (if (b =? 237)%N then 159%N else upperBoundary d), Continue)
    else if between 240 b 244 then
      (mkUtf8 (N.land b 7) (bytesSeen d) 3
              (if (b =? 240)%N then 144%N else lowerBoundary d)
              (if (b =? 244)%N then 143%N else upperBoundary d), Continue)
    else (d, DecodeError)
  else if negb (between (lowerBoundary d) b (upperBoundary d)) then
    (utf8Initial, DecodeErrorRestore)
  else
    let cp := N.lor (N.shiftl (codePoint d) 6) (N.land b 63) in
    let seen := (bytesSeen d + 1)%N in
    if (seen =? bytesNeeded d)%N then (utf8Initial, CodePoint cp)
    else (mkUtf8 cp seen (bytesNeeded d) 128 191, Continue).

(** The code points that one byte adds to the output; a byte that is
    restored to the queue is handled a second time. *)
Definition scalarsOf (h : Handled) : list N :=
  match h with
  | Continue => []
  | CodePoint cp => [cp]
  | DecodeError | DecodeErrorRestore => [65533%N]
  end.

Definition processByte (d : Utf8) (b : N) : Utf8 * list N :=
  match handler d b with
  | (d', DecodeErrorRestore) =>
      let '(d'', h) := handler d' b in (d'', 65533%N :: scalarsOf h)
  | (d', h) => (d', scalarsOf h)
  end.

(** The UTF-16 code units of a code point. *)
Definition utf16 (cp : N) : jsstring :=
  if (cp <? 65536)%N then [cp]
  else let v := (cp - 65536)%N in
       [(55296 + N.shiftr v 10)%N; (56320 + N.land v 1023)%N].

(** A [TextDecoder] created by [new TextDecoder()]: UTF-8, not fatal,
    the byte order mark is not ignored. *)
Record Decoder : Type := mkDecoder {
  utf8 : Utf8;
  bomSeen : bool
}.

Definition newTextDecoder : Decoder := mkDecoder utf8Initial false.

(** Serialising the code points: the first one is dropped when it is
    the byte order mark. *)
Fixpoint serialize (seen : bool) (scalars : list N) : bool * jsstring :=
  match scalars with
  | [] => (seen, [])
  | cp :: rest =>
      let '(seen', out) := serialize true rest in
      if negb seen && (cp =? 65279)%N then (seen', out)
      else (seen', utf16 cp ++ out)
  end.

(** [decoder.decode(chunk, { stream: true })]: nothing is flushed at the
    end of the chunk. *)
Fixpoint decodeBytes (dec : Decoder) (chunk : list N) : Decoder * jsstring :=
  match chunk with
  | [] => (dec, [])
  | b :: rest =>
      let '(d, scalars) := processByte (utf8 dec) b in
      let '(seen, out) := serialize (bomSeen dec) scalars in
      let '(dec', out') := decodeBytes (mkDecoder d seen) rest in
      (dec', out ++ out')
  end.

Definition decode (dec : Decoder) (chunk : option (list Byte.byte))
    : Decoder * jsstring :=
  match chunk with
  | None => (dec, [])
  | Some bytes => decodeBytes dec (List.map Byte.to_N bytes)
  end.

End TextDecoder.

(** ** [createChunkDecoder]: [packages/core/shared/utils.ts] *)

Module ChunkDecoder.

Import JS TextDecoder.

Section Decoders.
(** [parseStreamPart] of [shared/stream-parts] is not among the
    sources: it is a parameter.  [None] is a result that
    [filter(Boolean)] removes. *)
Context {StreamPartType : Type}.
Variable parseStreamPart : jsstring -> option StreamPartType.

(** The simple decoder, [createChunkDecoder()] or
    [createChunkDecoder(false)]. *)
Definition simpleDecoder (dec : Decoder) (chunk : option (list Byte.byte))
    : Decoder * jsstring :=
  match chunk with
  | None => (dec, [])
  | Some _ => decode dec chunk
  end.

(** The lines of one call of the complex decoder, the constant
    [decoded] of the source. *)
Definition decodedLines (text : jsstring) : list jsstring :=
  List.filter nonEmpty (split_lines text).

(** The complex decoder, [createChunkDecoder(true)]: the closure over
    [decoder] is the state that is threaded. *)
Definition complexDecoder (dec : Decoder) (chunk : option (list Byte.byte))
    : Decoder * list StreamPartType :=
  let '(dec', text) := decode dec chunk in
  (dec', omap parseStreamPart (decodedLines text)).

(** The parts returned by the calls for the chunks of a stream, one
    call after the other. *)
Fixpoint feed (dec : Decoder) (chunks : list (list Byte.byte))
    : list StreamPartType :=
  match chunks with
  | [] => []
  | chunk :: rest =>
      let '(dec', parts) := complexDecoder dec (Some chunk) in
      parts ++ feed dec' rest
  end.

(** The text returned by the calls of the simple decoder. *)
Fixpoint feedText (dec : Decoder) (chunks : list (list Byte.byte))
    : jsstring :=
  match chunks with
  | [] => []
  | chunk :: rest =>
      let '(dec', text) := simpleDecoder dec (Some chunk) in
      text ++ feedText dec' rest
  end.

End Decoders.

(** A chunk that does not end inside a line: it is empty or its last
    byte is a line feed. *)
Definition endsAtLineBreak (chunk : list Byte.byte) : Prop :=
  chunk = [] \/ exists body, chunk = body ++ [Byte.x0a].

(** ASCII text as bytes. *)
Definition ascii (s : string) : list Byte.byte := list_byte_of_string s.

(** *** Notions used in the statements *)

(** The continuation bytes that the decoder waits for are never line
    feeds. *)
Definition boundaryAbove (dec : Decoder) : Prop :=
  (128 <= lowerBoundary (utf8 dec))%N.

(** A stand-in for [parseStreamPart] in examples: the part is the line
    itself. *)
Definition lineAsPart (line : jsstring) : option jsstring := Some line.

(** *** [isStreamStringEqualToType] *)

Section StreamStrings.
(** [StreamStringPrefixes] of [shared/stream-parts] is not among the
    sources: the table of the prefixes is a parameter. *)
Context {StreamPartName : Type}.
Variable StreamStringPrefixes : StreamPartName -> jsstring.

Definition isStreamStringEqualToType (type : StreamPartName)
    (value : jsstring) : bool :=
  startsWith value (StreamStringPrefixes type ++ lit ":")
  && endsWith value [LF].

(** The strings of the template literal type [StreamString] for the
    prefix of [type]: the prefix, a colon, any string and a line feed. *)
Definition StreamString (type : StreamPartName) (value : jsstring) : Prop :=
  exists body : jsstring,
    value = StreamStringPrefixes type ++ lit ":" ++ body ++ [LF].

End StreamStrings.

End ChunkDecoder.

(** ** The [useChat] hook *)

Module UseChat.

Import JS.

(** [JSONValue], and values of type [any]. *)
Definition JSONValue : Type := Streamable.Value.

(** Modelled from the spec: the [Message] type of [shared/types], which
    is not among the sources: the three roles and the fields of a
    message that the hook reads.  An absent [id] is [None]. *)
Inductive Role : Type := system | user | assistant.

Record ToolInvocation : Type := mkToolInvocation {
  toolCallId : jsstring;
  toolName : jsstring;
  args : JSONValue;
  result : option JSONValue
}.

Record Message : Type := mkMessage {
  id : option jsstring;
  createdAt : option N;
  content : jsstring;
  role : Role;
  toolInvocations : option (list ToolInvocation)
}.

(** [ChatRequest]: the messages and the optional [data]; the options
    that are only passed on to the transport are left out. *)
Module ChatRequest.
Record t : Type := make {
  messages : list Message;
  data : option JSONValue
}.
End ChatRequest.

(** What a [catch] clause receives. *)
Inductive Thrown : Type :=
| ErrorObject (name message : jsstring)
| NonError (v : JSONValue).

(** [(err as any).name === 'AbortError'] *)
Definition isAbortError (err : Thrown) : bool :=
  match err with
  | ErrorObject name _ => bool_decide (name = lit "AbortError")
  | NonError _ => false
  end.

(** The rejection of a transport whose signal was aborted. *)
Definition abortError : Thrown :=
  ErrorObject (lit "AbortError") (lit "The operation was aborted.").

(** The options of [useChat] that the model reads.  The bound is a
    JavaScript number; whole numbers are modelled. *)
Record Options : Type := mkOptions {
  experimental_maxAutomaticRoundtrips : Z;
  generateId : nat -> jsstring
}.

(** The state of one chat: the four SWR entries under [chatKey], the
    refs, the [input] state, the abort controllers of the runtime, and
    what the hook has done to its surroundings (requests sent, calls of
    [onError] and [onFinish]). *)
Record Hook : Type := mkHook {
  messages : list Message;
  isLoading : bool;
  streamData : option (list JSONValue);
  error : option Thrown;
  messagesRef : list Message;
  abortControllerRef : option nat;
  extraMetadataRef : gmap jsstring JSONValue;
  input : jsstring;
  aborted : gset nat;
  nextController : nat;
  nextId : nat;
  clock : N;
  requests : list ChatRequest.t;
  onErrorCalls : list Thrown;
  onFinishCalls : list Message
}.

(** The assignments to one variable of the state. *)
Definition set_messages (v : list Message) (h : Hook) : Hook :=
  mkHook v (isLoading h) (streamData h) (error h) (messagesRef h)
    (abortControllerRef h) (extraMetadataRef h) (input h) (aborted h)
    (nextController h) (nextId h) (clock h) (requests h) (onErrorCalls h)
    (onFinishCalls h).

Definition set_isLoading (v : bool) (h : Hook) : Hook :=
  mkHook (messages h) v (streamData h) (error h) (messagesRef h)
    (abortControllerRef h) (extraMetadataRef h) (input h) (aborted h)
    (nextController h) (nextId h) (clock h) (requests h) (onErrorCalls h)
    (onFinishCalls h).

Definition set_streamData (v : option (list JSONValue)) (h : Hook) : Hook :=
  mkHook (messages h) (isLoading h) v (error h) (messagesRef h)
    (abortControllerRef h) (extraMetadataRef h) (input h) (aborted h)
    (nextController h) (nextId h) (clock h) (requests h) (onErrorCalls h)
    (onFinishCalls h).

Definition set_error (v : option Thrown) (h : Hook) : Hook :=
  mkHook (messages h) (isLoading h) (streamData h) v (messagesRef h)
    (abortControllerRef h) (extraMetadataRef h) (input h) (aborted h)
    (nextController h) (nextId h) (clock h) (requests h) (onErrorCalls h)
    (onFinishCalls h).

Definition set_messagesRef (v : list Message) (h : Hook) : Hook :=
  mkHook (messages h) (isLoading h) (streamData h) (error h) v
    (abortControllerRef h) (extraMetadataRef h) (input h) (aborted h)
    (nextController h) (nextId h) (clock h) (requests h) (onErrorCalls h)
    (onFinishCalls h).

Definition set_abortControllerRef (v : option nat) (h : Hook) : Hook :=
  mkHook (messages h) (isLoading h) (streamData h) (error h) (messagesRef h)
    v (extraMetadataRef h) (input h) (aborted h) (nextController h)
    (nextId h) (clock h) (requests h) (onErrorCalls h) (onFinishCalls h).

Definition set_extraMetadataRef (v : gmap jsstring JSONValue) (h : Hook)
    : Hook :=
  mkHook (messages h) (isLoading h) (streamData h) (error h) (messagesRef h)
    (abortControllerRef h) v (input h) (aborted h) (nextController h)
    (nextId h) (clock h) (requests h) (onErrorCalls h) (onFinishCalls h).

Definition set_input (v : jsstring) (h : Hook) : Hook :=
  mkHook (messages h) (isLoading h) (streamData h) (error h) (messagesRef h)
    (abortControllerRef h) (extraMetadataRef h) v (aborted h)
    (nextController h) (nextId h) (clock h) (requests h) (onErrorCalls h)
    (onFinishCalls h).

Definition set_aborted (v : gset nat) (h : Hook) : Hook :=
  mkHook (messages h) (isLoading h) (streamData h) (error h) (messagesRef h)
    (abortControllerRef h) (extraMetadataRef h) (input h) v
    (nextController h) (nextId h) (clock h) (requests h) (onErrorCalls h)
    (onFinishCalls h).

Definition set_nextController (v : nat) (h : Hook) : Hook :=
  mkHook (messages h) (isLoading h) (streamData h) (error h) (messagesRef h)
    (abortControllerRef h) (extraMetadataRef h) (input h) (aborted h) v
    (nextId h) (clock h) (requests h) (onErrorCalls h) (onFinishCalls h).

Definition set_nextId (v : nat) (h : Hook) : Hook :=
  mkHook (messages h) (isLoading h) (streamData h) (error h) (messagesRef h)
    (abortControllerRef h) (extraMetadataRef h) (input h) (aborted h)
    (nextController h) v (clock h) (requests h) (onErrorCalls h)
    (onFinishCalls h).

Definition set_requests (v : list ChatRequest.t) (h : Hook) : Hook :=
  mkHook (messages h) (isLoading h) (streamData h) (error h) (messagesRef h)
    (abortControllerRef h) (extraMetadataRef h) (input h) (aborted h)
    (nextController h) (nextId h) (clock h) v (onErrorCalls h)
    (onFinishCalls h).

Definition set_onErrorCalls (v : list Thrown) (h : Hook) : Hook :=
  mkHook (messages h) (isLoading h) (streamData h) (error h) (messagesRef h)
    (abortControllerRef h) (extraMetadataRef h) (input h) (aborted h)
    (nextController h) (nextId h) (clock h) (requests h) v (onFinishCalls h).

Definition set_onFinishCalls (v : list Message) (h : Hook) : Hook :=
  mkHook (messages h) (isLoading h) (streamData h) (error h) (messagesRef h)
    (abortControllerRef h) (extraMetadataRef h) (input h) (aborted h)
    (nextController h) (nextId h) (clock h) (requests h) (onErrorCalls h) v.

(** *** What the transport delivers *)

(** One thing that happens while a response is read: the transport calls
    [onUpdate(merged, data)], the caller calls [stop()], or React renders
    the hook and runs its effects. *)
Inductive StreamEvent : Type :=
| Update (merged : list Message) (data : option (list JSONValue))
| Stop
| Render.

Inductive StreamEnd : Type :=
| Finished
| Failed (err : Thrown).

(** The answer to one request: that of the API route (as [callChatApi]
    reports it) or that of a server action (a chain of rows with the
    content so far, which ends or is rejected).  [rendered] says whether
    React has rendered the hook once more before [triggerRequest]
    resumes. *)
Inductive Response : Type :=
| RouteResponse (events : list StreamEvent) (ending : StreamEnd)
    (rendered : bool)
| ActionResponse (rows : list jsstring) (failure : option Thrown)
    (rendered : bool).

Definition renderedBeforeResume (r : Response) : bool :=
  match r with
  | RouteResponse _ _ rendered => rendered
  | ActionResponse _ _ rendered => rendered
  end.

(** How an awaited call ends. *)
Inductive Outcome : Type :=
| Resolved
| Rejected (err : Thrown).

(** *** The hook *)

(** The effect that keeps the latest messages in the ref:
    [messagesRef.current = messages || []]. *)
Definition flushEffects (h : Hook) : Hook := set_messagesRef (messages h) h.

(** [stop] *)
Definition stop (h : Hook) : Hook :=
  match abortControllerRef h with
  | Some controller =>
      set_abortControllerRef None
        (set_aborted (aborted h ∪ {[controller]}) h)
  | None => h
  end.

(** [restoreMessagesOnFailure], with the [previousMessages] of its
    closure. *)
Definition restoreMessagesOnFailure (previousMessages : list Message)
    (h : Hook) : Hook :=
  set_messages previousMessages h.

(** [onUpdate(merged, data)], with [chatRequest] and [existingData] of its
    closure. *)
Definition onUpdate (chatRequest : ChatRequest.t)
    (existingData : option (list JSONValue)) (merged : list Message)
    (data : option (list JSONValue)) (h : Hook) : Hook :=
  set_streamData (Some (default [] existingData ++ default [] data))
    (set_messages (ChatRequest.messages chatRequest ++ merged) h).

(** Whether the signal of the controller that the transport was given has
    been aborted. *)
Definition signalAborted (controller : option nat) (h : Hook) : bool :=
  match controller with
  | Some c => bool_decide (c ∈ aborted h)
  | None => false
  end.

(** Modelled from the spec: the loop of [callChatApi] (not among the
    sources) that reads the response; events are applied in their order,
    and the reading is cut short as soon as the signal of the request is
    aborted, which the result reports. *)
Fixpoint readStream (chatRequest : ChatRequest.t)
    (existingData : option (list JSONValue)) (controller : option nat)
    (events : list StreamEvent) (h : Hook) : Hook * bool :=
  match events with
  | [] => (h, false)
  | event :: rest =>
      let h' := match event with
                | Update merged data =>
                    onUpdate chatRequest existingData merged data h
                | Stop => stop h
                | Render => flushEffects h
                end in
      if signalAborted controller h' then (h', true)
      else readStream chatRequest existingData controller rest h'
  end.

(** The messages of the last [onUpdate] of a response. *)
Fixpoint lastMerged (events : list StreamEvent) (merged : list Message)
    : list Message :=
  match events with
  | [] => merged
  | Update merged' _ :: rest => lastMerged rest merged'
  | _ :: rest => lastMerged rest merged
  end.

(** Modelled from the spec: [callChatApi] of [shared/call-chat-api], which
    is not among the sources.  It reads the response and reports every
    decoded event through [onUpdate]; a cancel signal aborts the reading,
    keeps what was merged and rejects with an abort error; a transport
    fault or a failure event rolls the messages back through
    [restoreMessagesOnFailure] and rejects with the error; the end of the
    stream calls [onFinish] for the messages of the response. *)
Definition callChatApi (chatRequest : ChatRequest.t)
    (existingData : option (list JSONValue))
    (previousMessages : list Message)
    (events : list StreamEvent) (ending : StreamEnd) (h : Hook)
    : Hook * Outcome :=
  let controller := abortControllerRef h in
  let '(h', cancelled) :=
    readStream chatRequest existingData controller events h in
  if cancelled then (h', Rejected abortError)
  else match ending with
       | Finished =>
           (set_onFinishCalls (onFinishCalls h' ++ lastMerged events []) h',
            Resolved)
       | Failed err =>
           (restoreMessagesOnFailure previousMessages h', Rejected err)
       end.

(** [readRow] of the server action branch: every row replaces the content
    of the one response message and publishes it after the messages of
    the request. *)
Fixpoint readRow (chatRequest : ChatRequest.t) (responseMessage : Message)
    (rows : list jsstring) (h : Hook) : Hook * Message :=
  match rows with
  | [] => (h, responseMessage)
  | rowContent :: next =>
      let responseMessage' :=
        mkMessage (id responseMessage) (createdAt responseMessage)
                  rowContent (role responseMessage)
                  (toolInvocations responseMessage) in
      readRow chatRequest responseMessage' next
        (set_messages (ChatRequest.messages chatRequest ++ [responseMessage'])
           h)
  end.

(** [getStreamedResponse] up to its first [await]: the snapshot of the
    ref, the optimistic update, and the request on its way. *)
Definition dispatch (chatRequest : ChatRequest.t) (h : Hook)
    : list Message * Hook :=
  let previousMessages := messagesRef h in
  (previousMessages,
   set_requests (requests h ++ [chatRequest])
     (set_messages (ChatRequest.messages chatRequest) h)).

(** [getStreamedResponse], given the answer to the request. *)
Definition getStreamedResponse (options : Options)
    (response : Response) (chatRequest : ChatRequest.t) (h : Hook)
    : Hook * Outcome :=
  let existingData := streamData h in
  let '(previousMessages, h1) := dispatch chatRequest h in
  match response with
  | ActionResponse rows failure _ =>
      let replyId := generateId options (nextId h1) in
      let h2 := set_nextId (S (nextId h1)) h1 in
      let responseMessage :=
        mkMessage (Some replyId) (Some (clock h2)) [] assistant None in
      let '(h3, responseMessage') :=
        readRow chatRequest responseMessage rows h2 in
      match failure with
      | Some e => (set_messages previousMessages h3, Rejected e)
      | None =>
          (set_onFinishCalls (onFinishCalls h3 ++ [responseMessage']) h3,
           Resolved)
      end
  | RouteResponse events ending _ =>
      callChatApi chatRequest existingData previousMessages events ending h1
  end.

(** Modelled from the spec: [processChatStream] of
    [shared/process-chat-stream], which is not among the sources.  Without
    the handlers of the outdated function and tool calls it awaits
    [getStreamedResponse] once. *)
Definition processChatStream (options : Options) (response : Response)
    (chatRequest : ChatRequest.t) (h : Hook) : Hook * Outcome :=
  getStreamedResponse options response chatRequest h.

(** [isAssistantMessageWithCompletedToolCalls] *)
Definition isAssistantMessageWithCompletedToolCalls (message : Message)
    : bool :=
  match role message with
  | assistant =>
      match toolInvocations message with
      | Some invocations =>
          (0 <? length invocations)%nat
          && forallb (fun toolInvocation =>
                        match result toolInvocation with
                        | Some _ => true
                        | None => false
                        end) invocations
      | None => false
      end
  | _ => false
  end.

(** The loop of [countTrailingAssistantMessages]: [n] is [i + 1]. *)
Fixpoint countLoop (messages : list Message) (n count : nat) : nat :=
  match n with
  | O => count
  | S i =>
      match messages !! i with
      | Some message =>
          match role message with
          | assistant => countLoop messages i (S count)
          | _ => count
          end
      | None => count
      end
  end.

(** [countTrailingAssistantMessages] *)
Definition countTrailingAssistantMessages (messages : list Message) : nat :=
  countLoop messages (length messages) 0.

(** The condition of the automatic roundtrip at the end of
    [triggerRequest]. *)
Definition autoSubmit (options : Options) (messages : list Message) : bool :=
  match messages !! (length messages - 1) with
  | Some lastMessage =>
      (0 <? experimental_maxAutomaticRoundtrips options)%Z
      && isAssistantMessageWithCompletedToolCalls lastMessage
      && (Z.of_nat (countTrailingAssistantMessages messages)
          <=? experimental_maxAutomaticRoundtrips options)%Z
  | None => false
  end.

(** The state of a hook that has just been mounted. *)
Definition initialState (initialMessages : list Message)
    (initialInput : jsstring) : Hook :=
  mkHook initialMessages false None None initialMessages None ∅ initialInput
         ∅ 0 0 0 [] [] [].

(** The first statements of [triggerRequest]: the loading flag, the
    error, and a new abort controller in the ref. *)
Definition beginRequest (h : Hook) : Hook :=
  let h1 := set_error None (set_isLoading true h) in
  set_abortControllerRef (Some (nextController h1))
    (set_nextController (S (nextController h1)) h1).

(** [triggerRequest].  Each request takes the next answer of
    [responses]; when none is left the request stays in flight. *)
Fixpoint triggerRequest (options : Options) (responses : list Response)
    (chatRequest : ChatRequest.t) (h : Hook) : Hook :=
  let h2 := beginRequest h in
  match responses with
  | [] => (dispatch chatRequest h2).2
  | response :: later =>
      let '(h3, outcome) := processChatStream options response chatRequest h2 in
      let h4 := if renderedBeforeResume response then flushEffects h3
                else h3 in
      let roundtrip (h : Hook) : Hook :=
        let messages := messagesRef h in
        if autoSubmit options messages
        then triggerRequest options later (ChatRequest.make messages None) h
        else h in
      match outcome with
      | Resolved =>
          roundtrip (set_isLoading false (set_abortControllerRef None h4))
      | Rejected err =>
          if isAbortError err
          then set_isLoading false (set_abortControllerRef None h4)
          else
            let h5 := match err with
                      | ErrorObject _ _ =>
                          set_onErrorCalls (onErrorCalls h4 ++ [err]) h4
                      | NonError _ => h4
                      end in
            roundtrip (set_isLoading false (set_error (Some err) h5))
      end
  end.

(** [append] *)
Definition append (options : Options) (responses : list Response)
    (message : Message) (data : option JSONValue) (h : Hook) : Hook :=
  let '(message', h1) :=
    match id message with
    | None | Some [] =>
        (mkMessage (Some (generateId options (nextId h))) (createdAt message)
                   (content message) (role message) (toolInvocations message),
         set_nextId (S (nextId h)) h)
    | Some _ => (message, h)
    end in
  triggerRequest options responses
    (ChatRequest.make (messagesRef h1 ++ [message']) data) h1.

(** [handleSubmit]; [metadata] is the optional third argument, and
    [data] what the options of the call hold.  [e.preventDefault()]
    concerns the event only. *)
Definition handleSubmit (options : Options) (responses : list Response)
    (data : option JSONValue) (metadata : option (gmap jsstring JSONValue))
    (h : Hook) : Hook :=
  let h1 := match metadata with
            | Some extra =>
                set_extraMetadataRef (extra ∪ extraMetadataRef h) h
            | None => h
            end in
  match input h1 with
  | [] => h1
  | _ :: _ =>
      set_input []
        (append options responses
           (mkMessage None (Some (clock h1)) (input h1) user None) data h1)
  end.

(** [experimental_addToolResult].  It throws a [TypeError] when there is
    no message at all. *)
Definition addToolResultTo (toolCallId' : jsstring) (result' : JSONValue)
    (messages : list Message) : list Message :=
  imap (fun index message =>
          match toolInvocations message with
          | Some invocations =>
              if (index =? length messages - 1)%nat
                 && match role message with assistant => true | _ => false end
              then mkMessage (id message) (createdAt message) (content message)
                     (role message)
                     (Some (List.map
                              (fun toolInvocation =>
                                 if bool_decide
                                      (toolCallId toolInvocation = toolCallId')
                                 then mkToolInvocation
                                        (toolCallId toolInvocation)
                                        (toolName toolInvocation)
                                        (args toolInvocation) (Some result')
                                 else toolInvocation)
                              invocations))
              else message
          | None => message
          end) messages.

Definition experimental_addToolResult (options : Options)
    (responses : list Response) (toolCallId' : jsstring)
    (result' : JSONValue) (h : Hook) : Result Hook :=
  let updatedMessages := addToolResultTo toolCallId' result' (messagesRef h) in
  let h1 := set_messages updatedMessages h in
  match updatedMessages !! (length updatedMessages - 1) with
  | Some lastMessage =>
      if isAssistantMessageWithCompletedToolCalls lastMessage
      then Returned (triggerRequest options responses
                       (ChatRequest.make updatedMessages None) h1)
      else Returned h1
  | None => Threw (lit "TypeError")
  end.

(** *** The roundtrip condition in the words of the specification *)

Definition isAssistant (message : Message) : Prop := role message = assistant.

(** [n] is the count of consecutive trailing assistant messages: the
    messages end with [n] assistant messages, and the message before
    them, if there is one, is not an assistant message. *)
Definition trailingAssistants (messages : list Message) (n : nat) : Prop :=
  exists before trailing,
    messages = before ++ trailing /\
    length trailing = n /\
    Forall isAssistant trailing /\
    (forall message, last before = Some message -> ~ isAssistant message).

(** The newest message is an assistant message with a non-empty
    tool-invocation table in which every invocation carries a result, the
    bound is greater than zero, and the count of consecutive trailing
    assistant messages does not exceed it. *)
Definition roundtripCondition (options : Options) (messages : list Message)
    : Prop :=
  exists newest invocations n,
    last messages = Some newest /\
    isAssistant newest /\
    toolInvocations newest = Some invocations /\
    invocations <> [] /\
    Forall (fun toolInvocation => is_Some (result toolInvocation))
           invocations /\
    (0 < experimental_maxAutomaticRoundtrips options)%Z /\
    trailingAssistants messages n /\
    (Z.of_nat n <= experimental_maxAutomaticRoundtrips options)%Z.

(** Controllers are numbered as they are created: one that does not exist
    yet has not been aborted. *)
Definition controllersFresh (h : Hook) : Prop :=
  forall c, c ∈ aborted h -> c < nextController h.

Definition noStop (events : list StreamEvent) : Prop :=
  Forall (fun event => event <> Stop) events.

(** *** Notions used in the statements *)

(** What reading a response does not touch, as long as nobody calls
    [stop]: everything but the messages, the stream data and the ref. *)
Definition frame (h : Hook) :=
  (isLoading h, error h, abortControllerRef h, extraMetadataRef h, input h,
   aborted h, nextController h, nextId h, clock h, requests h,
   onErrorCalls h, onFinishCalls h).

(** The hook and the answers used in the examples. *)
Definition exampleOptions (bound : Z) : Options :=
  mkOptions bound (fun _ => lit "generated").

Definition text (r : Role) (s : string) : Message :=
  mkMessage (Some (lit "m")) None (lit s) r None.

(** *** [reload] and [setMessages] *)

(** [Array.prototype.slice(0, -1)]: all elements but the last. *)
Definition slice_messages (messages : list Message) : list Message :=
  take (length messages - 1) messages.

(** [reload]: [null] is returned without any effect when the ref holds
    no message. *)
Definition reload (options : Options) (responses : list Response)
    (h : Hook) : Hook :=
  match messagesRef h !! (length (messagesRef h) - 1) with
  | None => h
  | Some lastMessage =>
      match role lastMessage with
      | assistant =>
          triggerRequest options responses
            (ChatRequest.make
               (slice_messages (messagesRef h)) None) h
      | _ =>
          triggerRequest options responses
            (ChatRequest.make (messagesRef h) None) h
      end
  end.

(** [setMessages] *)
Definition setMessages (messages' : list Message) (h : Hook) : Hook :=
  set_messagesRef messages' (set_messages messages' h).

(** *** Answers used in the statements *)

(** A server action that is rejected with something other than an abort
    error, after any number of rows. *)
Definition failedAction (r : Response) : Prop :=
  match r with
  | ActionResponse _ (Some err) _ => isAbortError err = false
  | _ => False
  end.

(** An answer that is read to its end, brings at least one message and
    only assistant messages, and is rendered before [triggerRequest]
    resumes. *)
Definition answersWithAssistantMessages (r : Response) : Prop :=
  match r with
  | RouteResponse events Finished true =>
      noStop events /\
      lastMerged events [] <> [] /\
      Forall isAssistant (lastMerged events [])
  | ActionResponse (_ :: _) None true => True
  | _ => False
  end.

End UseChat.

(** ** The Mistral chat model:
    [packages/core/mistral/mistral-chat-language-model.ts] *)

Module Mistral.

Import JS.

Definition JSONValue : Type := Streamable.Value.

(** A function tool of the call options, and the tool of [object-tool]
    mode. *)
Record FunctionTool : Type := mkFunctionTool {
  name : jsstring;
  description : option jsstring;
  parameters : JSONValue
}.

(** [mode]: the four values of [mode.type] with what they carry. *)
Inductive Mode : Type :=
| regular (tools : option (list FunctionTool))
| object_json
| object_tool (tool : FunctionTool)
| object_grammar.

(** [{ type: 'unsupported-setting', setting }] *)
Inductive CallWarning : Type :=
| unsupported_setting (setting : jsstring).

(** The options of a call that [getArgs] reads.  The numbers are passed
    on as they are; [None] is [undefined] or [null]. *)
Module CallOptions.
Record t (Number Prompt : Type) : Type := make {
  mode : Mode;
  prompt : Prompt;
  maxTokens : option Number;
  temperature : option Number;
  topP : option Number;
  frequencyPenalty : option Number;
  presencePenalty : option Number;
  seed : option Number
}.
Arguments make {Number Prompt}.
Arguments mode {Number Prompt}.
Arguments prompt {Number Prompt}.
Arguments maxTokens {Number Prompt}.
Arguments temperature {Number Prompt}.
Arguments topP {Number Prompt}.
Arguments frequencyPenalty {Number Prompt}.
Arguments presencePenalty {Number Prompt}.
Arguments seed {Number Prompt}.
End CallOptions.

(** The body of the request. *)
Inductive RequestTool : Type :=
| function_tool (function : FunctionTool).

Inductive ToolChoice : Type := any.

Inductive ResponseFormat : Type := json_object.

Module Args.
Record t (Number Messages : Type) : Type := make {
  model : jsstring;
  safe_prompt : option bool;
  max_tokens : option Number;
  temperature : option Number;
  top_p : option Number;
  random_seed : option Number;
  messages : Messages;
  tools : option (list RequestTool);
  tool_choice : option ToolChoice;
  response_format : option ResponseFormat
}.
Arguments make {Number Messages}.
Arguments model {Number Messages}.
Arguments safe_prompt {Number Messages}.
Arguments max_tokens {Number Messages}.
Arguments temperature {Number Messages}.
Arguments top_p {Number Messages}.
Arguments random_seed {Number Messages}.
Arguments messages {Number Messages}.
Arguments tools {Number Messages}.
Arguments tool_choice {Number Messages}.
Arguments response_format {Number Messages}.
End Args.

(** What [getArgs] gives: the arguments with the warnings, or the
    [UnsupportedFunctionalityError] that it throws. *)
Inductive Prepared (A : Type) : Type :=
| Ready (a : A)
| UnsupportedFunctionalityError (functionality provider : jsstring).
Arguments Ready {A} a.
Arguments UnsupportedFunctionalityError {A} functionality provider.

Section GetArgs.
(** [convertToMistralChatMessages] is not among the sources: it is a
    parameter. *)
Context {Number Prompt Messages : Type}.
Variable convertToMistralChatMessages : jsstring -> Prompt -> Messages.

(** The fields of the model object: [modelId], [settings.safePrompt] and
    [config.provider]. *)
Variable modelId : jsstring.
Variable safePrompt : option bool.
Variable provider : jsstring.

(** [getArgs] *)
Definition getArgs (options : CallOptions.t Number Prompt)
    : Prepared (Args.t Number Messages * list CallWarning) :=
  let warnings :=
    match CallOptions.frequencyPenalty options with
    | Some _ => [unsupported_setting (lit "frequencyPenalty")]
    | None => []
    end
    ++ match CallOptions.presencePenalty options with
       | Some _ => [unsupported_setting (lit "presencePenalty")]
       | None => []
       end in
  let baseArgs tools tool_choice response_format :=
    Args.make modelId safePrompt
      (CallOptions.maxTokens options) (CallOptions.temperature options)
      (CallOptions.topP options) (CallOptions.seed options)
      (convertToMistralChatMessages provider (CallOptions.prompt options))
      tools tool_choice response_format in
  match CallOptions.mode options with
  | regular modeTools =>
      let tools := match modeTools with
                   | Some (_ :: _) => modeTools
                   | _ => None
                   end in
      Ready (baseArgs
               (option_map
                  (List.map
                     (fun tool =>
                        function_tool
                          (mkFunctionTool (name tool) (description tool)
                             (parameters tool)))) tools)
               None None,
             warnings)
  | object_json => Ready (baseArgs None None (Some json_object), warnings)
  | object_tool tool =>
      Ready (baseArgs (Some [function_tool tool]) (Some any) None, warnings)
  | object_grammar =>
      UnsupportedFunctionalityError (lit "object-grammar mode") provider
  end.

End GetArgs.

(** *** The stream of [doStream] *)

(** A tool call of a chunk: [function.name] and [function.arguments]. *)
Record ToolCallChunk : Type := mkToolCallChunk {
  function_name : jsstring;
  function_arguments : jsstring
}.

Record Delta : Type := mkDelta {
  content : option jsstring;
  tool_calls : option (list ToolCallChunk)
}.

(** A choice and the value of a chunk, as the transform reads them:
    [choices] may be missing and a [delta] may be [null]. *)
Record Choice : Type := mkChoice {
  delta : option Delta
}.

Record ChunkValue : Type := mkChunkValue {
  choices : option (list Choice)
}.

Inductive ParsedChunk : Type :=
| error_chunk (error : JSONValue)
| value_chunk (value : ChunkValue).

(** [LanguageModelV1StreamPart], the parts that the transform
    enqueues. *)
Inductive StreamPart : Type :=
| error_part (error : JSONValue)
| text_delta (textDelta : jsstring)
| tool_call_delta (toolCallId toolName argsTextDelta : jsstring)
| tool_call (toolCallId toolName args : jsstring).

(** [value.choices?.[0]?.delta], [None] when it is [null] or
    [undefined]. *)
Definition firstDelta (value : ChunkValue) : option Delta :=
  match choices value with
  | Some (choice :: _) => delta choice
  | _ => None
  end.

Section Transform.
(** [nanoid] of the package of that name: the identifier that its
    [n]-th call returns. *)
Variable nanoid : nat -> jsstring.

(** The loop over [delta.tool_calls]; [n] counts the calls of
    [nanoid]. *)
Fixpoint enqueueToolCalls (calls : list ToolCallChunk) (n : nat)
    : list StreamPart * nat :=
  match calls with
  | [] => ([], n)
  | toolCall :: rest =>
      let '(parts, n') := enqueueToolCalls rest (S (S n)) in
      (tool_call_delta (nanoid n) (function_name toolCall)
         (function_arguments toolCall)
       :: tool_call (nanoid (S n)) (function_name toolCall)
            (function_arguments toolCall)
       :: parts, n')
  end.

(** [transform(chunk, controller)]: the parts enqueued for one chunk. *)
Definition transform (chunk : ParsedChunk) (n : nat)
    : list StreamPart * nat :=
  match chunk with
  | error_chunk e => ([error_part e], n)
  | value_chunk value =>
      match firstDelta value with
      | None => ([], n)
      | Some d =>
          let text := match content d with
                      | Some c => [text_delta c]
                      | None => []
                      end in
          match tool_calls d with
          | Some calls =>
              let '(parts, n') := enqueueToolCalls calls n in
              (text ++ parts, n')
          | None => (text, n)
          end
      end
  end.

(** [response.pipeThrough(new TransformStream({ transform }))]: the parts
    of the chunks, one chunk after the other. *)
Fixpoint pipeThrough (chunks : list ParsedChunk) (n : nat)
    : list StreamPart * nat :=
  match chunks with
  | [] => ([], n)
  | chunk :: rest =>
      let '(parts, n') := transform chunk n in
      let '(parts', n'') := pipeThrough rest n' in
      (parts ++ parts', n'')
  end.

End Transform.

(** *** Notions used in the statements *)

(** What a stream of chunks holds. *)
Definition contentsOf (chunk : ParsedChunk) : list jsstring :=
  match chunk with
  | value_chunk value =>
      match firstDelta value with
      | Some d => match content d with Some c => [c] | None => [] end
      | None => []
      end
  | error_chunk _ => []
  end.

Definition toolCallsOf (chunk : ParsedChunk) : list ToolCallChunk :=
  match chunk with
  | value_chunk value =>
      match firstDelta value with
      | Some d => default [] (tool_calls d)
      | None => []
      end
  | error_chunk _ => []
  end.

Definition errorsOf (chunk : ParsedChunk) : list JSONValue :=
  match chunk with
  | error_chunk e => [e]
  | value_chunk _ => []
  end.

(** What a stream of parts holds. *)
Definition textOf (part : StreamPart) : list jsstring :=
  match part with text_delta t => [t] | _ => [] end.

(** The tool parts: [false] marks a [tool-call-delta], [true] a
    [tool-call]. *)
Definition toolPartOf (part : StreamPart) : list (bool * ToolCallChunk) :=
  match part with
  | tool_call_delta _ toolName argsTextDelta =>
      [(false, mkToolCallChunk toolName argsTextDelta)]
  | tool_call _ toolName args => [(true, mkToolCallChunk toolName args)]
  | _ => []
  end.

Definition errorOf (part : StreamPart) : list JSONValue :=
  match part with error_part e => [e] | _ => [] end.

Definition idOf (part : StreamPart) : list jsstring :=
  match part with
  | tool_call_delta toolCallId _ _ => [toolCallId]
  | tool_call toolCallId _ _ => [toolCallId]
  | _ => []
  end.

End Mistral.

(** ** The OpenAI chat model:
    [packages/core/provider/openai/openai-chat-language-model.ts] *)

Module OpenAI.

Import JS.

Definition JSONValue : Type := Streamable.Value.

(** *** The chunks of a streamed completion

    The fields that the transforms read; [None] is [undefined] or
    [null]. *)
Record FunctionDelta : Type := mkFunctionDelta {
  name : option jsstring;
  arguments : option jsstring
}.

Record ToolCallDelta : Type := mkToolCallDelta {
  index : nat;
  id : option jsstring;
  function : option FunctionDelta
}.

Record Delta : Type := mkDelta {
  content : option jsstring;
  tool_calls : option (list ToolCallDelta)
}.

Record Choice : Type := mkChoice {
  delta : option Delta
}.

Record Chunk : Type := mkChunk {
  choices : option (list Choice)
}.

(** [LanguageModelStreamPart], the parts that the transforms enqueue. *)
Inductive StreamPart : Type :=
| text_delta (textDelta : jsstring)
| tool_call (toolCallId toolName : jsstring) (args : JSONValue)
| tool_call_delta (toolCallId toolName argsTextDelta : jsstring).

(** The test [chunk.choices?.[0].delta == null] at the start of the
    three transforms: without [choices] the chain is [undefined] and the
    chunk is skipped; with an empty array [choices[0]] is [undefined] and
    reading [.delta] throws a [TypeError]. *)
Inductive Guarded : Type :=
| skipped
| typeError
| passed (d : Delta).

Definition guard (chunk : Chunk) : Guarded :=
  match choices chunk with
  | None => skipped
  | Some [] => typeError
  | Some (choice :: _) =>
      match delta choice with
      | None => skipped
      | Some d => passed d
      end
  end.

(** [toolCallDelta.function?.arguments] and [.function?.name] *)
Definition argumentsOf (d : ToolCallDelta) : option jsstring :=
  match function d with
  | Some f => arguments f
  | None => None
  end.

Definition nameOf (d : ToolCallDelta) : option jsstring :=
  match function d with
  | Some f => name f
  | None => None
  end.

(** The text part of a delta. *)
Definition enqueueText (d : Delta) : list StreamPart :=
  match content d with
  | Some c => [text_delta c]
  | None => []
  end.

(** *** [doStream] in [regular] mode *)

(** The array [toolCalls] of the closure and the calls of [nanoid] so
    far. *)
Record Regular : Type := mkRegular {
  toolCalls : gmap nat ToolCallDelta;
  ids : nat
}.

Definition regularInitial : Regular := mkRegular ∅ 0.

Section RegularMode.
(** [tryParseJSON] of [core/util/try-json-parse] is not among the
    sources: it is a parameter; [None] is a result that [args == null]
    rejects.  [nanoid] gives the identifier of its [n]-th call. *)
Variable tryParseJSON : jsstring -> option JSONValue.
Variable nanoid : nat -> jsstring.

(** [toolCall.function!.arguments += argumentsDelta]: an [undefined]
    left operand is converted to the string ["undefined"]. *)
Definition plusAssign (stored : option jsstring) (argumentsDelta : jsstring)
    : jsstring :=
  match stored with
  | Some s => s ++ argumentsDelta
  | None => lit "undefined" ++ argumentsDelta
  end.

(** One turn of the loop over [delta.tool_calls]. *)
Definition mergeToolCall (toolCallDelta : ToolCallDelta) (st : Regular)
    : Result (Regular * list StreamPart) :=
  match toolCalls st !! index toolCallDelta with
  | None =>
      Returned (mkRegular (<[index toolCallDelta := toolCallDelta]>
                             (toolCalls st)) (ids st), [])
  | Some toolCall =>
      let merged :=
        match argumentsOf toolCallDelta with
        | Some argumentsDelta =>
            match function toolCall with
            | Some f =>
                Returned
                  (mkToolCallDelta (index toolCall) (id toolCall)
                     (Some (mkFunctionDelta (name f)
                              (Some (plusAssign (arguments f)
                                       argumentsDelta)))))
            | None => Threw (lit "TypeError")
            end
        | None => Returned toolCall
        end in
      match merged with
      | Threw e => Threw e
      | Returned toolCall' =>
          let st' := mkRegular (<[index toolCallDelta := toolCall']>
                                  (toolCalls st)) (ids st) in
          match nameOf toolCall', argumentsOf toolCall' with
          | Some toolName, Some text =>
              match tryParseJSON text with
              | Some args =>
                  match id toolCall' with
                  | Some toolCallId =>
                      Returned (st', [tool_call toolCallId toolName args])
                  | None =>
                      Returned (mkRegular (toolCalls st') (S (ids st')),
                                [tool_call (nanoid (ids st')) toolName args])
                  end
              | None => Returned (st', [])
              end
          | _, _ => Returned (st', [])
          end
      end
  end.

Fixpoint mergeToolCalls (deltas : list ToolCallDelta) (st : Regular)
    : Result (Regular * list StreamPart) :=
  match deltas with
  | [] => Returned (st, [])
  | toolCallDelta :: rest =>
      match mergeToolCall toolCallDelta st with
      | Threw e => Threw e
      | Returned (st', parts) =>
          match mergeToolCalls rest st' with
          | Threw e => Threw e
          | Returned (st'', parts') => Returned (st'', parts ++ parts')
          end
      end
  end.

(** [transform(chunk, controller)] of the [regular] case. *)
Definition transformRegular (chunk : Chunk) (st : Regular)
    : Result (Regular * list StreamPart) :=
  match guard chunk with
  | skipped => Returned (st, [])
  | typeError => Threw (lit "TypeError")
  | passed d =>
      match tool_calls d with
      | Some deltas =>
          match mergeToolCalls deltas st with
          | Threw e => Threw e
          | Returned (st', parts) => Returned (st', enqueueText d ++ parts)
          end
      | None => Returned (st, enqueueText d)
      end
  end.

Fixpoint pipeRegular (chunks : list Chunk) (st : Regular)
    : Result (Regular * list StreamPart) :=
  match chunks with
  | [] => Returned (st, [])
  | chunk :: rest =>
      match transformRegular chunk st with
      | Threw e => Threw e
      | Returned (st', parts) =>
          match pipeRegular rest st' with
          | Threw e => Threw e
          | Returned (st'', parts') => Returned (st'', parts ++ parts')
          end
      end
  end.

End RegularMode.

(** *** [doStream] in [object-json] mode *)

Definition transformJson (chunk : Chunk) : Result (list StreamPart) :=
  match guard chunk with
  | skipped => Returned []
  | typeError => Threw (lit "TypeError")
  | passed d => Returned (enqueueText d)
  end.

Fixpoint pipeJson (chunks : list Chunk) : Result (list StreamPart) :=
  match chunks with
  | [] => Returned []
  | chunk :: rest =>
      match transformJson chunk with
      | Threw e => Threw e
      | Returned parts =>
          match pipeJson rest with
          | Threw e => Threw e
          | Returned parts' => Returned (parts ++ parts')
          end
      end
  end.

(** *** [doStream] in [object-tool] mode *)

(** The entry [toolCalls[0]] of the closure, the only one that is ever
    written. *)
Record StoredToolCall : Type := mkStoredToolCall {
  toolCallId : jsstring;
  toolName : jsstring
}.

(** One turn of the loop over [delta.tool_calls]. *)
Definition forwardToolCall (toolCallDelta : ToolCallDelta)
    (st : option StoredToolCall) : option StoredToolCall * list StreamPart :=
  match index toolCallDelta with
  | 0 =>
      let toolCall :=
        match st with
        | Some toolCall => toolCall
        | None => mkStoredToolCall (default [] (id toolCallDelta))
                    (default [] (nameOf toolCallDelta))
        end in
      (Some toolCall,
       match argumentsOf toolCallDelta with
       | Some argumentsDelta =>
           [tool_call_delta (toolCallId toolCall) (toolName toolCall)
              argumentsDelta]
       | None => []
       end)
  | S _ => (st, [])
  end.

Fixpoint forwardToolCalls (deltas : list ToolCallDelta)
    (st : option StoredToolCall) : option StoredToolCall * list StreamPart :=
  match deltas with
  | [] => (st, [])
  | toolCallDelta :: rest =>
      let '(st', parts) := forwardToolCall toolCallDelta st in
      let '(st'', parts') := forwardToolCalls rest st' in
      (st'', parts ++ parts')
  end.

Definition transformTool (chunk : Chunk) (st : option StoredToolCall)
    : Result (option StoredToolCall * list StreamPart) :=
  match guard chunk with
  | skipped => Returned (st, [])
  | typeError => Threw (lit "TypeError")
  | passed d =>
      match tool_calls d with
      | None => Returned (st, [])
      | Some deltas => Returned (forwardToolCalls deltas st)
      end
  end.

Fixpoint pipeTool (chunks : list Chunk) (st : option StoredToolCall)
    : Result (option StoredToolCall * list StreamPart) :=
  match chunks with
  | [] => Returned (st, [])
  | chunk :: rest =>
      match transformTool chunk st with
      | Threw e => Threw e
      | Returned (st', parts) =>
          match pipeTool rest st' with
          | Threw e => Threw e
          | Returned (st'', parts') => Returned (st'', parts ++ parts')
          end
      end
  end.

(** *** Notions used in the statements *)

(** A chunk whose [choices] is an empty array. *)
Definition emptyChoices (chunk : Chunk) : Prop := choices chunk = Some [].

(** The content and the tool call deltas of the first choice. *)
Definition contentsOf (chunk : Chunk) : list jsstring :=
  match guard chunk with
  | passed d => match content d with Some c => [c] | None => [] end
  | _ => []
  end.

Definition toolCallDeltasOf (chunk : Chunk) : list ToolCallDelta :=
  match guard chunk with
  | passed d => default [] (tool_calls d)
  | _ => []
  end.

Definition textOf (part : StreamPart) : list jsstring :=
  match part with text_delta t => [t] | _ => [] end.

(** The deltas for the tool call at index 0. *)
Definition zeros (deltas : list ToolCallDelta) : list ToolCallDelta :=
  List.filter (fun d => Nat.eqb (index d) 0) deltas.

(** The stored tool call after the deltas [zs] for index 0. *)
Definition storedAfter (st : option StoredToolCall)
    (zs : list ToolCallDelta) : option StoredToolCall :=
  match st, zs with
  | Some toolCall, _ => Some toolCall
  | None, d :: _ =>
      Some (mkStoredToolCall (default [] (id d)) (default [] (nameOf d)))
  | None, [] => None
  end.

Definition forwarded (st : option StoredToolCall) (zs : list ToolCallDelta)
    : list StreamPart :=
  match storedAfter st zs with
  | Some toolCall =>
      List.map (tool_call_delta (toolCallId toolCall) (toolName toolCall))
        (omap argumentsOf zs)
  | None => []
  end.

(** A chunk that brings one piece of a tool call and nothing else. *)
Definition piece (toolCallDelta : ToolCallDelta) : Chunk :=
  mkChunk (Some [mkChoice (Some (mkDelta None (Some [toolCallDelta])))]).

End OpenAI.

(** ** [render]: the parts that run without waiting

    [packages/core/rsc/streamable.tsx], [handleRender] for a renderer
    that returns a node or a generator (the branches without [await]),
    and the callback [onText]. *)

Module Render.

Import JS Streamable.

(** What such a renderer returns: a node, or a generator with the nodes
    that it yields and the node that it returns. *)
Inductive Rendered : Type :=
| node (value : ReactNode)
| generator (yields : list ReactNode) (result : ReactNode).

(** The loop over a generator: [context.ui.update(value)] for every value
    of [it.next()], the returned one included. *)
Fixpoint updateEach (development : bool) (values : list ReactNode)
    (ui : UI.Cell) : Result UI.Cell :=
  match values with
  | [] => Returned ui
  | value :: rest =>
      match UI.update development value ui with
      | Returned ui' => updateEach development rest ui'
      | Threw e => Threw e
      end
  end.

(** [handleRender(args, renderer, context)], given what [renderer(args)]
    returned.  When it returns, [context.finished] has been resolved;
    when [update] throws it never is. *)
Definition handleRender (development : bool) (value : Rendered)
    (ui : UI.Cell) : Result UI.Cell :=
  match value with
  | node v => UI.update development v ui
  | generator yields result =>
      updateEach development (yields ++ [result]) ui
  end.

(** [onText(chunk)]: the variable [content] of the closure, and the calls
    of [handleRender] for the text and of [updateComposedUI] so far. *)
Record Text : Type := mkText {
  content : jsstring;
  textRenders : list jsstring;
  composedUpdates : nat
}.

Definition noText : Text := mkText [] [] 0.

Definition onText (st : Text) (chunk : jsstring) : Text :=
  let content' := content st ++ chunk in
  mkText content' (textRenders st ++ [content'])
    (if bool_decide (content' = chunk) then S (composedUpdates st)
     else composedUpdates st).

(** *** Notions used in the statements *)

(** The values handed to [update], in order. *)
Definition valuesOf (value : Rendered) : list ReactNode :=
  match value with
  | node v => [v]
  | generator yields result => yields ++ [result]
  end.

(** The values of a sequence that differ from the value before them,
    [current] being the value before the first. *)
Fixpoint changes (current : ReactNode) (values : list ReactNode)
    : list ReactNode :=
  match values with
  | [] => []
  | value :: rest =>
      if strictEq value current then changes current rest
      else value :: changes value rest
  end.

End Render.

(** ** Facts about JavaScript strings *)

Module JSFacts.
Import JS.

(** *** Facts about the string operations *)

Lemma startsWith_app (a suffix : jsstring) : startsWith (a ++ suffix) a = true.
Proof.
  induction a as [|c a IH]; simpl; [reflexivity|].
  rewrite N.eqb_refl. exact IH.
Qed.

Lemma startsWith_inv (s search : jsstring) :
  startsWith s search = true -> s = search ++ drop (length search) s.
Proof.
  revert s. induction search as [|c search IH]; intros s H; simpl in *.
  - reflexivity.
  - destruct s as [|d s]; [discriminate|].
    apply andb_prop in H as [Hc Hs]. apply N.eqb_eq in Hc. subst d.
    simpl. f_equal. apply IH, Hs.
Qed.

Lemma slice_from_length (s a : jsstring) :
  (length a <= length s)%nat ->
  slice s (len a) None = drop (length a) s.
Proof.
  intros Hle. unfold slice, clampIndex, len.
  destruct (Z.ltb_spec (Z.of_nat (length a)) 0) as [Hneg|_]; [lia|].
  rewrite Z.min_l by lia. rewrite Nat2Z.id.
  apply take_ge. rewrite length_drop. lia.
Qed.

Lemma slice_prefix (s : jsstring) (n : nat) :
  slice s 0 (Some (Z.of_nat n)) = take n s.
Proof.
  unfold slice, clampIndex, len.
  replace (0 <? 0)%Z with false by reflexivity.
  destruct (Z.ltb_spec (Z.of_nat n) 0) as [Hneg|_]; [lia|].
  replace (Z.min 0 (Z.of_nat (length s))) with 0%Z by lia.
  rewrite Z.sub_0_r. change (Z.to_nat 0) with 0%nat. rewrite drop_0.
  destruct (Nat.le_gt_cases n (length s)) as [Hle|Hgt].
  - replace (Z.to_nat _) with n by lia. reflexivity.
  - replace (Z.to_nat _) with (length s) by lia.
    rewrite !take_ge by lia. reflexivity.
Qed.

Lemma startsWith_length (s search : jsstring) :
  startsWith s search = true -> (length search <= length s)%nat.
Proof.
  intros H. apply startsWith_inv in H.
  apply (f_equal length) in H. rewrite length_app in H. lia.
Qed.

Lemma endsWith_iff (s search : jsstring) :
  endsWith s search = true <-> exists front, s = front ++ search.
Proof.
  unfold endsWith, len. split.
  - destruct (Z.ltb_spec (Z.of_nat (length s) - Z.of_nat (length search)) 0)
      as [Hneg|Hpos]; [discriminate|].
    intros Hdrop. apply bool_decide_eq_true in Hdrop.
    set (start := Z.to_nat (Z.of_nat (length s) - Z.of_nat (length search)))
      in *.
    exists (take start s). rewrite <- Hdrop. symmetry. apply take_drop.
  - intros [front ->]. rewrite length_app.
    destruct (Z.ltb_spec (Z.of_nat (length front + length search)
                          - Z.of_nat (length search)) 0) as [Hneg|_]; [lia|].
    apply bool_decide_eq_true.
    replace (Z.to_nat _) with (length front) by lia.
    apply drop_app_length.
Qed.

End JSFacts.

(** ** Properties of the incremental cells *)

Module StreamableFacts.
Import JS Streamable JSFacts.

(** *** Chains of revisions *)

Section Chains.
Context {R : Type} (next : R -> option nat).
Implicit Types (m : gmap nat (PromiseState R)) (rows : list R).

Lemma settle_pending (p : nat) (o : PromiseState R) (st : Store R) :
  cells st !! p = Some Pending ->
  settle p o st = mkStore (<[p := o]> (cells st)) (fresh st).
Proof. intros H. unfold settle. now rewrite H. Qed.

Lemma revisions_deterministic m p rows1 rows2 :
  revisions next m p rows1 -> revisions next m p rows2 -> rows1 = rows2.
Proof.
  intros H1. revert rows2.
  induction H1 as [p Hp|p e Hp|p r Hp Hn|p r q rows Hp Hn Hq IH];
    intros rows2 H2; inversion H2; subst; try congruence.
  assert (r0 = r) by congruence. subst r0.
  assert (q0 = q) by congruence. subst q0.
  f_equal. now apply IH.
Qed.

Lemma chain_to_revisions m p rows t rows' :
  chain_to next m p rows t -> revisions next m t rows' ->
  revisions next m p (rows ++ rows').
Proof.
  induction 1 as [t|p r q rows t Hp Hn Hq IH]; intros Ht; simpl.
  - exact Ht.
  - eapply revisions_more; eauto.
Qed.

Lemma chain_to_snoc m p rows t r q :
  chain_to next m p rows t -> m !! t = Some (Fulfilled r) ->
  next r = Some q -> chain_to next m p (rows ++ [r]) q.
Proof.
  induction 1 as [t|p r0 q0 rows t Hp Hn Hq IH]; intros Ht Hr; simpl.
  - eapply chain_step; eauto. constructor.
  - eapply chain_step; eauto.
Qed.

(** Settling the pending tail keeps the chain that leads to it. *)
Lemma chain_to_settle_tail m p rows t o :
  chain_to next m p rows t -> m !! t = Some Pending ->
  chain_to next (<[t := o]> m) p rows t.
Proof.
  induction 1 as [t|p r q rows t Hp Hn Hq IH]; intros Ht.
  - constructor.
  - eapply chain_step; eauto.
    rewrite lookup_insert_ne; [exact Hp|]. congruence.
Qed.

(** Allocating a promise keeps every chain. *)
Lemma chain_to_alloc m p rows t q o :
  chain_to next m p rows t -> m !! q = None ->
  chain_to next (<[q := o]> m) p rows t.
Proof.
  induction 1 as [t|p r q0 rows t Hp Hn Hq IH]; intros Hfresh.
  - constructor.
  - eapply chain_step; eauto.
    rewrite lookup_insert_ne; [exact Hp|]. congruence.
Qed.

(** What [update] does to the store: a fresh open tail [q] is
    allocated and the old tail [t] is resolved with a revision that
    points to it. *)
Lemma chain_to_publish m p rows t q r :
  chain_to next m p rows t -> m !! t = Some Pending -> m !! q = None ->
  next r = Some q ->
  chain_to next (<[t := Fulfilled r]> (<[q := Pending]> m)) p
    (rows ++ [r]) q.
Proof.
  intros Hc Ht Hq Hr.
  assert (t <> q) by congruence.
  eapply chain_to_snoc; [| apply lookup_insert_eq | exact Hr].
  apply chain_to_settle_tail.
  - now apply chain_to_alloc.
  - rewrite lookup_insert_ne by congruence. exact Ht.
Qed.

End Chains.

Lemma ui_inv_create (development : bool) (initialValue : ReactNode) :
  ui_inv (UI.createStreamableUI development initialValue).
Proof.
  unfold ui_inv; simpl. split; [reflexivity|]. split; [|split].
  - intros p Hp. rewrite lookup_insert_ne by lia. apply lookup_empty.
  - intros _. apply lookup_insert_eq.
  - exists []. constructor.
Qed.

Lemma settle_after_create {R : Type} (t : nat) (r : R) (st : Store R) :
  cells st !! t = Some Pending ->
  (forall p, fresh st <= p -> cells st !! p = None) ->
  settle t (Fulfilled r) (createResolvablePromise st).2 = publish t r st.
Proof.
  intros Ht Hfresh. unfold createResolvablePromise; simpl.
  apply settle_pending; simpl.
  rewrite lookup_insert_ne; [exact Ht|].
  intros <-. rewrite Hfresh in Ht by lia. discriminate.
Qed.

Lemma publish_fresh {R : Type} (t : nat) (r : R) (st : Store R) :
  cells st !! t = Some Pending ->
  (forall p, fresh st <= p -> cells st !! p = None) ->
  forall p, fresh (publish t r st) <= p -> cells (publish t r st) !! p = None.
Proof.
  intros Ht Hfresh p Hp. simpl in *.
  assert (t < fresh st).
  { destruct (Nat.lt_ge_cases t (fresh st)) as [|Hge]; [assumption|].
    rewrite Hfresh in Ht by lia. discriminate. }
  rewrite !lookup_insert_ne by lia. apply Hfresh. lia.
Qed.

Lemma publish_tail {R : Type} (t : nat) (r : R) (st : Store R) :
  cells st !! t = Some Pending ->
  (forall p, fresh st <= p -> cells st !! p = None) ->
  cells (publish t r st) !! fresh st = Some Pending.
Proof.
  intros Ht Hfresh. simpl.
  rewrite lookup_insert_ne.
  - apply lookup_insert_eq.
  - intros ->. rewrite Hfresh in Ht by lia. discriminate.
Qed.

Lemma ui_update_fresh (development : bool) (v : ReactNode) (c : UI.Cell) :
  ui_inv c -> UI.closed c = false -> strictEq v (UI.currentValue c) = false ->
  UI.update development v c =
    Returned (UI.mkCell v false (UI.row c) (fresh (UI.store c))
                (fresh (UI.store c))
                (warnUnclosedStream development (UI.timers c))
                (publish (UI.resolve c)
                   (UI.mkRow v false false (Some (fresh (UI.store c))))
                   (UI.store c))).
Proof.
  intros (Hrej & Hfresh & Hpend & _) Hopen Hneq.
  unfold UI.update, UI.assertStream. rewrite Hopen, Hneq.
  pose proof (settle_after_create (UI.resolve c)
    (UI.mkRow v false false (Some (fresh (UI.store c)))) (UI.store c)
    (Hpend Hopen) Hfresh) as Hs.
  unfold createResolvablePromise in *. simpl in *. now rewrite Hs.
Qed.

Lemma ui_append_open (development : bool) (v : ReactNode) (c : UI.Cell) :
  ui_inv c -> UI.closed c = false ->
  UI.append development v c =
    Returned (UI.mkCell v false (UI.row c) (fresh (UI.store c))
                (fresh (UI.store c))
                (warnUnclosedStream development (UI.timers c))
                (publish (UI.resolve c)
                   (UI.mkRow v false true (Some (fresh (UI.store c))))
                   (UI.store c))).
Proof.
  intros (Hrej & Hfresh & Hpend & _) Hopen.
  unfold UI.append, UI.assertStream. rewrite Hopen.
  pose proof (settle_after_create (UI.resolve c)
    (UI.mkRow v false true (Some (fresh (UI.store c)))) (UI.store c)
    (Hpend Hopen) Hfresh) as Hs.
  unfold createResolvablePromise in *. simpl in *. now rewrite Hs.
Qed.

Lemma ui_inv_publish (c : UI.Cell) (v cur : ReactNode) (a : bool)
    (tm : Timers) :
  ui_inv c -> UI.closed c = false ->
  ui_inv (UI.mkCell cur false (UI.row c) (fresh (UI.store c))
            (fresh (UI.store c)) tm
            (publish (UI.resolve c)
               (UI.mkRow v false a (Some (fresh (UI.store c))))
               (UI.store c))).
Proof.
  intros (Hrej & Hfresh & Hpend & rows & Hchain) Hopen.
  specialize (Hpend Hopen).
  unfold ui_inv. cbn [UI.reject UI.resolve UI.store UI.closed UI.row].
  split; [reflexivity|]. split; [now apply publish_fresh|].
  split; [intros _; now apply publish_tail|].
  exists (rows ++ [UI.mkRow v false a (Some (fresh (UI.store c)))]).
  apply chain_to_publish; auto.
Qed.

Lemma ui_inv_settle_closed (c : UI.Cell) (o : PromiseState UI.Row)
    (tm : Timers) (t : nat) :
  ui_inv c -> UI.closed c = false -> t = UI.resolve c ->
  ui_inv (UI.mkCell (UI.currentValue c) true (UI.row c) (UI.resolve c)
            (UI.reject c) tm (settle t o (UI.store c))).
Proof.
  intros (Hrej & Hfresh & Hpend & rows & Hchain) Hopen ->.
  specialize (Hpend Hopen).
  rewrite (settle_pending _ _ _ Hpend).
  unfold ui_inv. cbn [UI.reject UI.resolve UI.store UI.closed UI.row cells fresh].
  split; [assumption|]. split.
  - intros p Hp. rewrite lookup_insert_ne; [now apply Hfresh|].
    intros <-. rewrite Hfresh in Hpend by lia. discriminate.
  - split; [discriminate|]. exists rows.
    now apply chain_to_settle_tail.
Qed.

Lemma ui_inv_call (development : bool) (op : UI.Call) (c c' : UI.Cell) :
  ui_inv c -> UI.call development op c = Returned c' -> ui_inv c'.
Proof.
  intros Hinv Hcall.
  destruct (UI.closed c) eqn:Hopen.
  { destruct op; simpl in Hcall;
      unfold UI.update, UI.append, UI.error, UI.done, UI.assertStream in Hcall;
      rewrite Hopen in Hcall; discriminate. }
  destruct op as [v|v|e|args]; simpl in Hcall.
  - destruct (strictEq v (UI.currentValue c)) eqn:Heq.
    + unfold UI.update, UI.assertStream in Hcall.
      rewrite Hopen, Heq in Hcall. inversion Hcall; subst c'; clear Hcall.
      destruct Hinv as (? & ? & ? & ?). unfold ui_inv; simpl. auto.
    + rewrite (ui_update_fresh _ _ _ Hinv Hopen Heq) in Hcall.
      inversion Hcall; subst c'. now apply ui_inv_publish.
  - rewrite (ui_append_open _ _ _ Hinv Hopen) in Hcall.
    inversion Hcall; subst c'. now apply ui_inv_publish.
  - unfold UI.error, UI.assertStream in Hcall. rewrite Hopen in Hcall.
    inversion Hcall; subst c'.
    apply ui_inv_settle_closed; [assumption..|]. apply Hinv.
  - unfold UI.done, UI.assertStream in Hcall. rewrite Hopen in Hcall.
    inversion Hcall; subst c'. now apply ui_inv_settle_closed.
Qed.

Lemma ui_reachable_inv (development : bool) (c : UI.Cell) :
  UI.reachable development c -> ui_inv c.
Proof.
  induction 1 as [init|c op c' _ IH Hcall].
  - apply ui_inv_create.
  - eapply ui_inv_call; eauto.
Qed.

Lemma val_revision_next (cur v : Value) (nxt : option nat) :
  Val.next (val_revision cur v nxt) = nxt.
Proof. unfold val_revision. destruct (Val.patchFor cur v); reflexivity. Qed.

Lemma val_inv_create (development : bool) (initialValue : Value) :
  val_inv (Val.createStreamableValue development initialValue).
Proof.
  unfold val_inv; simpl. split; [|split].
  - intros p Hp. rewrite lookup_insert_ne by lia. apply lookup_empty.
  - intros _. split; [apply lookup_insert_eq | split; reflexivity].
  - intros p [o Hp]. destruct (decide (p = 0)) as [->|Hne].
    + exists []. constructor.
    + rewrite lookup_insert_ne in Hp by congruence.
      rewrite lookup_empty in Hp. discriminate.
Qed.

Lemma val_createWrapped_open (c : Val.Cell) (cur v : Value) (q : nat)
    (tm : Timers) (st : Store Val.Wrapped) (cl : bool) (nxt : option nat) :
  Val.createWrapped false
    (Val.mkCell cl q v VUndefined nxt (Val.patchFor cur v) tm st)
  = val_revision cur v nxt.
Proof.
  unfold Val.createWrapped, val_revision; simpl.
  destruct (Val.patchFor cur v); reflexivity.
Qed.

Lemma val_update_open (development : bool) (v : Value) (c : Val.Cell) :
  val_inv c -> Val.closed c = false ->
  Val.update development v c =
    Returned (Val.mkCell false (fresh (Val.store c)) v VUndefined
                (Some (fresh (Val.store c)))
                (Val.patchFor (Val.currentValue c) v)
                (warnUnclosedStream development (Val.timers c))
                (publish (Val.resolvable c)
                   (val_revision (Val.currentValue c) v
                      (Some (fresh (Val.store c))))
                   (Val.store c))).
Proof.
  intros (Hfresh & Hopen' & _) Hopen.
  destruct (Hopen' Hopen) as (Hpend & _ & Herr).
  unfold Val.update, Val.assertStream. rewrite Hopen.
  unfold createResolvablePromise, Val.updateValueStates.
  cbn [Val.closed Val.resolvable Val.currentValue Val.currentError
       Val.currentPromise Val.currentPatchValue Val.timers Val.store].
  rewrite Herr.
  rewrite (val_createWrapped_open c).
  pose proof (settle_after_create (Val.resolvable c)
    (val_revision (Val.currentValue c) v (Some (fresh (Val.store c))))
    (Val.store c) Hpend Hfresh) as Hs.
  unfold createResolvablePromise in Hs. simpl in Hs. now rewrite Hs.
Qed.

Lemma val_done_open (args : option Value) (c : Val.Cell) :
  val_inv c -> Val.closed c = false ->
  Val.done args c =
    Returned (Val.mkCell true (Val.resolvable c)
                (match args with
                 | Some v => v
                 | None => Val.currentValue c
                 end)
                VUndefined None
                (match args with
                 | Some v => Val.patchFor (Val.currentValue c) v
                 | None => Val.currentPatchValue c
                 end)
                (clearWarning (Val.timers c))
                (mkStore
                   (<[Val.resolvable c :=
                        Fulfilled
                          (match args with
                           | Some v => val_revision (Val.currentValue c) v None
                           | None => Val.emptyWrapped
                           end)]> (cells (Val.store c)))
                   (fresh (Val.store c)))).
Proof.
  intros (Hfresh & Hopen' & _) Hopen.
  destruct (Hopen' Hopen) as (Hpend & _ & Herr).
  unfold Val.done, Val.assertStream. rewrite Hopen.
  destruct args as [v|];
    unfold Val.updateValueStates;
    cbn [Val.closed Val.resolvable Val.currentValue Val.currentError
         Val.currentPromise Val.currentPatchValue Val.timers Val.store];
    rewrite Herr.
  - rewrite (val_createWrapped_open c).
    now rewrite (settle_pending _ _ _ Hpend).
  - now rewrite (settle_pending _ _ _ Hpend).
Qed.

Lemma val_error_open (e : Value) (c : Val.Cell) :
  val_inv c -> Val.closed c = false ->
  Val.error e c =
    Returned (Val.mkCell true (Val.resolvable c) (Val.currentValue c) e None
                (Val.currentPatchValue c) (clearWarning (Val.timers c))
                (mkStore
                   (<[Val.resolvable c :=
                        Fulfilled (Val.mkWrapped None None None (Some e) false)]>
                      (cells (Val.store c)))
                   (fresh (Val.store c)))).
Proof.
  intros (Hfresh & Hopen' & _) Hopen.
  destruct (Hopen' Hopen) as (Hpend & _ & Herr).
  unfold Val.error, Val.assertStream. rewrite Hopen.
  now rewrite (settle_pending _ _ _ Hpend).
Qed.

Lemma val_inv_closed (c : Val.Cell) (o : PromiseState Val.Wrapped)
    (cur err : Value) (patch : option Val.Patch) (tm : Timers) :
  val_inv c -> Val.closed c = false ->
  val_inv (Val.mkCell true (Val.resolvable c) cur err None patch tm
             (mkStore (<[Val.resolvable c := o]> (cells (Val.store c)))
                      (fresh (Val.store c)))).
Proof.
  intros (Hfresh & Hopen' & Hall) Hopen.
  destruct (Hopen' Hopen) as (Hpend & _ & _).
  unfold val_inv.
  cbn [Val.closed Val.resolvable Val.store cells fresh].
  split; [|split].
  - intros p Hp. rewrite lookup_insert_ne; [now apply Hfresh|].
    intros <-. rewrite Hfresh in Hpend by lia. discriminate.
  - discriminate.
  - intros p Hp.
    assert (is_Some (cells (Val.store c) !! p)) as Hp'.
    { destruct (decide (Val.resolvable c = p)) as [<-|Hne].
      - rewrite Hpend. eauto.
      - now rewrite lookup_insert_ne in Hp. }
    destruct (Hall p Hp') as [rows Hrows]. exists rows.
    now apply chain_to_settle_tail.
Qed.

Lemma val_inv_call (development : bool) (op : Val.Call) (c c' : Val.Cell) :
  val_inv c -> Val.call development op c = Returned c' -> val_inv c'.
Proof.
  intros Hinv Hcall.
  destruct (Val.closed c) eqn:Hopen.
  { destruct op; simpl in Hcall;
      unfold Val.update, Val.error, Val.done, Val.assertStream in Hcall;
      rewrite Hopen in Hcall; discriminate. }
  destruct op as [v|e|args]; simpl in Hcall.
  - rewrite (val_update_open _ _ _ Hinv Hopen) in Hcall.
    inversion Hcall; subst c'; clear Hcall.
    destruct Hinv as (Hfresh & Hopen' & Hall).
    destruct (Hopen' Hopen) as (Hpend & _ & _).
    unfold val_inv.
    cbn [Val.closed Val.resolvable Val.store Val.currentPromise
         Val.currentError].
    split; [now apply publish_fresh|]. split.
    + intros _. split; [now apply publish_tail|]. split; reflexivity.
    + intros p Hp.
      destruct (decide (p = fresh (Val.store c))) as [->|Hne].
      * exists []. constructor.
      * assert (is_Some (cells (Val.store c) !! p)) as Hp'.
        { simpl in Hp.
          destruct (decide (Val.resolvable c = p)) as [<-|Hne'].
          - rewrite Hpend. eauto.
          - rewrite lookup_insert_ne in Hp by assumption.
            rewrite lookup_insert_ne in Hp by congruence. exact Hp. }
        destruct (Hall p Hp') as [rows Hrows].
        eexists. apply chain_to_publish; eauto using val_revision_next.
  - rewrite (val_error_open _ _ Hinv Hopen) in Hcall.
    inversion Hcall; subst c'. now apply val_inv_closed.
  - rewrite (val_done_open _ _ Hinv Hopen) in Hcall.
    inversion Hcall; subst c'. now apply val_inv_closed.
Qed.

Lemma val_reachable_inv (development : bool) (c : Val.Cell) :
  Val.reachable development c -> val_inv c.
Proof.
  induction 1 as [init|c op c' _ IH Hcall].
  - apply val_inv_create.
  - eapply val_inv_call; eauto.
Qed.

(** *** Properties of the cells *)

Lemma revisions_publish {R : Type} (next : R -> option nat)
    (m : gmap nat (PromiseState R)) (p t q : nat) (rows rows0 : list R)
    (r : R) :
  revisions next m p rows -> chain_to next m p rows0 t ->
  m !! t = Some Pending -> m !! q = None -> next r = Some q ->
  revisions next (<[t := Fulfilled r]> (<[q := Pending]> m)) p (rows ++ [r]).
Proof.
  intros Hrev Hchain Ht Hq Hr.
  assert (rows = rows0) as ->.
  { eapply revisions_deterministic; [exact Hrev|].
    rewrite <- (app_nil_r rows0).
    eapply chain_to_revisions; [exact Hchain|]. now constructor. }
  rewrite <- (app_nil_r (rows0 ++ [r])).
  eapply chain_to_revisions.
  - now apply chain_to_publish.
  - constructor. rewrite lookup_insert_ne by congruence.
    apply lookup_insert_eq.
Qed.

Lemma ui_call_closed (development : bool) (op : UI.Call) (c : UI.Cell) :
  UI.closed c = true ->
  UI.call development op c =
    Threw (ui_methodName op ++ lit ": UI stream is already closed.").
Proof.
  intros Hc. destruct op; simpl;
    unfold UI.update, UI.append, UI.error, UI.done, UI.assertStream;
    now rewrite Hc.
Qed.

Lemma val_call_closed (development : bool) (op : Val.Call) (c : Val.Cell) :
  Val.closed c = true ->
  Val.call development op c =
    Threw (val_methodName op ++ lit ": Value stream is already closed.").
Proof.
  intros Hc. destruct op; simpl;
    unfold Val.update, Val.error, Val.done, Val.assertStream;
    now rewrite Hc.
Qed.

Lemma ui_closing_call_closes (development : bool) (op : UI.Call)
    (c c' : UI.Cell) :
  ui_closes op = true -> UI.call development op c = Returned c' ->
  UI.closed c' = true.
Proof.
  intros Hop Hcall. destruct op; try discriminate; simpl in Hcall;
    unfold UI.error, UI.done, UI.assertStream in Hcall;
    destruct (UI.closed c); try discriminate;
    inversion Hcall; reflexivity.
Qed.

Lemma val_closing_call_closes (development : bool) (op : Val.Call)
    (c c' : Val.Cell) :
  val_closes op = true -> Val.call development op c = Returned c' ->
  Val.closed c' = true.
Proof.
  intros Hop Hcall. destruct op as [v|e|[v|]]; try discriminate;
    simpl in Hcall; unfold Val.error, Val.done, Val.assertStream in Hcall;
    destruct (Val.closed c); try discriminate;
    inversion Hcall; reflexivity.
Qed.

(** C1 (as the code has it).  When the current value is the string [a]
    and the new value [b] starts with [a], [updateValueStates] records
    the patch [[0, suffix]] with [suffix = b.slice(a.length)] and
    [a + suffix] is [b]: the first component is the constant 0, not an
    offset, and the rule [local.slice(0, offset) + suffix] returns the
    suffix alone. *)
Theorem updateValueStates_patch_appends (c : Val.Cell) (a b : jsstring) :
  Val.currentValue c = VString a ->
  startsWith b a = true ->
  exists suffix,
    Val.currentPatchValue (Val.updateValueStates (VString b) c)
      = Some (0%Z, suffix) /\
    Val.currentValue (Val.updateValueStates (VString b) c) = VString b /\
    suffix = slice b (len a) None /\
    a ++ suffix = b /\
    Val.applyPatchBySlice a (0%Z, suffix) = suffix.
Proof.
  intros Hcur Hstart. exists (slice b (len a) None).
  unfold Val.updateValueStates, Val.patchFor; simpl.
  rewrite Hcur, Hstart. repeat split.
  - rewrite slice_from_length by now apply startsWith_length.
    symmetry. now apply startsWith_inv.
  - unfold Val.applyPatchBySlice. cbn [fst snd].
    change 0%Z with (Z.of_nat 0). now rewrite slice_prefix.
Qed.

Lemma updateValueStates_patch_appends_witness :
  exists suffix,
    Val.currentPatchValue
      (Val.updateValueStates (VString (lit "abc"))
         (Val.createStreamableValue false (VString (lit "ab"))))
      = Some (0%Z, suffix) /\
    Val.currentValue
      (Val.updateValueStates (VString (lit "abc"))
         (Val.createStreamableValue false (VString (lit "ab"))))
      = VString (lit "abc") /\
    suffix = slice (lit "abc") (len (lit "ab")) None /\
    lit "ab" ++ suffix = lit "abc" /\
    Val.applyPatchBySlice (lit "ab") (0%Z, suffix) = suffix.
Proof.
  apply (updateValueStates_patch_appends
           (Val.createStreamableValue false (VString (lit "ab")))
           (lit "ab") (lit "abc")); reflexivity.
Defined.

(** C1 fails as stated: for [a = "ab"] and [b = "abc"] the patch is
    [[0, "c"]], and [a.slice(0, 0) + "c"] is ["c"], not ["abc"]. *)
Lemma patch_by_slice_counterexample :
  startsWith (lit "abc") (lit "ab") = true /\
  Val.currentPatchValue
    (Val.updateValueStates (VString (lit "abc"))
       (Val.createStreamableValue false (VString (lit "ab"))))
    = Some (0%Z, lit "c") /\
  Val.applyPatchBySlice (lit "ab") (0%Z, lit "c") = lit "c" /\
  Val.applyPatchBySlice (lit "ab") (0%Z, lit "c") <> lit "abc".
Proof. repeat split. discriminate. Qed.

Lemma ui_run_closed (development : bool) (ops : list UI.Call) (c : UI.Cell) :
  UI.closed c = true ->
  UI.run development ops c =
    (c, List.map (fun op => Some (ui_methodName op
                                    ++ lit ": UI stream is already closed."))
          ops).
Proof.
  intros Hc. induction ops as [|op ops IH]; simpl; [reflexivity|].
  rewrite (ui_call_closed development op c Hc), IH. reflexivity.
Qed.

Lemma val_run_closed (development : bool) (ops : list Val.Call)
    (c : Val.Cell) :
  Val.closed c = true ->
  Val.run development ops c =
    (c, List.map (fun op => Some (val_methodName op
                                    ++ lit ": Value stream is already closed."))
          ops).
Proof.
  intros Hc. induction ops as [|op ops IH]; simpl; [reflexivity|].
  rewrite (val_call_closed development op c Hc), IH. reflexivity.
Qed.

(** C5.  Once [done] or [error] has returned on a cell, every later call
    of [update], [append], [error] or [done] throws the error
    "<method>: UI stream is already closed." (UI cell) or
    "<method>: Value stream is already closed." (value cell, which has no
    [append]), whatever calls came in between, and the cell is left as
    it was. *)
Theorem closed_cell_calls_throw (development : bool) :
  (forall (c c' : UI.Cell) (closing : UI.Call) (later : list UI.Call),
      ui_closes closing = true ->
      UI.call development closing c = Returned c' ->
      UI.run development later c' =
        (c', List.map
               (fun op => Some (ui_methodName op
                                  ++ lit ": UI stream is already closed."))
               later)) /\
  (forall (c c' : Val.Cell) (closing : Val.Call) (later : list Val.Call),
      val_closes closing = true ->
      Val.call development closing c = Returned c' ->
      Val.run development later c' =
        (c', List.map
               (fun op => Some (val_methodName op
                                  ++ lit ": Value stream is already closed."))
               later)).
Proof.
  split.
  - intros c c' closing later Hop Hcall.
    apply ui_run_closed. eapply ui_closing_call_closes; eauto.
  - intros c c' closing later Hop Hcall.
    apply val_run_closed. eapply val_closing_call_closes; eauto.
Qed.

Lemma closed_cell_calls_throw_witness :
  (exists c',
      UI.call true (UI.CallDone None) (UI.createStreamableUI true RNull)
        = Returned c' /\
      UI.run true
        [UI.CallUpdate (RText (lit "x")); UI.CallAppend RNull;
         UI.CallError VNull; UI.CallDone None] c'
      = (c', [Some (lit ".update(): UI stream is already closed.");
              Some (lit ".append(): UI stream is already closed.");
              Some (lit ".error(): UI stream is already closed.");
              Some (lit ".done(): UI stream is already closed.")])) /\
  (exists c',
      Val.call true (Val.CallError VNull)
        (Val.createStreamableValue true VUndefined) = Returned c' /\
      Val.run true
        [Val.CallUpdate (VInt 1); Val.CallError VNull; Val.CallDone None] c'
      = (c', [Some (lit ".update(): Value stream is already closed.");
              Some (lit ".error(): Value stream is already closed.");
              Some (lit ".done(): Value stream is already closed.")])).
Proof.
  split.
  - eexists. split; [vm_compute; reflexivity|].
    apply (proj1 (closed_cell_calls_throw true)
             (UI.createStreamableUI true RNull) _ (UI.CallDone None));
      reflexivity.
  - eexists. split; [vm_compute; reflexivity|].
    apply (proj2 (closed_cell_calls_throw true)
             (Val.createStreamableValue true VUndefined) _
             (Val.CallError VNull));
      reflexivity.
Defined.

(** C8 (as the code has it).  On an open cell [done] returns and closes
    the cell.  The UI cell resolves its open tail with
    [{value: finalValue, done: true}] when a final value is passed and
    with [{value: currentValue, done: true}] otherwise, in both cases
    without [next].  The value cell resolves its open tail without [next]
    too, but with another object: for [done(v)] the patch
    [{diff: [0, suffix]}] when [v] and the current value are strings and
    [v] starts with it, [{curr: v}] otherwise; for [done()] the empty
    object, which carries no value. *)
Theorem done_resolves_open_tail (development : bool) :
  (forall (c : UI.Cell) (args : option ReactNode),
      UI.reachable development c -> UI.closed c = false ->
      exists c',
        UI.done args c = Returned c' /\
        UI.closed c' = true /\
        cells (UI.store c) !! UI.resolve c = Some Pending /\
        cells (UI.store c') !! UI.resolve c =
          Some (Fulfilled
                  (UI.mkRow (match args with
                             | Some v => v
                             | None => UI.currentValue c
                             end) true false None))) /\
  (forall (c : Val.Cell) (args : option Value),
      Val.reachable development c -> Val.closed c = false ->
      exists c',
        Val.done args c = Returned c' /\
        Val.closed c' = true /\
        cells (Val.store c) !! Val.resolvable c = Some Pending /\
        cells (Val.store c') !! Val.resolvable c =
          Some (Fulfilled
                  (match args with
                   | Some v =>
                       match Val.patchFor (Val.currentValue c) v with
                       | Some patch =>
                           Val.mkWrapped None (Some patch) None None false
                       | None =>
                           Val.mkWrapped (Some v) None None None false
                       end
                   | None => Val.emptyWrapped
                   end))).
Proof.
  split.
  - intros c args Hreach Hopen.
    pose proof (ui_reachable_inv _ _ Hreach) as Hinv.
    destruct Hinv as (Hrej & Hfresh & Hpend & _).
    specialize (Hpend Hopen).
    unfold UI.done, UI.assertStream. rewrite Hopen.
    eexists. split; [reflexivity|].
    cbn [UI.closed UI.store]. split; [reflexivity|]. split; [exact Hpend|].
    rewrite (settle_pending _ _ _ Hpend). simpl. apply lookup_insert_eq.
  - intros c args Hreach Hopen.
    pose proof (val_reachable_inv _ _ Hreach) as Hinv.
    rewrite (val_done_open args c Hinv Hopen).
    destruct Hinv as (Hfresh & Hopen' & _).
    destruct (Hopen' Hopen) as (Hpend & _ & _).
    eexists. split; [reflexivity|].
    cbn [Val.closed Val.store cells]. split; [reflexivity|].
    split; [exact Hpend|].
    rewrite lookup_insert_eq. reflexivity.
Qed.

Lemma done_resolves_open_tail_witness :
  (exists c',
      UI.done (Some (RText (lit "bye")))
        (UI.createStreamableUI false (RText (lit "hi"))) = Returned c' /\
      UI.closed c' = true /\
      cells (UI.store (UI.createStreamableUI false (RText (lit "hi"))))
        !! 0 = Some Pending /\
      cells (UI.store c') !! 0 =
        Some (Fulfilled (UI.mkRow (RText (lit "bye")) true false None))) /\
  (exists c',
      Val.done None (Val.createStreamableValue false (VString (lit "a")))
        = Returned c' /\
      Val.closed c' = true /\
      cells (Val.store (Val.createStreamableValue false (VString (lit "a"))))
        !! 0 = Some Pending /\
      cells (Val.store c') !! 0 = Some (Fulfilled Val.emptyWrapped)).
Proof.
  split.
  - exact (proj1 (done_resolves_open_tail false)
             (UI.createStreamableUI false (RText (lit "hi")))
             (Some (RText (lit "bye")))
             (UI.reachable_create false (RText (lit "hi"))) eq_refl).
  - exact (proj2 (done_resolves_open_tail false)
             (Val.createStreamableValue false (VString (lit "a")))
             None
             (Val.reachable_create false (VString (lit "a"))) eq_refl).
Defined.

(** C8 fails as stated for the value cell: after
    [createStreamableValue("a")], [done()] resolves the open tail with
    the empty object and [done("ab")] resolves it with
    [{diff: [0, "b"]}]; neither carries the final value. *)
Lemma value_done_counterexample :
  (exists c',
      Val.done None (Val.createStreamableValue false (VString (lit "a")))
        = Returned c' /\
      cells (Val.store c') !! 0 = Some (Fulfilled Val.emptyWrapped) /\
      ~ carriesFinalValue Val.emptyWrapped (VString (lit "a"))) /\
  (exists c',
      Val.done (Some (VString (lit "ab")))
        (Val.createStreamableValue false (VString (lit "a")))
        = Returned c' /\
      cells (Val.store c') !! 0 =
        Some (Fulfilled
                (Val.mkWrapped None (Some (0%Z, lit "b")) None None false)) /\
      ~ carriesFinalValue
          (Val.mkWrapped None (Some (0%Z, lit "b")) None None false)
          (VString (lit "ab"))).
Proof.
  split; (eexists; split; [reflexivity|]; split; [reflexivity|]);
    intros [Hcurr _]; discriminate.
Qed.

(** C9.  On an open cell [update] returns and the chain of published
    revisions grows by exactly one revision, which carries the new value
    and points to the new open tail.  The exception is the UI cell when
    the argument is [===] to the current value: then nothing but the
    warning timer changes.  The value cell has no such exception. *)
Theorem update_grows_chain_by_one (development : bool) :
  (forall (c : UI.Cell) (v : ReactNode) (rows : list UI.Row),
      UI.reachable development c -> UI.closed c = false ->
      strictEq v (UI.currentValue c) = false ->
      UI.published c rows ->
      exists c',
        UI.update development v c = Returned c' /\
        UI.closed c' = false /\
        UI.published c'
          (rows ++ [UI.mkRow v false false (Some (UI.resolve c'))]) /\
        cells (UI.store c') !! UI.resolve c' = Some Pending) /\
  (forall (c : UI.Cell) (v : ReactNode),
      UI.closed c = false ->
      strictEq v (UI.currentValue c) = true ->
      UI.update development v c =
        Returned (UI.mkCell (UI.currentValue c) (UI.closed c) (UI.row c)
                    (UI.resolve c) (UI.reject c)
                    (warnUnclosedStream development (UI.timers c))
                    (UI.store c))) /\
  (forall (c : Val.Cell) (v : Value) (p : nat) (rows : list Val.Wrapped),
      Val.reachable development c -> Val.closed c = false ->
      Val.observed c p rows ->
      exists c',
        Val.update development v c = Returned c' /\
        Val.closed c' = false /\
        Val.observed c' p
          (rows ++ [val_revision (Val.currentValue c) v
                      (Some (Val.resolvable c'))]) /\
        cells (Val.store c') !! Val.resolvable c' = Some Pending).
Proof.
  split; [|split].
  - intros c v rows Hreach Hopen Hneq Hpub.
    pose proof (ui_reachable_inv _ _ Hreach) as Hinv.
    rewrite (ui_update_fresh development v c Hinv Hopen Hneq).
    destruct Hinv as (Hrej & Hfresh & Hpend & rows0 & Hchain).
    specialize (Hpend Hopen).
    eexists. split; [reflexivity|]. split; [reflexivity|]. split.
    + unfold UI.published. cbn [UI.store UI.row UI.resolve publish cells].
      eapply revisions_publish; eauto.
    + cbn [UI.store UI.resolve]. now apply publish_tail.
  - intros c v Hopen Heq.
    unfold UI.update, UI.assertStream. now rewrite Hopen, Heq.
  - intros c v p rows Hreach Hopen Hobs.
    pose proof (val_reachable_inv _ _ Hreach) as Hinv.
    rewrite (val_update_open development v c Hinv Hopen).
    destruct Hinv as (Hfresh & Hopen' & Hall).
    destruct (Hopen' Hopen) as (Hpend & _ & _).
    assert (is_Some (cells (Val.store c) !! p)) as Hp.
    { unfold Val.observed in Hobs. inversion Hobs; eauto. }
    destruct (Hall p Hp) as [rows0 Hchain].
    eexists. split; [reflexivity|]. split; [reflexivity|]. split.
    + unfold Val.observed.
      cbn [Val.store Val.resolvable publish cells].
      eapply revisions_publish; eauto using val_revision_next.
    + cbn [Val.store Val.resolvable]. now apply publish_tail.
Qed.

Lemma update_grows_chain_by_one_witness :
  (exists c',
      UI.update true (RText (lit "b"))
        (UI.createStreamableUI true (RText (lit "a"))) = Returned c' /\
      UI.closed c' = false /\
      UI.published c'
        ([] ++ [UI.mkRow (RText (lit "b")) false false
                  (Some (UI.resolve c'))]) /\
      cells (UI.store c') !! UI.resolve c' = Some Pending) /\
  UI.update true (RText (lit "a"))
    (UI.createStreamableUI true (RText (lit "a")))
  = Returned (UI.mkCell (RText (lit "a")) false 0 0 0
                (warnUnclosedStream true (warnUnclosedStream true noTimers))
                (UI.store (UI.createStreamableUI true (RText (lit "a"))))) /\
  (exists c',
      Val.update true (VString (lit "ab"))
        (Val.createStreamableValue true (VString (lit "a"))) = Returned c' /\
      Val.closed c' = false /\
      Val.observed c' 0
        ([] ++ [val_revision (VString (lit "a")) (VString (lit "ab"))
                  (Some (Val.resolvable c'))]) /\
      cells (Val.store c') !! Val.resolvable c' = Some Pending).
Proof.
  split; [|split].
  - apply (proj1 (update_grows_chain_by_one true)
             (UI.createStreamableUI true (RText (lit "a")))
             (RText (lit "b")) []).
    + constructor.
    + reflexivity.
    + reflexivity.
    + apply revisions_open. reflexivity.
  - apply (proj1 (proj2 (update_grows_chain_by_one true))
             (UI.createStreamableUI true (RText (lit "a")))
             (RText (lit "a"))); reflexivity.
  - apply (proj2 (proj2 (update_grows_chain_by_one true))
             (Val.createStreamableValue true (VString (lit "a")))
             (VString (lit "ab")) 0 []).
    + constructor.
    + reflexivity.
    + apply revisions_open. reflexivity.
Defined.

(** *** Further properties of the cells *)

Section Stores.
Context {R : Type}.
Implicit Types (st : Store R).

(** After a revision has been published the new tail is the only
    pending promise. *)
Lemma publish_pending st (t : nat) (r : R) :
  (forall p, cells st !! p = Some Pending <-> p = t) ->
  (forall p, fresh st <= p -> cells st !! p = None) ->
  forall p, cells (publish t r st) !! p = Some Pending <-> p = fresh st.
Proof.
  intros Honly Hfresh p.
  assert (cells st !! t = Some Pending) as Ht by now apply Honly.
  split.
  - intros Hp. simpl in Hp.
    destruct (decide (p = t)) as [->|Hpt].
    { rewrite lookup_insert_eq in Hp. discriminate. }
    rewrite lookup_insert_ne in Hp by congruence.
    destruct (decide (p = fresh st)) as [->|Hpq]; [reflexivity|].
    rewrite lookup_insert_ne in Hp by congruence.
    apply Honly in Hp. contradiction.
  - intros ->. now apply publish_tail.
Qed.

Lemma settle_no_pending st (t : nat) (o : PromiseState R) :
  (forall p, cells st !! p = Some Pending <-> p = t) ->
  o <> Pending ->
  forall p, <[t := o]> (cells st) !! p <> Some Pending.
Proof.
  intros Honly Ho p Hp.
  destruct (decide (p = t)) as [->|Hpt].
  - rewrite lookup_insert_eq in Hp. congruence.
  - rewrite lookup_insert_ne in Hp by congruence.
    apply Honly in Hp. contradiction.
Qed.

(** Publishing and settling touch the pending tail and a new promise
    only. *)
Lemma publish_keeps st (t p : nat) (r : R) (o : PromiseState R) :
  cells st !! t = Some Pending ->
  (forall p, fresh st <= p -> cells st !! p = None) ->
  cells st !! p = Some o -> o <> Pending ->
  cells (publish t r st) !! p = Some o.
Proof.
  intros Ht Hfresh Hp Ho. simpl.
  rewrite lookup_insert_ne by congruence.
  rewrite lookup_insert_ne; [exact Hp|].
  intros <-. rewrite Hfresh in Hp by lia. discriminate.
Qed.

Lemma settle_keeps st (t p : nat) (o' o : PromiseState R) :
  cells st !! t = Some Pending ->
  cells st !! p = Some o -> o <> Pending ->
  <[t := o']> (cells st) !! p = Some o.
Proof.
  intros Ht Hp Ho. rewrite lookup_insert_ne; [exact Hp|]. congruence.
Qed.

End Stores.

(** The results of the calls on an open cell, one case for each shape
    of the new store. *)
Lemma ui_call_open (development : bool) (op : UI.Call) (c c' : UI.Cell) :
  ui_inv c -> UI.call development op c = Returned c' ->
  UI.closed c = false /\
  ((UI.store c' = UI.store c /\ UI.closed c' = false /\
    UI.resolve c' = UI.resolve c) \/
   (exists r, UI.store c' = publish (UI.resolve c) r (UI.store c) /\
              UI.closed c' = false /\ UI.resolve c' = fresh (UI.store c)) \/
   (exists o, o <> Pending /\
              UI.store c' = mkStore (<[UI.resolve c := o]> (cells (UI.store c)))
                              (fresh (UI.store c)) /\
              UI.closed c' = true /\ UI.resolve c' = UI.resolve c)).
Proof.
  intros Hinv Hcall.
  destruct (UI.closed c) eqn:Hopen.
  { rewrite (ui_call_closed development op c Hopen) in Hcall. discriminate. }
  split; [reflexivity|].
  pose proof Hinv as (Hrej & Hfresh & Hpend & _). specialize (Hpend Hopen).
  destruct op as [v|v|e|args]; simpl in Hcall.
  - destruct (strictEq v (UI.currentValue c)) eqn:Heq.
    + unfold UI.update, UI.assertStream in Hcall.
      rewrite Hopen, Heq in Hcall. inversion Hcall; subst c'. left. auto.
    + rewrite (ui_update_fresh _ _ _ Hinv Hopen Heq) in Hcall.
      inversion Hcall; subst c'. right; left. eexists. simpl. eauto.
  - rewrite (ui_append_open _ _ _ Hinv Hopen) in Hcall.
    inversion Hcall; subst c'. right; left. eexists. simpl. eauto.
  - unfold UI.error, UI.assertStream in Hcall. rewrite Hopen in Hcall.
    inversion Hcall; subst c'. right; right. exists (Rejected e).
    split; [discriminate|]. simpl. rewrite Hrej.
    now rewrite (settle_pending _ _ _ Hpend).
  - unfold UI.done, UI.assertStream in Hcall. rewrite Hopen in Hcall.
    inversion Hcall; subst c'. right; right. eexists.
    split; [|simpl; rewrite (settle_pending _ _ _ Hpend); eauto].
    discriminate.
Qed.

Lemma val_call_open (development : bool) (op : Val.Call) (c c' : Val.Cell) :
  val_inv c -> Val.call development op c = Returned c' ->
  Val.closed c = false /\
  ((exists r, Val.store c' = publish (Val.resolvable c) r (Val.store c) /\
              Val.closed c' = false /\
              Val.resolvable c' = fresh (Val.store c)) \/
   (exists o, o <> Pending /\
              Val.store c'
              = mkStore (<[Val.resolvable c := o]> (cells (Val.store c)))
                  (fresh (Val.store c)) /\
              Val.closed c' = true /\ Val.resolvable c' = Val.resolvable c)).
Proof.
  intros Hinv Hcall.
  destruct (Val.closed c) eqn:Hopen.
  { rewrite (val_call_closed development op c Hopen) in Hcall. discriminate. }
  split; [reflexivity|].
  destruct op as [v|e|args]; simpl in Hcall.
  - rewrite (val_update_open _ _ _ Hinv Hopen) in Hcall.
    inversion Hcall; subst c'. left. eexists. simpl. eauto.
  - rewrite (val_error_open _ _ Hinv Hopen) in Hcall.
    inversion Hcall; subst c'. right. eexists.
    split; [|simpl; eauto]. discriminate.
  - rewrite (val_done_open _ _ Hinv Hopen) in Hcall.
    inversion Hcall; subst c'. right. eexists.
    split; [|simpl; eauto]. discriminate.
Qed.

(** X1.  In a cell made by [createStreamableUI] or
    [createStreamableValue] and changed by its methods, a promise is
    pending exactly when the cell is open and the promise is the open
    tail: there is one unresolved revision while the cell is open and
    none once it is closed. *)
Theorem one_pending_promise (development : bool) :
  (forall c : UI.Cell,
      UI.reachable development c ->
      forall p, cells (UI.store c) !! p = Some Pending <->
                UI.closed c = false /\ p = UI.resolve c) /\
  (forall c : Val.Cell,
      Val.reachable development c ->
      forall p, cells (Val.store c) !! p = Some Pending <->
                Val.closed c = false /\ p = Val.resolvable c).
Proof.
  split.
  - induction 1 as [init|c op c' Hreach IH Hcall]; intros p.
    + simpl. split.
      * intros Hp. split; [reflexivity|].
        destruct (decide (p = 0)) as [->|Hne]; [reflexivity|].
        rewrite lookup_insert_ne in Hp by congruence.
        rewrite lookup_empty in Hp. discriminate.
      * intros [_ ->]. apply lookup_insert_eq.
    + pose proof (ui_reachable_inv _ _ Hreach) as Hinv.
      pose proof Hinv as (_ & Hfresh & _).
      destruct (ui_call_open _ _ _ _ Hinv Hcall)
        as (Hopen & [(Hst & Hcl & Hres)|[(r & Hst & Hcl & Hres)
                                         |(o & Ho & Hst & Hcl & Hres)]]).
      * rewrite Hst, Hcl, Hres, IH, Hopen. tauto.
      * rewrite Hst, Hcl, Hres.
        rewrite (publish_pending (UI.store c) (UI.resolve c) r); [tauto| |exact Hfresh].
        intros q. rewrite IH. tauto.
      * rewrite Hst, Hcl. simpl. split; [|intros [? _]; discriminate].
        intros Hp. exfalso.
        apply (settle_no_pending (UI.store c) (UI.resolve c) o) with (p := p);
          [|exact Ho|exact Hp].
        intros q. rewrite IH. tauto.
  - induction 1 as [init|c op c' Hreach IH Hcall]; intros p.
    + simpl. split.
      * intros Hp. split; [reflexivity|].
        destruct (decide (p = 0)) as [->|Hne]; [reflexivity|].
        rewrite lookup_insert_ne in Hp by congruence.
        rewrite lookup_empty in Hp. discriminate.
      * intros [_ ->]. apply lookup_insert_eq.
    + pose proof (val_reachable_inv _ _ Hreach) as Hinv.
      pose proof Hinv as (Hfresh & _).
      destruct (val_call_open _ _ _ _ Hinv Hcall)
        as (Hopen & [(r & Hst & Hcl & Hres)|(o & Ho & Hst & Hcl & Hres)]).
      * rewrite Hst, Hcl, Hres.
        rewrite (publish_pending (Val.store c) (Val.resolvable c) r);
          [tauto| |exact Hfresh].
        intros q. rewrite IH. tauto.
      * rewrite Hst, Hcl. simpl. split; [|intros [? _]; discriminate].
        intros Hp. exfalso.
        apply (settle_no_pending (Val.store c) (Val.resolvable c) o)
          with (p := p); [|exact Ho|exact Hp].
        intros q. rewrite IH. tauto.
Qed.

Lemma one_pending_promise_witness :
  cells (UI.store (UI.createStreamableUI true RNull)) !! 0 = Some Pending <->
  UI.closed (UI.createStreamableUI true RNull) = false /\
  0 = UI.resolve (UI.createStreamableUI true RNull).
Proof.
  apply (proj1 (one_pending_promise true) (UI.createStreamableUI true RNull)).
  constructor.
Defined.



Lemma warn_keeps_one_timer (development : bool) (t : Timers) :
  warningTimers development false t ->
  warningTimers development false (warnUnclosedStream development t).
Proof.
  unfold warningTimers, warnUnclosedStream.
  destruct development; [|easy].
  intros (handle & Hh & Hlt & Harmed).
  unfold clearWarning. rewrite Hh. simpl.
  exists (nextTimer t). split; [reflexivity|]. split; [lia|].
  rewrite Harmed, difference_diag_L. apply (left_id_L ∅ (∪)).
Qed.

Lemma first_warning (development : bool) :
  warningTimers development false (warnUnclosedStream development noTimers).
Proof.
  unfold warningTimers, warnUnclosedStream.
  destruct development; [|reflexivity].
  simpl. exists 0. split; [reflexivity|]. split; [lia|]. set_solver.
Qed.

Lemma clear_disarms (development : bool) (t : Timers) :
  warningTimers development false t ->
  warningTimers development true (clearWarning t).
Proof.
  unfold warningTimers, clearWarning.
  destruct development.
  - intros (handle & Hh & Hlt & Harmed). rewrite Hh. simpl.
    exists handle. split; [reflexivity|]. split; [exact Hlt|].
    rewrite Harmed. apply difference_diag_L.
  - intros ->. reflexivity.
Qed.

Lemma ui_call_timers (development : bool) (op : UI.Call) (c c' : UI.Cell) :
  UI.call development op c = Returned c' ->
  UI.closed c = false /\
  ((UI.timers c' = warnUnclosedStream development (UI.timers c) /\
    UI.closed c' = false) \/
   (UI.timers c' = clearWarning (UI.timers c) /\ UI.closed c' = true)).
Proof.
  intros Hcall.
  destruct (UI.closed c) eqn:Hopen.
  { rewrite (ui_call_closed development op c Hopen) in Hcall. discriminate. }
  split; [reflexivity|].
  destruct op as [v|v|e|args]; simpl in Hcall;
    unfold UI.update, UI.append, UI.error, UI.done, UI.assertStream in Hcall;
    rewrite Hopen in Hcall; simpl in Hcall.
  - destruct (strictEq v (UI.currentValue c));
      inversion Hcall; subst c'; simpl; auto.
  - inversion Hcall; subst c'; simpl; auto.
  - inversion Hcall; subst c'; simpl; auto.
  - inversion Hcall; subst c'; simpl; auto.
Qed.

Lemma val_call_timers (development : bool) (op : Val.Call) (c c' : Val.Cell) :
  Val.call development op c = Returned c' ->
  Val.closed c = false /\
  ((Val.timers c' = warnUnclosedStream development (Val.timers c) /\
    Val.closed c' = false) \/
   (Val.timers c' = clearWarning (Val.timers c) /\ Val.closed c' = true)).
Proof.
  intros Hcall.
  destruct (Val.closed c) eqn:Hopen.
  { rewrite (val_call_closed development op c Hopen) in Hcall. discriminate. }
  split; [reflexivity|].
  destruct op as [v|e|[v|]]; simpl in Hcall;
    unfold Val.update, Val.error, Val.done, Val.assertStream in Hcall;
    rewrite Hopen in Hcall; simpl in Hcall;
    inversion Hcall; subst c'; simpl; auto.
Qed.



Lemma revisions_settle {R : Type} (next : R -> option nat)
    (m : gmap nat (PromiseState R)) (p t : nat) (rows rows0 : list R)
    (o : PromiseState R) (last : list R) :
  revisions next m p rows -> chain_to next m p rows0 t ->
  m !! t = Some Pending ->
  revisions next (<[t := o]> m) t last ->
  revisions next (<[t := o]> m) p (rows ++ last).
Proof.
  intros Hrev Hchain Ht Hlast.
  assert (rows = rows0) as ->.
  { eapply revisions_deterministic; [exact Hrev|].
    rewrite <- (app_nil_r rows0).
    eapply chain_to_revisions; [exact Hchain|]. now constructor. }
  eapply chain_to_revisions; [|exact Hlast].
  now apply chain_to_settle_tail.
Qed.

(** X4.  [append] on an open UI cell never skips: it publishes one
    revision with the append flag and the value, also when the value is
    the current one, and the value becomes the current value. *)
Theorem append_publishes_flagged_revision (development : bool) (c : UI.Cell)
    (v : ReactNode) (rows : list UI.Row) :
  UI.reachable development c -> UI.closed c = false ->
  UI.published c rows ->
  exists c',
    UI.append development v c = Returned c' /\
    UI.closed c' = false /\
    UI.currentValue c' = v /\
    UI.published c' (rows ++ [UI.mkRow v false true (Some (UI.resolve c'))]) /\
    cells (UI.store c') !! UI.resolve c' = Some Pending.
Proof.
  intros Hreach Hopen Hpub.
  pose proof (ui_reachable_inv _ _ Hreach) as Hinv.
  rewrite (ui_append_open development v c Hinv Hopen).
  destruct Hinv as (Hrej & Hfresh & Hpend & rows0 & Hchain).
  specialize (Hpend Hopen).
  eexists. split; [reflexivity|]. split; [reflexivity|].
  split; [reflexivity|]. split.
  - unfold UI.published. cbn [UI.store UI.row UI.resolve publish cells].
    eapply revisions_publish; eauto.
  - cbn [UI.store UI.resolve]. now apply publish_tail.
Qed.

Lemma append_publishes_flagged_revision_witness :
  exists c',
    UI.append false (RText (lit "a"))
      (UI.createStreamableUI false (RText (lit "a"))) = Returned c' /\
    UI.closed c' = false /\
    UI.currentValue c' = RText (lit "a") /\
    UI.published c'
      ([] ++ [UI.mkRow (RText (lit "a")) false true (Some (UI.resolve c'))]) /\
    cells (UI.store c') !! UI.resolve c' = Some Pending.
Proof.
  apply (append_publishes_flagged_revision false
           (UI.createStreamableUI false (RText (lit "a")))
           (RText (lit "a")) []).
  - constructor.
  - reflexivity.
  - apply revisions_open. reflexivity.
Defined.

(** X5.  [error] on an open cell closes it.  The UI cell rejects its open
    tail with the error and publishes nothing: an observer reads the same
    revisions as before and then the rejection.  The value cell resolves
    its open tail with the object [{error}], without [next]: the error is
    one more revision of the chain. *)
Theorem error_ends_the_chain (development : bool) :
  (forall (c : UI.Cell) (e : Value) (rows : list UI.Row),
      UI.reachable development c -> UI.closed c = false ->
      UI.published c rows ->
      exists c',
        UI.error e c = Returned c' /\
        UI.closed c' = true /\
        cells (UI.store c') !! UI.resolve c = Some (Rejected e) /\
        UI.published c' rows) /\
  (forall (c : Val.Cell) (e : Value) (p : nat) (rows : list Val.Wrapped),
      Val.reachable development c -> Val.closed c = false ->
      Val.observed c p rows ->
      exists c',
        Val.error e c = Returned c' /\
        Val.closed c' = true /\
        Val.observed c' p
          (rows ++ [Val.mkWrapped None None None (Some e) false])).
Proof.
  split.
  - intros c e rows Hreach Hopen Hpub.
    pose proof (ui_reachable_inv _ _ Hreach) as Hinv.
    destruct Hinv as (Hrej & Hfresh & Hpend & rows0 & Hchain).
    specialize (Hpend Hopen).
    unfold UI.error, UI.assertStream. rewrite Hopen, Hrej.
    rewrite (settle_pending _ _ _ Hpend).
    eexists. split; [reflexivity|]. split; [reflexivity|].
    cbn [UI.store cells]. split; [apply lookup_insert_eq|].
    unfold UI.published. cbn [UI.store UI.row cells].
    rewrite <- (app_nil_r rows).
    eapply revisions_settle; eauto.
    eapply revisions_rejected. apply lookup_insert_eq.
  - intros c e p rows Hreach Hopen Hobs.
    pose proof (val_reachable_inv _ _ Hreach) as Hinv.
    rewrite (val_error_open e c Hinv Hopen).
    destruct Hinv as (Hfresh & Hopen' & Hall).
    destruct (Hopen' Hopen) as (Hpend & _ & _).
    assert (is_Some (cells (Val.store c) !! p)) as Hp.
    { unfold Val.observed in Hobs. inversion Hobs; eauto. }
    destruct (Hall p Hp) as [rows0 Hchain].
    eexists. split; [reflexivity|]. split; [reflexivity|].
    unfold Val.observed. cbn [Val.store cells].
    eapply revisions_settle; eauto.
    apply revisions_last; [apply lookup_insert_eq|reflexivity].
Qed.

Lemma error_ends_the_chain_witness :
  (exists c',
      UI.error (VString (lit "boom")) (UI.createStreamableUI false RNull)
        = Returned c' /\
      UI.closed c' = true /\
      cells (UI.store c') !! 0 = Some (Rejected (VString (lit "boom"))) /\
      UI.published c' []) /\
  (exists c',
      Val.error (VString (lit "boom"))
        (Val.createStreamableValue false (VInt 1)) = Returned c' /\
      Val.closed c' = true /\
      Val.observed c' 0
        ([] ++ [Val.mkWrapped None None None (Some (VString (lit "boom")))
                  false])).
Proof.
  split.
  - apply (proj1 (error_ends_the_chain false)
             (UI.createStreamableUI false RNull) (VString (lit "boom")) []).
    + constructor.
    + reflexivity.
    + apply revisions_open. reflexivity.
  - apply (proj2 (error_ends_the_chain false)
             (Val.createStreamableValue false (VInt 1))
             (VString (lit "boom")) 0 []).
    + constructor.
    + reflexivity.
    + apply revisions_open. reflexivity.
Defined.

(** X6.  The getter [value] of a value cell never hands out a patch: the
    initial chunk carries the type tag and no [diff]; while the cell is
    open it carries the full current value and the open tail as [next];
    once the cell is closed it has no [next]. *)
Theorem value_getter_initial_chunk (development : bool) (c : Val.Cell) :
  Val.reachable development c ->
  Val.typed (Val.value c) = true /\
  Val.diff (Val.value c) = None /\
  Val.next (Val.value c)
    = (if Val.closed c then None else Some (Val.resolvable c)) /\
  (Val.closed c = false ->
   Val.curr (Val.value c) = Some (Val.currentValue c) /\
   Val.error_field (Val.value c) = None).
Proof.
  intros Hreach.
  assert (Val.closed c = true -> Val.currentPromise c = None) as Hclosed.
  { induction Hreach as [init|c op c' Hreach IH Hcall]; [discriminate|].
    destruct (Val.closed c) eqn:Hopen.
    { rewrite (val_call_closed development op c Hopen) in Hcall.
      discriminate. }
    destruct op as [v|e|[v|]]; simpl in Hcall;
      unfold Val.update, Val.error, Val.done, Val.assertStream in Hcall;
      rewrite Hopen in Hcall; simpl in Hcall;
      inversion Hcall; subst c'; simpl; try reflexivity.
    intros Hc. discriminate. }
  pose proof (val_reachable_inv _ _ Hreach) as (_ & Hopen' & _).
  unfold Val.value, Val.createWrapped.
  split; [reflexivity|]. split.
  - destruct (Val.currentError c), (Val.currentPatchValue c); reflexivity.
  - split.
    + cbn [Val.next]. destruct (Val.closed c) eqn:Hc.
      * now apply Hclosed.
      * now destruct (Hopen' eq_refl) as (_ & -> & _).
    + intros Hc. destruct (Hopen' Hc) as (_ & _ & ->).
      destruct (Val.currentPatchValue c); split; reflexivity.
Qed.

Lemma value_getter_initial_chunk_witness :
  exists c',
    Val.update false (VString (lit "ab"))
      (Val.createStreamableValue false (VString (lit "a"))) = Returned c' /\
    Val.currentPatchValue c' = Some (0%Z, lit "b") /\
    Val.typed (Val.value c') = true /\
    Val.diff (Val.value c') = None /\
    Val.next (Val.value c')
      = (if Val.closed c' then None else Some (Val.resolvable c')) /\
    (Val.closed c' = false ->
     Val.curr (Val.value c') = Some (Val.currentValue c') /\
     Val.error_field (Val.value c') = None).
Proof.
  eexists. split; [vm_compute; reflexivity|].
  split; [vm_compute; reflexivity|].
  apply (value_getter_initial_chunk false).
  apply (Val.reachable_call false
           (Val.createStreamableValue false (VString (lit "a")))
           (Val.CallUpdate (VString (lit "ab")))).
  - constructor.
  - vm_compute. reflexivity.
Defined.

End StreamableFacts.

(** ** Properties of the encoder *)

Module AssistantResponseFacts.
Import JS AssistantResponse.

(** *** No line break inside a serialised payload *)

(** Induction on JSON values that reaches the members of arrays and
    objects. *)
Lemma JSON_nested_ind (P : JSON -> Prop) :
  (forall s, P (JString s)) ->
  (forall items, Forall P items -> P (JArray items)) ->
  (forall fields, Forall (fun kv => P (snd kv)) fields -> P (JObject fields)) ->
  forall j, P j.
Proof.
  intros Hs Ha Ho.
  fix IH 1. intros [s|items|fields].
  - apply Hs.
  - apply Ha. induction items as [|j items IHitems]; constructor.
    + apply IH.
    + exact IHitems.
  - apply Ho. induction fields as [|[k v] fields IHfields]; constructor.
    + apply IH.
    + exact IHfields.
Qed.

Lemma noLF_app (s t : jsstring) : noLF s -> noLF t -> noLF (s ++ t).
Proof. unfold noLF. intros. now apply Forall_app. Qed.

Lemma hexDigit_noLF (n : N) : hexDigit n <> LF.
Proof.
  unfold hexDigit, LF. destruct (N.ltb_spec n 10); lia.
Qed.

(** Lists of code units given one by one. *)
Ltac no_line_feed :=
  unfold noLF; cbn;
  repeat (apply Forall_cons_2;
          [first [apply hexDigit_noLF | unfold LF; lia]|]);
  apply Forall_nil_2.

Lemma quoteUnit_noLF (c : N) : noLF (quoteUnit c).
Proof.
  unfold quoteUnit.
  repeat match goal with
         | |- context [(c =? ?k)%N] =>
             destruct (N.eqb_spec c k); [no_line_feed|]
         end.
  match goal with |- context [if ?b then _ else _] => destruct b end.
  - unfold unicodeEscape. no_line_feed.
  - unfold noLF. apply Forall_cons_2; [assumption|apply Forall_nil_2].
Qed.

Lemma quoteUnits_noLF (s : jsstring) : noLF (quoteUnits s).
Proof.
  remember (length s) as n eqn:Hn.
  revert s Hn. induction n as [n IH] using lt_wf_ind. intros s Hn.
  destruct s as [|c rest]; [constructor|].
  simpl. destruct (isLeadingSurrogate c) eqn:Hlead.
  - destruct rest as [|d rest'].
    + apply quoteUnit_noLF.
    + destruct (isTrailingSurrogate d) eqn:Htrail.
      * unfold isLeadingSurrogate in Hlead. unfold isTrailingSurrogate in Htrail.
        apply andb_prop in Hlead as [Hc _]. apply andb_prop in Htrail as [Hd _].
        apply N.leb_le in Hc, Hd.
        constructor; [unfold LF; lia|]. constructor; [unfold LF; lia|].
        apply (IH (length rest')); [simpl in Hn; lia | reflexivity].
      * apply noLF_app; [apply quoteUnit_noLF|].
        apply (IH (length (d :: rest'))); [simpl in *; lia | reflexivity].
  - apply noLF_app; [apply quoteUnit_noLF|].
    apply (IH (length rest)); [simpl in *; lia | reflexivity].
Qed.

Lemma quoteJSONString_noLF (s : jsstring) : noLF (quoteJSONString s).
Proof.
  unfold quoteJSONString. apply noLF_app; [|apply noLF_app].
  - no_line_feed.
  - apply quoteUnits_noLF.
  - no_line_feed.
Qed.

Lemma joinComma_noLF (parts : list jsstring) :
  Forall noLF parts -> noLF (joinComma parts).
Proof.
  induction 1 as [|p rest Hp Hrest IH]; [constructor|].
  destruct rest as [|p' rest]; [exact Hp|].
  change (noLF (p ++ [44%N] ++ joinComma (p' :: rest))).
  apply noLF_app; [exact Hp|]. apply noLF_app; [|exact IH].
  no_line_feed.
Qed.

Lemma stringify_noLF (j : JSON) : noLF (stringify j).
Proof.
  induction j as [s|items IH|fields IH] using JSON_nested_ind;
    cbn [stringify].
  - apply quoteJSONString_noLF.
  - apply (noLF_app [91%N]); [no_line_feed|].
    apply noLF_app; [|no_line_feed].
    apply joinComma_noLF. now apply Forall_map.
  - apply (noLF_app [123%N]); [no_line_feed|].
    apply noLF_app; [|no_line_feed].
    apply joinComma_noLF. apply Forall_map.
    eapply Forall_impl; [exact IH|]. intros [k v] Hv. cbn [fst snd] in *.
    apply noLF_app; [apply quoteJSONString_noLF|].
    apply (noLF_app [58%N]); [no_line_feed|exact Hv].
Qed.

(** Splitting at line feeds. *)
Lemma split_lines_noLF (s : jsstring) : noLF s -> split_lines s = [s].
Proof.
  induction 1 as [|c s Hc Hs IH]; [reflexivity|].
  simpl. destruct (N.eqb_spec c LF) as [Heq|_]; [contradiction|].
  now rewrite IH.
Qed.

Lemma split_lines_break (s t : jsstring) :
  noLF s -> split_lines (s ++ LF :: t) = s :: split_lines t.
Proof.
  induction 1 as [|c s Hc Hs IH]; simpl.
  - reflexivity.
  - destruct (N.eqb_spec c LF) as [Heq|_]; [contradiction|].
    now rewrite IH.
Qed.

(** C7 (as the code has it).  Each of [sendStatus], [sendThreadId] and
    [sendMessage] enqueues the prefix of the event kind, a colon, one
    space, the payload as [JSON.stringify] prints it, and two line
    breaks.  The first colon ends the prefix, and the text splits at
    line breaks into the line [<prefix>: <json>] followed by two empty
    segments: the payload contains no line break. *)
Theorem encode_line_format (e : Send) :
  encode e = prefix e ++ lit ": " ++ stringify (payload e) ++ [LF; LF] /\
  indexOfColon (encode e) = Some (length (prefix e)) /\
  noLF (prefix e ++ lit ": " ++ stringify (payload e)) /\
  split_lines (encode e)
    = [prefix e ++ lit ": " ++ stringify (payload e); []; []].
Proof.
  assert (encode e = prefix e ++ lit ": " ++ stringify (payload e) ++ [LF; LF])
    as Henc by (destruct e; reflexivity).
  assert (noLF (prefix e ++ lit ": " ++ stringify (payload e))) as Hno.
  { apply noLF_app; [destruct e; no_line_feed|].
    apply noLF_app; [no_line_feed|].
    apply stringify_noLF. }
  split; [exact Henc|]. split; [destruct e; reflexivity|].
  split; [exact Hno|].
  rewrite Henc.
  replace (prefix e ++ lit ": " ++ stringify (payload e) ++ [LF; LF])
    with ((prefix e ++ lit ": " ++ stringify (payload e)) ++ LF :: [LF])
    by (now rewrite <- !app_assoc).
  rewrite (split_lines_break _ _ Hno). reflexivity.
Qed.

(** C7 fails as stated: [sendThreadId("t")] enqueues
    [4: "t"] followed by two line breaks, which is not
    [4:"t"] followed by one. *)
Lemma encode_counterexample :
  encode (sendThreadId (lit "t"))
    = lit "4: " ++ [34%N] ++ lit "t" ++ [34%N] ++ [LF; LF] /\
  specLine (sendThreadId (lit "t"))
    = lit "4:" ++ [34%N] ++ lit "t" ++ [34%N] ++ [LF] /\
  encode (sendThreadId (lit "t")) <> specLine (sendThreadId (lit "t")).
Proof. repeat split. discriminate. Qed.

End AssistantResponseFacts.

(** ** Properties of the chunk decoder *)

Module ChunkDecoderFacts.
Import JS TextDecoder ChunkDecoder.

(** *** Splitting at line breaks *)

Lemma split_lines_not_nil (s : jsstring) : split_lines s <> [].
Proof.
  destruct s as [|c s]; simpl; [discriminate|].
  destruct (N.eqb c LF); [discriminate|].
  destruct (split_lines s); discriminate.
Qed.

Lemma split_lines_app_break (a b : jsstring) :
  split_lines (a ++ LF :: b) = split_lines a ++ split_lines b.
Proof.
  induction a as [|c a IH]; simpl.
  - reflexivity.
  - destruct (N.eqb c LF); [now rewrite IH|].
    rewrite IH. pose proof (split_lines_not_nil a) as Hne.
    destruct (split_lines a) as [|seg segs]; [contradiction|reflexivity].
Qed.

Lemma decodedLines_after_break (a b : jsstring) :
  decodedLines ((a ++ [LF]) ++ b) = decodedLines (a ++ [LF]) ++ decodedLines b.
Proof.
  unfold decodedLines. rewrite <- app_assoc. simpl.
  rewrite !split_lines_app_break, !List.filter_app. simpl.
  now rewrite app_nil_r.
Qed.

Lemma handler_boundary (d : Utf8) (b : N) :
  (128 <= lowerBoundary d)%N -> (128 <= lowerBoundary (handler d b).1)%N.
Proof.
  intros Hd. unfold handler.
  repeat match goal with
         | |- context [if ?c then _ else _] => destruct c
         end; simpl; lia.
Qed.

Lemma processByte_boundary (d : Utf8) (b : N) :
  (128 <= lowerBoundary d)%N -> (128 <= lowerBoundary (processByte d b).1)%N.
Proof.
  intros Hd. unfold processByte.
  pose proof (handler_boundary d b Hd) as H1.
  destruct (handler d b) as [d' h]. simpl in H1.
  pose proof (handler_boundary d' b H1) as H2.
  destruct h; simpl; try assumption.
  destruct (handler d' b) as [d'' h']. exact H2.
Qed.

Lemma decodeBytes_boundary (chunk : list N) (dec : Decoder) :
  boundaryAbove dec -> boundaryAbove (decodeBytes dec chunk).1.
Proof.
  revert dec. induction chunk as [|b rest IH]; intros dec Hdec; simpl.
  - exact Hdec.
  - pose proof (processByte_boundary (utf8 dec) b Hdec) as Hb.
    destruct (processByte (utf8 dec) b) as [d scalars].
    destruct (serialize (bomSeen dec) scalars) as [seen out].
    specialize (IH (mkDecoder d seen) Hb).
    destruct (decodeBytes (mkDecoder d seen) rest) as [dec' out'].
    exact IH.
Qed.

Lemma decodeBytes_app (a b : list N) (dec : Decoder) :
  decodeBytes dec (a ++ b) =
    let '(dec1, text1) := decodeBytes dec a in
    let '(dec2, text2) := decodeBytes dec1 b in
    (dec2, text1 ++ text2).
Proof.
  revert dec. induction a as [|x a IH]; intros dec; simpl.
  - destruct (decodeBytes dec b); reflexivity.
  - destruct (processByte (utf8 dec) x) as [d scalars].
    destruct (serialize (bomSeen dec) scalars) as [seen out].
    rewrite IH.
    destruct (decodeBytes (mkDecoder d seen) a) as [dec1 text1].
    destruct (decodeBytes dec1 b) as [dec2 text2].
    now rewrite app_assoc.
Qed.

Lemma processByte_line_feed (d : Utf8) :
  (128 <= lowerBoundary d)%N ->
  exists pre, (processByte d 10).2 = pre ++ [10%N].
Proof.
  intros Hd. unfold processByte, handler.
  destruct (bytesNeeded d =? 0)%N eqn:Hneeded; simpl.
  - exists []. reflexivity.
  - assert (between (lowerBoundary d) 10 (upperBoundary d) = false) as ->.
    { unfold between. apply andb_false_intro1. apply N.leb_gt. lia. }
    simpl. exists [65533%N]. reflexivity.
Qed.

Lemma serialize_line_feed (pre : list N) (seen : bool) :
  exists out, (serialize seen (pre ++ [10%N])).2 = out ++ [LF].
Proof.
  revert seen. induction pre as [|cp pre IH]; intros seen; simpl.
  - exists []. destruct seen; reflexivity.
  - destruct (IH true) as [out Hout].
    destruct (serialize true (pre ++ [10%N])) as [seen' out']. simpl in Hout.
    subst out'.
    destruct (negb seen && (cp =? 65279)%N); simpl.
    + now exists out.
    + exists (utf16 cp ++ out). now rewrite app_assoc.
Qed.

(** The text decoded from a chunk whose last byte is a line feed ends
    with a line feed. *)
Lemma decodeBytes_line_feed (body : list N) (dec : Decoder) :
  boundaryAbove dec ->
  exists text, (decodeBytes dec (body ++ [10%N])).2 = text ++ [LF].
Proof.
  intros Hdec. rewrite decodeBytes_app.
  pose proof (decodeBytes_boundary body dec Hdec) as Hb.
  destruct (decodeBytes dec body) as [dec1 text1]. simpl in Hb.
  simpl.
  destruct (processByte_line_feed (utf8 dec1) Hb) as [pre Hpre].
  destruct (processByte (utf8 dec1) 10) as [d scalars]. simpl in Hpre.
  subst scalars.
  destruct (serialize_line_feed pre (bomSeen dec1)) as [out Hout].
  destruct (serialize (bomSeen dec1) (pre ++ [10%N])) as [seen out'].
  simpl in Hout. subst out'. simpl.
  exists (text1 ++ out). now rewrite app_nil_r, app_assoc.
Qed.

(** *** Chunk boundaries *)

(** The simple decoder returns the same text however the stream is cut:
    the bytes of an incomplete character are kept by the
    [TextDecoder]. *)
Lemma feedText_whole (chunks : list (list Byte.byte)) (dec : Decoder) :
  feedText dec chunks = feedText dec [concat chunks].
Proof.
  revert dec. induction chunks as [|chunk rest IH]; intros dec.
  - reflexivity.
  - cbn [feedText simpleDecoder decode concat].
    rewrite List.map_app, decodeBytes_app.
    destruct (decodeBytes dec (List.map Byte.to_N chunk)) as [dec1 text1].
    rewrite (IH dec1). cbn [feedText simpleDecoder decode].
    destruct (decodeBytes dec1 (List.map Byte.to_N (concat rest)))
      as [dec2 text2].
    now rewrite !app_nil_r.
Qed.

Section Boundaries.
Context {StreamPartType : Type}.
Variable parseStreamPart : jsstring -> option StreamPartType.

Lemma omap_app_parts (l1 l2 : list jsstring) :
  omap parseStreamPart (l1 ++ l2)
  = omap parseStreamPart l1 ++ omap parseStreamPart l2.
Proof. apply omap_app. Qed.

(** A chunk that ends at a line break can be cut off the front of a
    larger chunk. *)
Lemma feed_cut (chunk rest : list Byte.byte) (dec : Decoder) :
  boundaryAbove dec -> endsAtLineBreak chunk ->
  feed parseStreamPart dec [chunk ++ rest]
  = (complexDecoder parseStreamPart dec (Some chunk)).2
    ++ feed parseStreamPart
         (complexDecoder parseStreamPart dec (Some chunk)).1 [rest].
Proof.
  intros Hdec [->|[body ->]].
  - reflexivity.
  - cbn [feed]. unfold complexDecoder, decode.
    rewrite List.map_app, decodeBytes_app.
    destruct (decodeBytes_line_feed (List.map Byte.to_N body) dec Hdec)
      as [text Htext].
    rewrite List.map_app. cbn [List.map].
    change (Byte.to_N Byte.x0a) with 10%N.
    destruct (decodeBytes dec (List.map Byte.to_N body ++ [10%N]))
      as [dec1 text1].
    simpl in Htext. subst text1. cbn [fst snd].
    destruct (decodeBytes dec1 (List.map Byte.to_N rest)) as [dec2 text2].
    rewrite decodedLines_after_break, omap_app_parts.
    now rewrite !app_nil_r.
Qed.

Lemma feed_aligned (chunks : list (list Byte.byte)) (last : list Byte.byte)
    (dec : Decoder) :
  boundaryAbove dec -> Forall endsAtLineBreak chunks ->
  feed parseStreamPart dec (chunks ++ [last])
  = feed parseStreamPart dec [concat (chunks ++ [last])].
Proof.
  intros Hdec Hall. revert dec Hdec.
  induction Hall as [|chunk chunks Hchunk Hchunks IH]; intros dec Hdec.
  - simpl. now rewrite app_nil_r.
  - cbn [app concat]. rewrite (feed_cut _ _ _ Hdec Hchunk).
    cbn [feed].
    assert (boundaryAbove
              (complexDecoder parseStreamPart dec (Some chunk)).1) as Hnext.
    { unfold complexDecoder, decode.
      pose proof (decodeBytes_boundary (List.map Byte.to_N chunk) dec Hdec).
      destruct (decodeBytes dec (List.map Byte.to_N chunk)). assumption. }
    destruct (complexDecoder parseStreamPart dec (Some chunk))
      as [dec1 parts].
    cbn [fst snd] in *. f_equal. now apply IH.
Qed.

End Boundaries.

(** C2 (as the code has it).  When every chunk but the last one is empty
    or ends with a line feed, the complex decoder of a new
    [createChunkDecoder(true)] returns for the chunks, one call after
    the other, the parts that it returns for the whole stream in one
    chunk.  Nothing is said about a chunk that ends inside a line: the
    decoder keeps no text between calls. *)
Theorem feed_chunks_at_line_breaks {StreamPartType : Type}
    (parseStreamPart : jsstring -> option StreamPartType)
    (chunks : list (list Byte.byte)) (last : list Byte.byte) :
  Forall endsAtLineBreak chunks ->
  feed parseStreamPart newTextDecoder (chunks ++ [last])
  = feed parseStreamPart newTextDecoder [concat (chunks ++ [last])].
Proof.
  intros Hall. apply feed_aligned; [|exact Hall].
  unfold boundaryAbove. simpl. lia.
Qed.

Lemma feed_chunks_at_line_breaks_witness :
  Forall endsAtLineBreak [ascii "0:1" ++ [Byte.x0a]; []] /\
  feed lineAsPart newTextDecoder
    ([ascii "0:1" ++ [Byte.x0a]; []] ++ [ascii "2:[] "])
  = feed lineAsPart newTextDecoder
      [concat ([ascii "0:1" ++ [Byte.x0a]; []] ++ [ascii "2:[] "])].
Proof.
  assert (Forall endsAtLineBreak [ascii "0:1" ++ [Byte.x0a]; []]) as Hall.
  { apply Forall_cons_2; [right; now exists (ascii "0:1")|].
    apply Forall_cons_2; [now left | apply Forall_nil_2]. }
  split; [exact Hall|].
  exact (feed_chunks_at_line_breaks lineAsPart _ (ascii "2:[] ") Hall).
Defined.

(** C2 fails as stated.  The stream [0:"ab"] and a line feed, cut after
    its first byte: the first call decodes the line [0], the second the
    line [:"ab"], and the whole stream the line [0:"ab"].  For every
    parser that finds a part in the whole line and none in the two
    fragments, the parts differ: the partial line [0] was parsed when
    its chunk arrived. *)
Lemma partial_line_counterexample :
  exists (chunk1 chunk2 : list Byte.byte) (line fragment1 fragment2 : jsstring),
    chunk1 = ascii "0" /\
    chunk2 = ascii ":" ++ [Byte.x22] ++ ascii "ab" ++ [Byte.x22; Byte.x0a] /\
    (decode newTextDecoder (Some (chunk1 ++ chunk2))).2 = line ++ [LF] /\
    decodedLines (decode newTextDecoder (Some (chunk1 ++ chunk2))).2 = [line] /\
    decodedLines (decode newTextDecoder (Some chunk1)).2 = [fragment1] /\
    decodedLines
      (decode (decode newTextDecoder (Some chunk1)).1 (Some chunk2)).2
      = [fragment2] /\
    fragment1 ++ fragment2 = line /\
    forall (StreamPartType : Type)
           (parseStreamPart : jsstring -> option StreamPartType)
           (part : StreamPartType),
      parseStreamPart line = Some part ->
      parseStreamPart fragment1 = None ->
      parseStreamPart fragment2 = None ->
      feed parseStreamPart newTextDecoder [chunk1 ++ chunk2] = [part] /\
      feed parseStreamPart newTextDecoder [chunk1; chunk2] = [] /\
      feed parseStreamPart newTextDecoder [chunk1; chunk2]
      <> feed parseStreamPart newTextDecoder [concat [chunk1; chunk2]].
Proof.
  exists (ascii "0"),
         (ascii ":" ++ [Byte.x22] ++ ascii "ab" ++ [Byte.x22; Byte.x0a]),
         (lit "0:" ++ [34%N] ++ lit "ab" ++ [34%N]),
         (lit "0"),
         (lit ":" ++ [34%N] ++ lit "ab" ++ [34%N]).
  repeat (split; [vm_compute; reflexivity|]).
  intros StreamPartType parseStreamPart part Hline H1 H2.
  assert (feed parseStreamPart newTextDecoder
            [ascii "0" ++ ascii ":" ++ [Byte.x22] ++ ascii "ab"
               ++ [Byte.x22; Byte.x0a]] = [part]) as Hwhole.
  { cbn [feed].
    change (complexDecoder parseStreamPart newTextDecoder
              (Some (ascii "0" ++ ascii ":" ++ [Byte.x22] ++ ascii "ab"
                       ++ [Byte.x22; Byte.x0a])))
      with (mkDecoder utf8Initial true,
            omap parseStreamPart
              [lit "0:" ++ [34%N] ++ lit "ab" ++ [34%N]]).
    cbn [omap list_omap]. rewrite Hline. reflexivity. }
  assert (feed parseStreamPart newTextDecoder
            [ascii "0";
             ascii ":" ++ [Byte.x22] ++ ascii "ab" ++ [Byte.x22; Byte.x0a]]
          = []) as Hcut.
  { cbn [feed].
    change (complexDecoder parseStreamPart newTextDecoder (Some (ascii "0")))
      with (mkDecoder utf8Initial true, omap parseStreamPart [lit "0"]).
    cbn [omap list_omap]. rewrite H1.
    change (complexDecoder parseStreamPart (mkDecoder utf8Initial true)
              (Some (ascii ":" ++ [Byte.x22] ++ ascii "ab"
                       ++ [Byte.x22; Byte.x0a])))
      with (mkDecoder utf8Initial true,
            omap parseStreamPart [lit ":" ++ [34%N] ++ lit "ab" ++ [34%N]]).
    cbn [omap list_omap]. rewrite H2. reflexivity. }
  split; [exact Hwhole|]. split; [exact Hcut|].
  rewrite Hcut. cbn [concat]. rewrite app_nil_r, Hwhole. discriminate.
Qed.

(** *** The simple decoder and the guard of stream strings *)

(** X7.  The text that the simple decoder returns, call after call, does
    not depend on where the stream is cut into chunks, whatever the state
    of the decoder at the start: two sequences of chunks with the same
    bytes give the same text, also when a cut falls inside a
    character. *)
Theorem simple_decoder_any_chunking (dec : Decoder)
    (chunks1 chunks2 : list (list Byte.byte)) :
  concat chunks1 = concat chunks2 ->
  feedText dec chunks1 = feedText dec chunks2.
Proof.
  intros Hsame.
  rewrite (feedText_whole chunks1), (feedText_whole chunks2).
  now rewrite Hsame.
Qed.

Lemma simple_decoder_any_chunking_witness :
  concat [[Byte.xe2]; [Byte.x82; Byte.xac]]
    = concat [[Byte.xe2; Byte.x82]; []; [Byte.xac]] /\
  feedText newTextDecoder [[Byte.xe2]; [Byte.x82; Byte.xac]]
    = feedText newTextDecoder [[Byte.xe2; Byte.x82]; []; [Byte.xac]] /\
  feedText newTextDecoder [[Byte.xe2]; [Byte.x82; Byte.xac]] = [8364%N].
Proof.
  split; [reflexivity|]. split.
  - apply (simple_decoder_any_chunking newTextDecoder
             [[Byte.xe2]; [Byte.x82; Byte.xac]]
             [[Byte.xe2; Byte.x82]; []; [Byte.xac]]).
    reflexivity.
  - vm_compute. reflexivity.
Defined.

(** X8.  [isStreamStringEqualToType] accepts exactly the strings of the
    type [StreamString] that it guards: the prefix of the type, a colon,
    any text (line feeds included) and a final line feed. *)
Theorem isStreamStringEqualToType_iff {StreamPartName : Type}
    (StreamStringPrefixes : StreamPartName -> jsstring)
    (type : StreamPartName) (value : jsstring) :
  isStreamStringEqualToType StreamStringPrefixes type value = true
  <-> StreamString StreamStringPrefixes type value.
Proof.
  unfold isStreamStringEqualToType, StreamString.
  change (lit ":") with [58%N].
  rewrite andb_true_iff, JSFacts.endsWith_iff. split.
  - intros [Hstart [front Hfront]].
    apply JSFacts.startsWith_inv in Hstart.
    set (rest := drop (length (StreamStringPrefixes type ++ [58%N])) value)
      in Hstart.
    destruct (decide (rest = [])) as [Hnil|Hrest].
    + rewrite Hnil, app_nil_r in Hstart. rewrite Hstart in Hfront.
      apply (f_equal last) in Hfront. rewrite !last_snoc in Hfront.
      discriminate.
    + assert (last rest = Some LF) as Hlast.
      { assert (last value = Some LF) as Hv
          by (rewrite Hfront; apply last_snoc).
        rewrite Hstart in Hv.
        destruct rest as [|c rest'] using rev_ind; [contradiction|].
        rewrite app_assoc, last_snoc in Hv. now rewrite last_snoc. }
      apply last_Some in Hlast as [body Hbody].
      exists body. rewrite Hstart, Hbody. now rewrite <- !app_assoc.
  - intros [body ->]. split.
    + rewrite app_assoc. apply JSFacts.startsWith_app.
    + exists (StreamStringPrefixes type ++ [58%N] ++ body).
      now rewrite <- !app_assoc.
Qed.

End ChunkDecoderFacts.

(** ** Properties of the hook *)

Module UseChatFacts.
Import JS UseChat.

(** *** Counting the trailing assistant messages *)

Lemma trailingAssistants_nil : trailingAssistants [] 0.
Proof.
  exists [], []. repeat split; [constructor|]. intros m Hm. discriminate.
Qed.

Lemma trailingAssistants_snoc_assistant (messages : list Message)
    (message : Message) (n : nat) :
  isAssistant message -> trailingAssistants messages n ->
  trailingAssistants (messages ++ [message]) (S n).
Proof.
  intros Hm (before & trailing & -> & <- & Hall & Hlast).
  exists before, (trailing ++ [message]). split; [now rewrite app_assoc|].
  split; [rewrite length_app; simpl; lia|]. split; [|exact Hlast].
  apply Forall_app. split; [exact Hall|]. now apply Forall_cons_2.
Qed.

Lemma trailingAssistants_snoc_other (messages : list Message)
    (message : Message) :
  ~ isAssistant message -> trailingAssistants (messages ++ [message]) 0.
Proof.
  intros Hm. exists (messages ++ [message]), [].
  split; [now rewrite app_nil_r|]. split; [reflexivity|].
  split; [constructor|]. intros m Hlast. rewrite last_snoc in Hlast.
  now inversion Hlast; subst.
Qed.

Lemma trailing_suffix_le (b1 t1 b2 t2 : list Message) :
  b1 ++ t1 = b2 ++ t2 ->
  Forall isAssistant t2 ->
  (forall m, last b1 = Some m -> ~ isAssistant m) ->
  length t2 <= length t1.
Proof.
  intros Heq Hall2 Hlast1.
  destruct (Nat.le_gt_cases (length t2) (length t1)) as [|Hgt]; [assumption|].
  exfalso.
  apply app_eq_app in Heq as [l [[-> ->]|[-> ->]]].
  - destruct l as [|x l] using rev_ind; [simpl in Hgt; lia|].
    apply (Hlast1 x).
    + rewrite app_assoc. apply last_snoc.
    + apply Forall_app in Hall2 as [Hl _].
      apply Forall_app in Hl as [_ Hx]. now inversion Hx.
  - rewrite length_app in Hgt. lia.
Qed.

Lemma trailingAssistants_unique (messages : list Message) (n1 n2 : nat) :
  trailingAssistants messages n1 -> trailingAssistants messages n2 -> n1 = n2.
Proof.
  intros (b1 & t1 & -> & <- & Hall1 & Hlast1)
         (b2 & t2 & Heq & <- & Hall2 & Hlast2).
  apply Nat.le_antisymm.
  - eapply (trailing_suffix_le b2 t2 b1 t1); eauto.
  - eapply (trailing_suffix_le b1 t1 b2 t2); eauto.
Qed.

(** Assistant messages at the end are all counted. *)
Lemma trailingAssistants_suffix (before suffix : list Message) (n : nat) :
  Forall isAssistant suffix -> trailingAssistants (before ++ suffix) n ->
  length suffix <= n.
Proof.
  intros Hall (b & t' & Heq & <- & _ & Hlast).
  eapply (trailing_suffix_le b t' before suffix); eauto.
Qed.

Lemma countLoop_counts (before after : list Message) (count : nat) :
  exists n,
    countLoop (before ++ after) (length before) count = count + n /\
    trailingAssistants before n.
Proof.
  revert after count.
  induction before as [|message before IH] using rev_ind; intros after count.
  - exists 0. split; [simpl; lia | apply trailingAssistants_nil].
  - rewrite length_app. simpl. rewrite Nat.add_1_r. simpl.
    rewrite <- app_assoc. simpl.
    rewrite (list_lookup_middle before after message (length before) eq_refl).
    destruct (role message) eqn:Hrole.
    + exists 0. split; [lia|]. apply trailingAssistants_snoc_other.
      unfold isAssistant. congruence.
    + exists 0. split; [lia|]. apply trailingAssistants_snoc_other.
      unfold isAssistant. congruence.
    + destruct (IH (message :: after) (S count)) as (n & Hn & Htrail).
      exists (S n). split; [rewrite Hn; lia|].
      now apply trailingAssistants_snoc_assistant.
Qed.

Lemma countTrailingAssistantMessages_spec (messages : list Message) :
  trailingAssistants messages (countTrailingAssistantMessages messages).
Proof.
  unfold countTrailingAssistantMessages.
  destruct (countLoop_counts messages [] 0) as (n & Hn & Htrail).
  rewrite app_nil_r in Hn. now rewrite Hn.
Qed.

Lemma completedToolCalls_iff (message : Message) :
  isAssistantMessageWithCompletedToolCalls message = true <->
  isAssistant message /\
  exists invocations,
    toolInvocations message = Some invocations /\
    invocations <> [] /\
    Forall (fun toolInvocation => is_Some (result toolInvocation)) invocations.
Proof.
  unfold isAssistantMessageWithCompletedToolCalls, isAssistant.
  destruct (role message); try (split; [discriminate | intros [? _]; discriminate]).
  destruct (toolInvocations message) as [invocations|].
  - rewrite andb_true_iff, Nat.ltb_lt, forallb_forall. split.
    + intros [Hlen Hall]. split; [reflexivity|]. exists invocations.
      split; [reflexivity|]. split; [intros ->; simpl in Hlen; lia|].
      apply Forall_forall. intros x Hx. apply list_elem_of_In in Hx.
      specialize (Hall x Hx). destruct (result x); [eauto|discriminate].
    + intros [_ (inv' & Heq & Hne & Hall)]. inversion Heq; subst inv'.
      split; [destruct invocations; [contradiction|simpl; lia]|].
      intros x Hx. apply list_elem_of_In in Hx.
      rewrite Forall_forall in Hall. destruct (Hall x Hx) as [v ->].
      reflexivity.
  - split; [discriminate|]. intros [_ (inv' & Heq & _)]. discriminate.
Qed.

Lemma autoSubmit_iff (options : Options) (messages : list Message) :
  autoSubmit options messages = true <-> roundtripCondition options messages.
Proof.
  unfold autoSubmit, roundtripCondition.
  replace (messages !! (length messages - 1)) with (last messages)
    by (rewrite last_lookup; f_equal; lia).
  destruct (last messages) as [newest|].
  - rewrite !andb_true_iff, Z.ltb_lt, Z.leb_le, completedToolCalls_iff. split.
    + intros [[Hmax (Hrole & invocations & Hinv & Hne & Hall)] Hcount].
      exists newest, invocations, (countTrailingAssistantMessages messages).
      repeat split; try assumption.
      apply countTrailingAssistantMessages_spec.
    + intros (newest' & invocations & n & Hlast & Hrole & Hinv & Hne & Hall
              & Hmax & Htrail & Hn).
      inversion Hlast; subst newest'.
      rewrite (trailingAssistants_unique _ _ _
                 (countTrailingAssistantMessages_spec messages) Htrail).
      repeat split; eauto.
  - split; [discriminate|].
    intros (newest' & invocations & n & Hlast & _). discriminate.
Qed.

Lemma readStream_requests (chatRequest : ChatRequest.t)
    (existingData : option (list JSONValue)) (controller : option nat)
    (events : list StreamEvent) (h : Hook) :
  requests (readStream chatRequest existingData controller events h).1
  = requests h.
Proof.
  revert h. induction events as [|event rest IH]; intros h; simpl.
  - reflexivity.
  - match goal with |- context [signalAborted controller ?h'] =>
      assert (requests h' = requests h) as Hstep
        by (destruct event; simpl; unfold stop;
            try destruct (abortControllerRef h); reflexivity);
      destruct (signalAborted controller h')
    end.
    + exact Hstep.
    + now rewrite IH.
Qed.

Lemma readRow_requests (chatRequest : ChatRequest.t) (rows : list jsstring)
    (responseMessage : Message) (h : Hook) :
  requests (readRow chatRequest responseMessage rows h).1 = requests h.
Proof.
  revert responseMessage h.
  induction rows as [|rowContent next IH]; intros responseMessage h; simpl.
  - reflexivity.
  - now rewrite IH.
Qed.

(** Every request is recorded once, whatever the answer. *)
Lemma getStreamedResponse_requests (options : Options) (response : Response)
    (chatRequest : ChatRequest.t) (h h' : Hook) (outcome : Outcome) :
  getStreamedResponse options response chatRequest h = (h', outcome) ->
  requests h' = requests h ++ [chatRequest].
Proof.
  unfold getStreamedResponse, dispatch.
  destruct response as [events ending rendered|rows failure rendered].
  - unfold callChatApi.
    match goal with |- context [readStream ?a ?b ?c ?d ?e] =>
      pose proof (readStream_requests a b c d e) as Hreq;
      destruct (readStream a b c d e) as [h1 cancelled]
    end.
    simpl in Hreq.
    destruct cancelled; [|destruct ending]; intros Heq; inversion Heq; subst;
      simpl; exact Hreq.
  - match goal with |- context [readRow ?a ?b ?c ?d] =>
      pose proof (readRow_requests a c b d) as Hreq;
      destruct (readRow a b c d) as [h3 responseMessage']
    end.
    simpl in Hreq.
    destruct failure; intros Heq; inversion Heq; subst; simpl; exact Hreq.
Qed.

(** A response that nobody cancels is read to its end. *)
Lemma readStream_noStop (chatRequest : ChatRequest.t)
    (existingData : option (list JSONValue)) (controller : option nat)
    (events : list StreamEvent) (h : Hook) (merged : list Message) :
  noStop events ->
  signalAborted controller h = false ->
  messages h = ChatRequest.messages chatRequest ++ merged ->
  exists h',
    readStream chatRequest existingData controller events h = (h', false) /\
    messages h' = ChatRequest.messages chatRequest ++ lastMerged events merged /\
    frame h' = frame h.
Proof.
  intros Hno. revert h merged.
  induction Hno as [|event rest Hevent Hrest IH]; intros h merged Hsig Hmsg.
  - exists h. simpl. auto.
  - simpl. destruct event as [merged' data| |]; [|contradiction|].
    + assert (signalAborted controller
                (onUpdate chatRequest existingData merged' data h) = false)
        as Hsig' by (destruct controller; exact Hsig).
      rewrite Hsig'.
      destruct (IH (onUpdate chatRequest existingData merged' data h) merged'
                  Hsig' eq_refl) as (h' & Hread & Hmsg' & Hframe).
      exists h'. split; [exact Hread|]. split; [exact Hmsg'|].
      rewrite Hframe. reflexivity.
    + assert (signalAborted controller (flushEffects h) = false)
        as Hsig' by (destruct controller; exact Hsig).
      rewrite Hsig'.
      destruct (IH (flushEffects h) merged Hsig' Hmsg)
        as (h' & Hread & Hmsg' & Hframe).
      exists h'. split; [exact Hread|]. split; [exact Hmsg'|].
      rewrite Hframe. reflexivity.
Qed.

Lemma beginRequest_signal (h : Hook) (chatRequest : ChatRequest.t) :
  controllersFresh h ->
  signalAborted (abortControllerRef (dispatch chatRequest (beginRequest h)).2)
                (dispatch chatRequest (beginRequest h)).2 = false.
Proof.
  intros Hfresh. simpl. apply bool_decide_eq_false. intros Hin.
  apply Hfresh in Hin. lia.
Qed.

Lemma triggerRequest_resolved (options : Options) (response : Response)
    (later : list Response) (chatRequest : ChatRequest.t) (h h1 : Hook) :
  processChatStream options response chatRequest (beginRequest h)
    = (h1, Resolved) ->
  triggerRequest options (response :: later) chatRequest h =
    let h' := set_isLoading false
                (set_abortControllerRef None
                   (if renderedBeforeResume response then flushEffects h1
                    else h1)) in
    if autoSubmit options (messagesRef h')
    then triggerRequest options later
           (ChatRequest.make (messagesRef h') None) h'
    else h'.
Proof. intros Hcycle. cbn [triggerRequest]. now rewrite Hcycle. Qed.

Lemma triggerRequest_aborted (options : Options) (response : Response)
    (later : list Response) (chatRequest : ChatRequest.t) (h h1 : Hook)
    (err : Thrown) :
  processChatStream options response chatRequest (beginRequest h)
    = (h1, Rejected err) ->
  isAbortError err = true ->
  triggerRequest options (response :: later) chatRequest h =
    set_isLoading false
      (set_abortControllerRef None
         (if renderedBeforeResume response then flushEffects h1 else h1)).
Proof. intros Hcycle Habort. cbn [triggerRequest]. now rewrite Hcycle, Habort. Qed.

(** A response read up to a call of [stop]: the reading is cut short,
    what was merged stays, and the controller of the request is the one
    that was aborted. *)
Lemma readStream_stop (chatRequest : ChatRequest.t)
    (existingData : option (list JSONValue)) (c : nat)
    (before after : list StreamEvent) (h : Hook) (merged : list Message) :
  noStop before ->
  abortControllerRef h = Some c ->
  signalAborted (Some c) h = false ->
  messages h = ChatRequest.messages chatRequest ++ merged ->
  exists h',
    readStream chatRequest existingData (Some c) (before ++ Stop :: after) h
      = (h', true) /\
    messages h' = ChatRequest.messages chatRequest ++ lastMerged before merged /\
    error h' = error h /\
    onErrorCalls h' = onErrorCalls h /\
    requests h' = requests h.
Proof.
  intros Hno. revert h merged.
  induction Hno as [|event rest Hevent Hrest IH]; intros h merged Href Hsig Hmsg.
  - cbn [app readStream]. unfold stop. rewrite Href.
    unfold signalAborted. cbn [aborted set_abortControllerRef set_aborted].
    rewrite bool_decide_eq_true_2 by set_solver.
    eexists. split; [reflexivity|]. simpl. auto.
  - cbn [app readStream]. destruct event as [merged' data| |]; [|contradiction|].
    + assert (signalAborted (Some c)
                (onUpdate chatRequest existingData merged' data h) = false)
        as Hsig' by exact Hsig.
      rewrite Hsig'.
      destruct (IH (onUpdate chatRequest existingData merged' data h) merged'
                  Href Hsig' eq_refl) as (h' & Hread & Hmsg' & He & Hoe & Hr).
      exists h'. auto.
    + assert (signalAborted (Some c) (flushEffects h) = false)
        as Hsig' by exact Hsig.
      rewrite Hsig'.
      destruct (IH (flushEffects h) merged Href Hsig' Hmsg)
        as (h' & Hread & Hmsg' & He & Hoe & Hr).
      exists h'. auto.
Qed.

(** *** Properties of the hook *)

(** C4 (as the code has it).  A request cycle that fails, that is,
    [getStreamedResponse] is rejected with an error that is not an abort
    error, leaves as messages the snapshot [previousMessages] that was
    taken from the ref when the request was dispatched; when the ref held
    the messages of the store at that moment, the messages are those from
    before the request: the optimistic update and all partial content are
    gone. *)
Theorem failed_request_restores_messages (options : Options)
    (response : Response) (chatRequest : ChatRequest.t) (h h' : Hook)
    (err : Thrown) :
  getStreamedResponse options response chatRequest h = (h', Rejected err) ->
  isAbortError err = false ->
  messages h' = messagesRef h /\
  (messagesRef h = messages h -> messages h' = messages h).
Proof.
  intros Hcycle Hfail.
  assert (messages h' = messagesRef h) as Hrestored.
  { unfold getStreamedResponse, dispatch in Hcycle.
    destruct response as [events ending rendered|rows failure rendered].
    - unfold callChatApi in Hcycle.
      match type of Hcycle with context [readStream ?a ?b ?c ?d ?e] =>
        destruct (readStream a b c d e) as [h1 cancelled]
      end.
      destruct cancelled.
      + inversion Hcycle; subst. discriminate.
      + destruct ending; inversion Hcycle; subst. reflexivity.
    - match type of Hcycle with context [readRow ?a ?b ?c ?d] =>
        destruct (readRow a b c d) as [h3 responseMessage']
      end.
      destruct failure; inversion Hcycle; subst. reflexivity. }
  split; [exact Hrestored|]. intros Hsync. now rewrite Hrestored.
Qed.

Lemma failed_request_restores_messages_witness :
  let h := initialState [text user "hi"] [] in
  let chatRequest :=
    ChatRequest.make [text user "hi"; text user "more"] None in
  let response :=
    RouteResponse [Update [text assistant "Hel"] None;
                   Update [text assistant "Hello"] None]
      (Failed (ErrorObject (lit "Error") (lit "network error"))) false in
  messages (getStreamedResponse (exampleOptions 0) response chatRequest h).1
    = messagesRef h /\
  (messagesRef h = messages h ->
   messages (getStreamedResponse (exampleOptions 0) response chatRequest h).1
     = messages h).
Proof.
  intros h chatRequest response.
  apply (failed_request_restores_messages (exampleOptions 0) response
           chatRequest h _
           (ErrorObject (lit "Error") (lit "network error")));
    reflexivity.
Defined.

(** C4 fails as stated when the ref is behind the store at dispatch.
    [experimental_addToolResult] puts the messages with the result into
    the store and sends the request at once, before any render; the
    rejected server action makes [getStreamedResponse] restore the
    snapshot of the ref, which is the list without the result and not the
    list that the store held when the request was dispatched. *)
Lemma stale_snapshot_counterexample :
  exists (pending answered : Message) (failure : Thrown) (h h' : Hook),
    pending = mkMessage (Some (lit "a")) None [] assistant
                (Some [mkToolInvocation (lit "t1") (lit "lookup")
                         (Streamable.VObject 0) None]) /\
    answered = mkMessage (Some (lit "a")) None [] assistant
                 (Some [mkToolInvocation (lit "t1") (lit "lookup")
                          (Streamable.VObject 0)
                          (Some (Streamable.VInt 42))]) /\
    failure = ErrorObject (lit "Error") (lit "network error") /\
    h = initialState [text user "q"; pending] [] /\
    experimental_addToolResult (exampleOptions 0)
      [ActionResponse [lit "partial"] (Some failure) true]
      (lit "t1") (Streamable.VInt 42) h = Returned h' /\
    messages
      (set_messages
         (addToolResultTo (lit "t1") (Streamable.VInt 42) (messagesRef h)) h)
      = [text user "q"; answered] /\
    requests h' = [ChatRequest.make [text user "q"; answered] None] /\
    error h' = Some failure /\
    messages h' = [text user "q"; pending] /\
    messages h' <> [text user "q"; answered].
Proof.
  do 5 eexists.
  do 4 (split; [reflexivity|]).
  split; [vm_compute; reflexivity|].
  do 4 (split; [vm_compute; reflexivity|]).
  vm_compute. discriminate.
Qed.

Lemma route_finished (options : Options) (events : list StreamEvent)
    (rendered : bool) (chatRequest : ChatRequest.t) (h : Hook) :
  noStop events -> controllersFresh h ->
  exists h1,
    processChatStream options (RouteResponse events Finished rendered)
      chatRequest (beginRequest h) = (h1, Resolved) /\
    messages h1 = ChatRequest.messages chatRequest ++ lastMerged events [] /\
    requests h1 = requests h ++ [chatRequest].
Proof.
  intros Hno Hfresh.
  unfold processChatStream, getStreamedResponse, callChatApi.
  destruct (dispatch chatRequest (beginRequest h)) as [previous h0] eqn:Hd.
  assert (h0 = (dispatch chatRequest (beginRequest h)).2) as Hh0
    by now rewrite Hd.
  destruct (readStream_noStop chatRequest (streamData (beginRequest h))
              (abortControllerRef h0) events h0 [] Hno)
    as (h1 & Hread & Hmsg & Hframe).
  - subst h0. now apply beginRequest_signal.
  - subst h0. simpl. now rewrite app_nil_r.
  - rewrite Hread. eexists. split; [reflexivity|]. split; [exact Hmsg|].
    cbn [requests set_onFinishCalls].
    assert (requests h1 = requests h0) as -> by (unfold frame in Hframe; congruence).
    subst h0. reflexivity.
Qed.

(** C6.  A request whose response is being read when [stop] is called:
    the messages merged so far stay after those of the request, no error
    is set and [onError] is not called, and no further request follows,
    whatever the messages are and however many answers are ready; the
    loading flag is cleared. *)
Theorem cancelled_request_keeps_partial_content (options : Options)
    (before after : list StreamEvent) (ending : StreamEnd) (rendered : bool)
    (later : list Response) (chatRequest : ChatRequest.t) (h : Hook) :
  noStop before -> controllersFresh h ->
  let h' := triggerRequest options
              (RouteResponse (before ++ Stop :: after) ending rendered :: later)
              chatRequest h in
  messages h' = ChatRequest.messages chatRequest ++ lastMerged before [] /\
  error h' = None /\
  onErrorCalls h' = onErrorCalls h /\
  requests h' = requests h ++ [chatRequest] /\
  isLoading h' = false /\
  abortControllerRef h' = None.
Proof.
  intros Hno Hfresh h'.
  destruct (dispatch chatRequest (beginRequest h)) as [previous h0] eqn:Hd.
  assert (h0 = (dispatch chatRequest (beginRequest h)).2) as Hh0
    by now rewrite Hd.
  destruct (readStream_stop chatRequest (streamData (beginRequest h))
              (nextController h) before after h0 [] Hno)
    as (h1 & Hread & Hmsg & Herr & Honerr & Hreq).
  - subst h0. reflexivity.
  - subst h0. now apply (beginRequest_signal h chatRequest).
  - subst h0. simpl. now rewrite app_nil_r.
  - assert (processChatStream options
              (RouteResponse (before ++ Stop :: after) ending rendered)
              chatRequest (beginRequest h) = (h1, Rejected abortError))
      as Hcycle.
    { unfold processChatStream, getStreamedResponse, callChatApi.
      rewrite Hd.
      replace (abortControllerRef h0) with (Some (nextController h))
        by (subst h0; reflexivity).
      now rewrite Hread. }
    subst h'.
    rewrite (triggerRequest_aborted _ _ _ _ _ _ _ Hcycle eq_refl).
    assert (forall b : bool,
               messages (if b then flushEffects h1 else h1) = messages h1 /\
               error (if b then flushEffects h1 else h1) = error h1 /\
               onErrorCalls (if b then flushEffects h1 else h1)
                 = onErrorCalls h1 /\
               requests (if b then flushEffects h1 else h1) = requests h1)
      as Hflush by (intros []; repeat split).
    destruct (Hflush (renderedBeforeResume
                        (RouteResponse (before ++ Stop :: after) ending
                           rendered))) as (Hm & He & Ho & Hr).
    cbn [messages error onErrorCalls requests isLoading abortControllerRef
         set_isLoading set_abortControllerRef].
    rewrite Hm, He, Ho, Hr, Hmsg, Herr, Honerr, Hreq.
    subst h0. repeat split.
Qed.

Lemma cancelled_request_keeps_partial_content_witness :
  let assistantWithResult :=
    mkMessage (Some (lit "a")) None (lit "He") assistant
      (Some [mkToolInvocation (lit "t1") (lit "lookup") Streamable.VNull
               (Some Streamable.VNull)]) in
  let h' := triggerRequest (exampleOptions 5)
              (RouteResponse
                 ([Update [assistantWithResult] None; Render]
                    ++ Stop :: [Update [text assistant "Hello"] None])
                 Finished true
               :: [RouteResponse [] Finished true])
              (ChatRequest.make [text user "hi"] None)
              (initialState [] []) in
  messages h' = [text user "hi"] ++ [assistantWithResult] /\
  error h' = None /\
  onErrorCalls h' = [] /\
  requests h' = [] ++ [ChatRequest.make [text user "hi"] None] /\
  isLoading h' = false /\
  abortControllerRef h' = None.
Proof.
  intros assistantWithResult.
  apply (cancelled_request_keeps_partial_content (exampleOptions 5)
           [Update [assistantWithResult] None; Render]
           [Update [text assistant "Hello"] None] Finished true
           [RouteResponse [] Finished true]
           (ChatRequest.make [text user "hi"] None) (initialState [] [])).
  - apply Forall_cons_2; [discriminate|].
    apply Forall_cons_2; [discriminate|]. apply Forall_nil_2.
  - intros c Hc. simpl in Hc. set_solver.
Defined.

(** The requests sent by [triggerRequest] when the first cycle
    succeeds and React has rendered the result: the request itself, and
    the automatic one when [autoSubmit] holds for the new messages. *)
Lemma triggerRequest_resolved_requests (options : Options)
    (response : Response) (chatRequest : ChatRequest.t) (h h1 : Hook) :
  processChatStream options response chatRequest (beginRequest h)
    = (h1, Resolved) ->
  renderedBeforeResume response = true ->
  requests (triggerRequest options [response] chatRequest h) =
    requests h ++ chatRequest
      :: (if autoSubmit options (messages h1)
          then [ChatRequest.make (messages h1) None] else []).
Proof.
  intros Hcycle Hrendered.
  rewrite (triggerRequest_resolved _ _ _ _ _ _ Hcycle). rewrite Hrendered.
  cbv zeta.
  pose proof (getStreamedResponse_requests _ _ _ _ _ _ Hcycle) as Hreq.
  simpl in Hreq.
  change (messagesRef
            (set_isLoading false
               (set_abortControllerRef None (flushEffects h1))))
    with (messages h1).
  destruct (autoSubmit options (messages h1)).
  - cbn [triggerRequest]. simpl. rewrite Hreq.
    rewrite <- app_assoc. reflexivity.
  - simpl. exact Hreq.
Qed.

Lemma addToolResultTo_last (toolCallId' : jsstring) (result' : JSONValue)
    (before : list Message) (message : Message)
    (invocations : list ToolInvocation) :
  role message = assistant ->
  toolInvocations message = Some invocations ->
  addToolResultTo toolCallId' result' (before ++ [message]) =
    before
    ++ [mkMessage (id message) (createdAt message) (content message)
          assistant
          (Some (List.map
                   (fun toolInvocation =>
                      if bool_decide (toolCallId toolInvocation = toolCallId')
                      then mkToolInvocation (toolCallId toolInvocation)
                             (toolName toolInvocation) (args toolInvocation)
                             (Some result')
                      else toolInvocation)
                   invocations))].
Proof.
  intros Hrole Hinv. unfold addToolResultTo. rewrite imap_app. f_equal.
  - apply list_eq. intros i. rewrite list_lookup_imap.
    destruct (before !! i) as [m|] eqn:Hi; [|reflexivity]. simpl.
    apply lookup_lt_Some in Hi.
    destruct (toolInvocations m); [|reflexivity].
    rewrite length_app. simpl.
    destruct (Nat.eqb_spec i (length before + 1 - 1)) as [Heq|_]; [lia|].
    reflexivity.
  - simpl. rewrite Hinv, Hrole. rewrite length_app. simpl.
    replace (length before + 0 =? length before + 1 - 1)%nat with true
      by (symmetry; apply Nat.eqb_eq; lia).
    reflexivity.
Qed.



(** C10.  [handleSubmit] with an empty input returns before [append]: no
    message is added, no request is sent, and the messages and the input
    stay as they are; only the metadata passed along is merged into
    [extraMetadataRef]. *)
Theorem handleSubmit_empty_input (options : Options)
    (responses : list Response) (data : option JSONValue)
    (metadata : option (gmap jsstring JSONValue)) (h : Hook) :
  input h = [] ->
  let h' := handleSubmit options responses data metadata h in
  messages h' = messages h /\
  input h' = input h /\
  requests h' = requests h /\
  messagesRef h' = messagesRef h /\
  isLoading h' = isLoading h /\
  h' = match metadata with
       | Some extra => set_extraMetadataRef (extra ∪ extraMetadataRef h) h
       | None => h
       end.
Proof.
  intros Hinput h'. subst h'. unfold handleSubmit.
  destruct metadata as [extra|]; cbn [input set_extraMetadataRef];
    rewrite Hinput; repeat split; exact Hinput.
Qed.

Lemma handleSubmit_empty_input_witness :
  let h := initialState [text user "hi"] [] in
  let h' := handleSubmit (exampleOptions 0) [RouteResponse [] Finished true]
              None (Some {[lit "body" := Streamable.VInt 1]}) h in
  messages h' = messages h /\
  input h' = input h /\
  requests h' = requests h /\
  messagesRef h' = messagesRef h /\
  isLoading h' = isLoading h /\
  h' = set_extraMetadataRef
         ({[lit "body" := Streamable.VInt 1]} ∪ extraMetadataRef h) h.
Proof.
  intros h.
  exact (handleSubmit_empty_input (exampleOptions 0)
           [RouteResponse [] Finished true] None
           (Some {[lit "body" := Streamable.VInt 1]}) h eq_refl).
Defined.

(** *** Further properties of [triggerRequest] *)

(** One turn of [triggerRequest]: the request has been sent and
    answered, the loading flag is down, and either the call ends there or
    the messages of the ref satisfy the check and the call goes on with
    an automatic request. *)
Lemma triggerRequest_settles (options : Options) (response : Response)
    (later : list Response) (chatRequest : ChatRequest.t) (h : Hook) :
  exists h5,
    requests h5 = requests h ++ [chatRequest] /\
    isLoading h5 = false /\
    (triggerRequest options (response :: later) chatRequest h = h5 \/
     autoSubmit options (messagesRef h5) = true /\
     triggerRequest options (response :: later) chatRequest h
     = triggerRequest options later
         (ChatRequest.make (messagesRef h5) None) h5).
Proof.
  cbn [triggerRequest].
  destruct (processChatStream options response chatRequest (beginRequest h))
    as [h3 outcome] eqn:Hcycle.
  pose proof (getStreamedResponse_requests _ _ _ _ _ _ Hcycle) as Hreq.
  change (requests (beginRequest h)) with (requests h) in Hreq.
  assert (requests (if renderedBeforeResume response then flushEffects h3
                    else h3) = requests h ++ [chatRequest]) as Hreq4
    by (destruct (renderedBeforeResume response); exact Hreq).
  set (h4 := if renderedBeforeResume response then flushEffects h3 else h3)
    in *.
  destruct outcome as [|err]; [|destruct (isAbortError err)].
  - exists (set_isLoading false (set_abortControllerRef None h4)).
    split; [exact Hreq4|]. split; [reflexivity|].
    destruct (autoSubmit options _) eqn:Hauto; [right|left]; auto.
  - exists (set_isLoading false (set_abortControllerRef None h4)).
    split; [exact Hreq4|]. split; [reflexivity|]. now left.
  - exists (set_isLoading false
              (set_error (Some err)
                 match err with
                 | ErrorObject _ _ =>
                     set_onErrorCalls (onErrorCalls h4 ++ [err]) h4
                 | NonError _ => h4
                 end)).
    split; [destruct err; exact Hreq4|]. split; [reflexivity|].
    destruct (autoSubmit options _) eqn:Hauto; [right|left]; auto.
Qed.

Lemma autoSubmit_disabled (options : Options) (messages : list Message) :
  (experimental_maxAutomaticRoundtrips options <= 0)%Z ->
  autoSubmit options messages = false.
Proof.
  intros Hbound. unfold autoSubmit.
  destruct (messages !! (length messages - 1)); [|reflexivity].
  destruct (Z.ltb_spec 0 (experimental_maxAutomaticRoundtrips options));
    [lia|reflexivity].
Qed.

(** X11.  The requests of one call of [triggerRequest], whatever the
    answers: the request of the call is sent first; every further request
    is an automatic one, without [data], whose messages pass the check of
    the roundtrip; there are at most as many of them as answers; and the
    loading flag is up at the end exactly when the last request sent has
    no answer yet. *)
Theorem loading_while_unanswered (options : Options)
    (responses : list Response) (chatRequest : ChatRequest.t) (h : Hook) :
  exists automatic : list ChatRequest.t,
    requests (triggerRequest options responses chatRequest h)
      = requests h ++ chatRequest :: automatic /\
    length automatic <= length responses /\
    (isLoading (triggerRequest options responses chatRequest h) = true
     <-> length automatic = length responses) /\
    Forall (fun r => ChatRequest.data r = None /\
                     autoSubmit options (ChatRequest.messages r) = true)
           automatic.
Proof.
  revert chatRequest h.
  induction responses as [|response later IH]; intros chatRequest h.
  - exists []. cbn [triggerRequest length].
    split; [reflexivity|]. split; [lia|].
    split; [split; reflexivity|constructor].
  - destruct (triggerRequest_settles options response later chatRequest h)
      as (h5 & Hreq & Hload & [->|[Hauto ->]]).
    + exists []. rewrite Hreq, Hload. cbn [length].
      split; [reflexivity|]. split; [lia|]. split; [|constructor].
      split; [discriminate|lia].
    + destruct (IH (ChatRequest.make (messagesRef h5) None) h5)
        as (automatic & Hsent & Hle & Hiff & Hall).
      exists (ChatRequest.make (messagesRef h5) None :: automatic).
      rewrite Hsent, Hreq, <- app_assoc. cbn [length app].
      split; [reflexivity|]. split; [lia|]. split.
      * rewrite Hiff. lia.
      * constructor; [now split|exact Hall].
Qed.

(** X12.  With a bound of zero (the default) or less the automatic
    roundtrip is switched off: an answered call of [triggerRequest] sends
    its own request and no other, whatever the messages are, and reads no
    further answer. *)
Theorem roundtrips_disabled (options : Options) (response : Response)
    (later : list Response) (chatRequest : ChatRequest.t) (h : Hook) :
  (experimental_maxAutomaticRoundtrips options <= 0)%Z ->
  requests (triggerRequest options (response :: later) chatRequest h)
    = requests h ++ [chatRequest] /\
  isLoading (triggerRequest options (response :: later) chatRequest h)
    = false /\
  triggerRequest options (response :: later) chatRequest h
    = triggerRequest options [response] chatRequest h.
Proof.
  intros Hbound.
  destruct (triggerRequest_settles options response later chatRequest h)
    as (h5 & Hreq & Hload & [Hend|[Hauto _]]);
    [|now rewrite autoSubmit_disabled in Hauto].
  destruct (triggerRequest_settles options response [] chatRequest h)
    as (h6 & _ & _ & [Hend'|[Hauto _]]);
    [|now rewrite autoSubmit_disabled in Hauto].
  rewrite Hend. split; [exact Hreq|]. split; [exact Hload|].
  rewrite Hend'.
  cbn [triggerRequest] in Hend, Hend'.
  destruct (processChatStream options response chatRequest (beginRequest h))
    as [h3 outcome].
  destruct outcome as [|err]; [|destruct (isAbortError err)];
    rewrite ?autoSubmit_disabled in Hend, Hend' by exact Hbound;
    congruence.
Qed.

Lemma roundtrips_disabled_witness :
  let answered :=
    mkMessage (Some (lit "a")) None [] assistant
      (Some [mkToolInvocation (lit "t1") (lit "lookup") (Streamable.VObject 0)
               (Some (Streamable.VInt 42))]) in
  let response := RouteResponse [Update [answered] None] Finished true in
  let request := ChatRequest.make [text user "q"] None in
  let h := initialState [] [] in
  requests (triggerRequest (exampleOptions 0)
              (response :: [RouteResponse [] Finished true]) request h)
    = requests h ++ [request] /\
  isLoading (triggerRequest (exampleOptions 0)
               (response :: [RouteResponse [] Finished true]) request h)
    = false /\
  triggerRequest (exampleOptions 0)
    (response :: [RouteResponse [] Finished true]) request h
    = triggerRequest (exampleOptions 0) [response] request h.
Proof.
  intros answered response request h.
  apply (roundtrips_disabled (exampleOptions 0) response
           [RouteResponse [] Finished true] request h).
  simpl. lia.
Defined.

(** *** Server actions *)

Lemma readRow_frame (chatRequest : ChatRequest.t) (rows : list jsstring)
    (responseMessage : Message) (h : Hook) :
  frame (readRow chatRequest responseMessage rows h).1 = frame h /\
  messagesRef (readRow chatRequest responseMessage rows h).1 = messagesRef h /\
  streamData (readRow chatRequest responseMessage rows h).1 = streamData h.
Proof.
  revert responseMessage h.
  induction rows as [|rowContent next IH]; intros responseMessage h.
  - auto.
  - cbn [readRow].
    match goal with |- context [readRow _ ?m next ?h'] =>
      destruct (IH m h') as (Hframe & Href & Hdata) end.
    rewrite Hframe, Href, Hdata. auto.
Qed.

Lemma readRow_last (chatRequest : ChatRequest.t) (rows : list jsstring)
    (lastRow : jsstring) (responseMessage : Message) (h : Hook) :
  last rows = Some lastRow ->
  (readRow chatRequest responseMessage rows h).2
    = mkMessage (id responseMessage) (createdAt responseMessage) lastRow
        (role responseMessage) (toolInvocations responseMessage) /\
  messages (readRow chatRequest responseMessage rows h).1
    = ChatRequest.messages chatRequest
      ++ [(readRow chatRequest responseMessage rows h).2].
Proof.
  revert responseMessage h.
  induction rows as [|rowContent next IH]; intros responseMessage h Hlast;
    [discriminate|].
  cbn [readRow]. destruct next as [|row' next'].
  - injection Hlast as <-. cbn. auto.
  - match goal with |- context [readRow _ ?m (row' :: next') ?h'] =>
      destruct (IH m h' Hlast) as (Hmsg & Hstore) end.
    rewrite Hstore, Hmsg. auto.
Qed.



(** A server action that is rejected: the state in which
    [triggerRequest] catches the error. *)
Lemma failed_action_cycle (options : Options) (rows : list jsstring)
    (err : Thrown) (rendered : bool) (chatRequest : ChatRequest.t)
    (h : Hook) :
  exists h3,
    processChatStream options (ActionResponse rows (Some err) rendered)
      chatRequest (beginRequest h) = (h3, Rejected err) /\
    messages h3 = messagesRef h /\
    messagesRef h3 = messagesRef h /\
    frame h3
    = (true, None, Some (nextController h), extraMetadataRef h, input h,
       aborted h, S (nextController h), S (nextId h), clock h,
       requests h ++ [chatRequest], onErrorCalls h, onFinishCalls h).
Proof.
  unfold processChatStream, getStreamedResponse, dispatch.
  match goal with |- context [readRow ?a ?b ?c ?d] =>
    destruct (readRow_frame a c b d) as (Hframe & Href & _);
    destruct (readRow a b c d) as [h3 responseMessage'] end.
  cbn [fst snd] in *.
  eexists. split; [reflexivity|]. split; [reflexivity|].
  split; [exact Href|].
  unfold frame in *. cbn in Hframe |- *. exact Hframe.
Qed.



(** *** Failures and the roundtrip check *)



(** *** The bound of the automatic roundtrips *)

Lemma trailingAssistants_app (messages added : list Message) (n : nat) :
  trailingAssistants messages n -> Forall isAssistant added ->
  trailingAssistants (messages ++ added) (n + length added).
Proof.
  intros (before & trailing & -> & <- & Htrailing & Hbefore) Hadded.
  exists before, (trailing ++ added).
  rewrite <- app_assoc, length_app. split; [reflexivity|].
  split; [reflexivity|]. split; [now apply Forall_app|exact Hbefore].
Qed.

Lemma countTrailing_app (messages added : list Message) :
  Forall isAssistant added ->
  countTrailingAssistantMessages (messages ++ added)
  = countTrailingAssistantMessages messages + length added.
Proof.
  intros Hadded.
  eapply trailingAssistants_unique.
  - apply countTrailingAssistantMessages_spec.
  - apply trailingAssistants_app; [|exact Hadded].
    apply countTrailingAssistantMessages_spec.
Qed.

Lemma autoSubmit_bound (options : Options) (messages : list Message) :
  autoSubmit options messages = true ->
  (Z.of_nat (countTrailingAssistantMessages messages)
   <= experimental_maxAutomaticRoundtrips options)%Z.
Proof.
  unfold autoSubmit.
  destruct (messages !! (length messages - 1)); [|discriminate].
  rewrite !andb_true_iff. intros [_ Hle]. now apply Z.leb_le.
Qed.

(** An answer that brings assistant messages: the state in which
    [triggerRequest] resumes. *)
Lemma answered_cycle (options : Options) (response : Response)
    (chatRequest : ChatRequest.t) (h : Hook) :
  answersWithAssistantMessages response -> controllersFresh h ->
  exists h1 added,
    processChatStream options response chatRequest (beginRequest h)
      = (h1, Resolved) /\
    renderedBeforeResume response = true /\
    messages h1 = ChatRequest.messages chatRequest ++ added /\
    added <> [] /\
    Forall isAssistant added /\
    requests h1 = requests h ++ [chatRequest] /\
    controllersFresh h1.
Proof.
  intros Hanswer Hfresh.
  destruct response as [events [|] [|]|[|row rows] [|] [|]];
    try contradiction.
  - destruct Hanswer as (Hno & Hne & Hall).
    unfold processChatStream, getStreamedResponse, callChatApi.
    destruct (dispatch chatRequest (beginRequest h)) as [previous h0] eqn:Hd.
    assert (h0 = (dispatch chatRequest (beginRequest h)).2) as Hh0
      by now rewrite Hd.
    destruct (readStream_noStop chatRequest (streamData (beginRequest h))
                (abortControllerRef h0) events h0 [] Hno)
      as (h1 & Hread & Hmsg & Hframe).
    + subst h0. now apply beginRequest_signal.
    + subst h0. simpl. now rewrite app_nil_r.
    + rewrite Hread. eexists. exists (lastMerged events []).
      split; [reflexivity|]. split; [reflexivity|]. split; [exact Hmsg|].
      split; [exact Hne|]. split; [exact Hall|].
      unfold frame in Hframe.
      injection Hframe as _ _ _ _ _ Hab Hnc _ _ Hreq _ _.
      subst h0. cbn in Hab, Hnc, Hreq. split; [exact Hreq|].
      intros c Hc. cbn in Hc |- *. rewrite Hab in Hc. rewrite Hnc.
      apply Hfresh in Hc. lia.
  - unfold processChatStream, getStreamedResponse, dispatch.
    destruct (proj2 (last_is_Some (row :: rows)) ltac:(discriminate))
      as [lastRow Hlast].
    match goal with |- context [readRow ?a ?b ?c ?d] =>
      destruct (readRow_frame a c b d) as (Hframe & _ & _);
      destruct (readRow_last a c lastRow b d Hlast) as (Hmsg & Hstore);
      destruct (readRow a b c d) as [h3 responseMessage'] end.
    cbn [fst snd] in *.
    eexists. exists [responseMessage'].
    split; [reflexivity|]. split; [reflexivity|]. split; [exact Hstore|].
    split; [discriminate|].
    split; [apply Forall_cons_2; [now rewrite Hmsg|apply Forall_nil_2]|].
    unfold frame in Hframe.
    injection Hframe as _ _ _ _ _ Hab Hnc _ _ Hreq _ _.
    cbn in Hab, Hnc, Hreq. split; [exact Hreq|].
    intros c Hc. cbn in Hc |- *. rewrite Hab in Hc. rewrite Hnc.
    apply Hfresh in Hc. lia.
Qed.

(** X16.  The bound does limit the automatic roundtrips when every
    answer is read to its end, is rendered, and brings at least one
    message and only assistant messages: however many answers the server
    is ready to give, the automatic requests of one call of
    [triggerRequest] are at most the bound less the assistant messages
    that already end the first request. *)
Theorem roundtrips_bounded (options : Options) (responses : list Response)
    (chatRequest : ChatRequest.t) (h : Hook) :
  Forall answersWithAssistantMessages responses ->
  controllersFresh h ->
  exists automatic : list ChatRequest.t,
    requests (triggerRequest options responses chatRequest h)
      = requests h ++ chatRequest :: automatic /\
    (Z.of_nat (length automatic)
     <= Z.max 0
          (experimental_maxAutomaticRoundtrips options
           - Z.of_nat (countTrailingAssistantMessages
                         (ChatRequest.messages chatRequest))))%Z.
Proof.
  intros Hall. revert chatRequest h.
  induction Hall as [|response later Hanswer _ IH]; intros chatRequest h Hfresh.
  - exists []. cbn. split; [reflexivity|lia].
  - destruct (answered_cycle options response chatRequest h Hanswer Hfresh)
      as (h1 & added & Hcycle & Hrendered & Hmsg & Hne & Hadded & Hreq
          & Hfresh1).
    rewrite (triggerRequest_resolved _ _ _ _ _ _ Hcycle), Hrendered.
    cbv zeta.
    change (messagesRef
              (set_isLoading false
                 (set_abortControllerRef None (flushEffects h1))))
      with (messages h1).
    destruct (autoSubmit options (messages h1)) eqn:Hauto.
    + destruct (IH (ChatRequest.make (messages h1) None)
                  (set_isLoading false
                     (set_abortControllerRef None (flushEffects h1))))
        as (automatic & Hsent & Hle); [exact Hfresh1|].
      exists (ChatRequest.make (messages h1) None :: automatic).
      rewrite Hsent. cbn [requests set_isLoading set_abortControllerRef
                            flushEffects set_messagesRef].
      rewrite Hreq, <- app_assoc. split; [reflexivity|].
      apply autoSubmit_bound in Hauto.
      cbn [ChatRequest.messages] in Hle.
      rewrite Hmsg, countTrailing_app in Hle, Hauto by exact Hadded.
      assert (0 < length added) by (destruct added; [contradiction|cbn; lia]).
      cbn [length]. lia.
    + exists []. cbn [requests set_isLoading set_abortControllerRef
                        flushEffects set_messagesRef length].
      split; [exact Hreq|lia].
Qed.

Lemma roundtrips_bounded_witness :
  let answered (n : string) :=
    mkMessage (Some (lit n)) None [] assistant
      (Some [mkToolInvocation (lit "t1") (lit "lookup") (Streamable.VObject 0)
               (Some (Streamable.VInt 42))]) in
  let responses :=
    [RouteResponse [Update [answered "a"%string] None] Finished true;
     RouteResponse [Update [answered "b"%string] None] Finished true;
     RouteResponse [Update [answered "c"%string] None] Finished true;
     RouteResponse [Update [answered "d"%string] None] Finished true] in
  let request := ChatRequest.make [text user "q"] None in
  let h := initialState [] [] in
  (exists automatic : list ChatRequest.t,
      requests (triggerRequest (exampleOptions 2) responses request h)
        = requests h ++ request :: automatic /\
      (Z.of_nat (length automatic)
       <= Z.max 0
            (experimental_maxAutomaticRoundtrips (exampleOptions 2)
             - Z.of_nat (countTrailingAssistantMessages
                           (ChatRequest.messages request))))%Z) /\
  length (requests (triggerRequest (exampleOptions 2) responses request h))
    = 3.
Proof.
  intros answered responses request h. split.
  - apply (roundtrips_bounded (exampleOptions 2) responses request h).
    + repeat (apply Forall_cons_2;
              [split; [repeat constructor; discriminate
                      |split; [discriminate
                              |repeat constructor]]|]).
      apply Forall_nil_2.
    + intros c Hc. cbn in Hc. set_solver.
  - vm_compute. reflexivity.
Defined.

(** *** [experimental_addToolResult], [handleSubmit], [reload] and
    [setMessages] *)

Lemma triggerRequest_requests (options : Options)
    (responses : list Response) (chatRequest : ChatRequest.t) (h : Hook) :
  exists more,
    requests (triggerRequest options responses chatRequest h)
    = requests h ++ chatRequest :: more.
Proof.
  revert chatRequest h.
  induction responses as [|response later IH]; intros chatRequest h.
  - now exists [].
  - destruct (triggerRequest_settles options response later chatRequest h)
      as (h5 & Hreq & _ & [->|[_ ->]]).
    + exists []. exact Hreq.
    + destruct (IH (ChatRequest.make (messagesRef h5) None) h5)
        as [more Hsent].
      exists (ChatRequest.make (messagesRef h5) None :: more).
      now rewrite Hsent, Hreq, <- app_assoc.
Qed.

(** X17.  The update of [experimental_addToolResult] only fills in
    results: the list keeps its length; every message but the last is
    the same; every message keeps its id, date, content and role; and
    when the last message has no tool invocation with the given id, the
    list is the same. *)
Theorem addToolResult_only_fills_results (toolCallId' : jsstring)
    (result' : JSONValue) (messages : list Message) :
  length (addToolResultTo toolCallId' result' messages) = length messages /\
  (forall i, S i < length messages ->
     addToolResultTo toolCallId' result' messages !! i = messages !! i) /\
  List.map (fun m => (id m, createdAt m, content m, role m))
    (addToolResultTo toolCallId' result' messages)
  = List.map (fun m => (id m, createdAt m, content m, role m)) messages /\
  ((forall m invocations,
       last messages = Some m ->
       toolInvocations m = Some invocations ->
       Forall (fun toolInvocation => toolCallId toolInvocation <> toolCallId')
              invocations) ->
   addToolResultTo toolCallId' result' messages = messages).
Proof.
  unfold addToolResultTo.
  split; [apply length_imap|]. split; [|split].
  - intros i Hi. rewrite list_lookup_imap.
    destruct (messages !! i) as [m|]; [|reflexivity]. cbn.
    destruct (toolInvocations m); [|reflexivity].
    destruct (Nat.eqb_spec i (length messages - 1)); [lia|reflexivity].
  - apply list_eq. intros i.
    rewrite !list_lookup_fmap, list_lookup_imap.
    destruct (messages !! i) as [m|]; [|reflexivity]. cbn.
    destruct (toolInvocations m); [|reflexivity].
    destruct (_ && _); [|reflexivity]. cbn.
    reflexivity.
  - intros Hother. apply list_eq. intros i.
    rewrite list_lookup_imap.
    destruct (messages !! i) as [m|] eqn:Hm; [|reflexivity]. cbn.
    destruct (toolInvocations m) as [invocations|] eqn:Hinv; [|reflexivity].
    destruct (Nat.eqb_spec i (length messages - 1)) as [Hi|_];
      [|reflexivity].
    destruct (role m) eqn:Hrole; cbn; try reflexivity.
    assert (last messages = Some m) as Hlast.
    { rewrite last_lookup.
      replace (Nat.pred (length messages)) with i by lia. exact Hm. }
    specialize (Hother m invocations Hlast Hinv).
    assert (List.map
              (fun toolInvocation =>
                 if bool_decide (toolCallId toolInvocation = toolCallId')
                 then mkToolInvocation (toolCallId toolInvocation)
                        (toolName toolInvocation) (args toolInvocation)
                        (Some result')
                 else toolInvocation) invocations = invocations) as ->.
    { clear Hinv Hlast Hm Hrole.
      induction Hother as [|inv invs Hne _ IH]; [reflexivity|].
      cbn [List.map]. rewrite bool_decide_eq_false_2 by exact Hne.
      now rewrite IH. }
    destruct m. cbn in *. now subst.
Qed.

Lemma addToolResult_only_fills_results_witness :
  let pending :=
    mkMessage (Some (lit "a")) None [] assistant
      (Some [mkToolInvocation (lit "t1") (lit "lookup") (Streamable.VObject 0)
               None]) in
  addToolResultTo (lit "t2") (Streamable.VInt 42) [text user "q"; pending]
  = [text user "q"; pending].
Proof.
  intros pending.
  apply (proj2 (proj2 (proj2
           (addToolResult_only_fills_results (lit "t2") (Streamable.VInt 42)
              [text user "q"; pending])))).
  intros m invocations Hlast Hinv.
  injection Hlast as <-. injection Hinv as <-.
  apply Forall_cons_2; [discriminate|apply Forall_nil_2].
Defined.



(** X19.  [reload]: with no message in the ref nothing happens at all;
    when the last message of the ref is an assistant message the request
    carries the messages without it, and the store shows them at once;
    otherwise the request carries all the messages of the ref. *)
Theorem reload_retries_last_user_message (options : Options)
    (responses : list Response) (h : Hook) :
  (messagesRef h = [] -> reload options responses h = h) /\
  (forall kept m,
      messagesRef h = kept ++ [m] -> role m = assistant ->
      (exists more,
          requests (reload options responses h)
          = requests h ++ ChatRequest.make kept None :: more) /\
      messages (reload options [] h) = kept) /\
  (forall kept m,
      messagesRef h = kept ++ [m] -> role m <> assistant ->
      (exists more,
          requests (reload options responses h)
          = requests h ++ ChatRequest.make (kept ++ [m]) None :: more) /\
      messages (reload options [] h) = kept ++ [m]).
Proof.
  assert (forall kept m,
             messagesRef h = kept ++ [m] ->
             messagesRef h !! (length (messagesRef h) - 1) = Some m /\
             slice_messages (messagesRef h) = kept) as Hlast.
  { intros kept m ->. unfold slice_messages. rewrite length_app.
    cbn [length].
    replace (length kept + 1 - 1) with (length kept) by lia.
    rewrite lookup_app_r, Nat.sub_diag, take_app_length by lia. auto. }
  unfold reload. split; [|split].
  - intros ->. reflexivity.
  - intros kept m Href Hrole.
    destruct (Hlast kept m Href) as [-> ->]. rewrite Hrole.
    split; [apply triggerRequest_requests|reflexivity].
  - intros kept m Href Hrole.
    destruct (Hlast kept m Href) as [-> _]. rewrite <- Href.
    destruct (role m); try contradiction;
      (split; [apply triggerRequest_requests|reflexivity]).
Qed.

Lemma reload_retries_last_user_message_witness :
  let h := initialState [text user "q"; text assistant "answer"] [] in
  (exists more,
      requests (reload (exampleOptions 0) [RouteResponse [] Finished true] h)
      = requests h ++ ChatRequest.make [text user "q"] None :: more) /\
  messages (reload (exampleOptions 0) [] h) = [text user "q"].
Proof.
  apply (proj1 (proj2 (reload_retries_last_user_message (exampleOptions 0)
                         [RouteResponse [] Finished true]
                         (initialState
                            [text user "q"; text assistant "answer"] [])))
           [text user "q"] (text assistant "answer")).
  - reflexivity.
  - reflexivity.
Defined.

(** X20.  [setMessages] writes the store and the ref together, so the
    list it sets is the one a failure returns to without any render in
    between: after [setMessages] and an [append] whose server action is
    rejected (not with an abort error), the store and the ref hold the
    list that was set. *)
Theorem setMessages_is_the_rollback_baseline (options : Options)
    (rows : list jsstring) (err : Thrown) (rendered : bool)
    (message : Message) (data : option JSONValue)
    (messages' : list Message) (h : Hook) :
  isAbortError err = false ->
  let h' := append options [ActionResponse rows (Some err) rendered] message
              data (setMessages messages' h) in
  messages h' = messages' /\ messagesRef h' = messages'.
Proof.
  intros Habort h'. subst h'. unfold append.
  assert (exists request h1,
             messagesRef h1 = messages' /\
             (let '(message', h1) :=
                match id message with
                | None | Some [] =>
                    (mkMessage
                       (Some (generateId options
                                (nextId (setMessages messages' h))))
                       (createdAt message) (content message) (role message)
                       (toolInvocations message),
                     set_nextId (S (nextId (setMessages messages' h)))
                       (setMessages messages' h))
                | Some _ => (message, setMessages messages' h)
                end in
              triggerRequest options
                [ActionResponse rows (Some err) rendered]
                (ChatRequest.make (messagesRef h1 ++ [message']) data) h1)
             = triggerRequest options
                 [ActionResponse rows (Some err) rendered] request h1)
    as (request & h1' & Href & ->)
    by (destruct (id message) as [[|]|]; eexists; eexists;
        (split; [|reflexivity]); reflexivity).
  cbn [triggerRequest].
  destruct (failed_action_cycle options rows err rendered request h1')
    as (h3 & -> & Hmsg & Href3 & _).
  rewrite Habort. cbn [renderedBeforeResume].
  rewrite Href in Hmsg, Href3.
  set (h5 := set_isLoading false (set_error (Some err) _)).
  assert (messages h5 = messages' /\ messagesRef h5 = messages')
    as [Hmsg5 Href5]
    by (subst h5; destruct err, rendered; cbn; auto).
  destruct (autoSubmit options (messagesRef h5)); [|auto].
  cbn. auto.
Qed.

Lemma setMessages_is_the_rollback_baseline_witness :
  let h' := append (exampleOptions 0)
              [ActionResponse [lit "He"]
                 (Some (ErrorObject (lit "Error") (lit "network error")))
                 false]
              (text user "more") None
              (setMessages [text user "edited"]
                 (initialState [text user "hi"] [])) in
  messages h' = [text user "edited"] /\
  messagesRef h' = [text user "edited"].
Proof.
  apply (setMessages_is_the_rollback_baseline (exampleOptions 0) [lit "He"]
           (ErrorObject (lit "Error") (lit "network error")) false
           (text user "more") None [text user "edited"]
           (initialState [text user "hi"] [])).
  vm_compute. reflexivity.
Defined.

End UseChatFacts.

(** ** The encoder and the decoder together *)

Module CodecFacts.
Import JS.

(** The line of an event: what the encoder writes before the two line
    breaks. *)
Lemma event_line_noLF (e : AssistantResponse.Send) :
  AssistantResponse.noLF
    (AssistantResponse.prefix e ++ lit ": "
     ++ AssistantResponse.stringify (AssistantResponse.payload e)).
Proof.
  apply AssistantResponseFacts.noLF_app.
  - destruct e; repeat (apply Forall_cons_2; [discriminate|]);
      apply Forall_nil_2.
  - apply (AssistantResponseFacts.noLF_app (lit ": ")).
    + repeat (apply Forall_cons_2; [discriminate|]). apply Forall_nil_2.
    + apply AssistantResponseFacts.stringify_noLF.
Qed.

Lemma encode_line (e : AssistantResponse.Send) :
  AssistantResponse.encode e
  = (AssistantResponse.prefix e ++ lit ": "
     ++ AssistantResponse.stringify (AssistantResponse.payload e))
    ++ LF :: [LF].
Proof.
  destruct e;
    unfold AssistantResponse.encode, AssistantResponse.prefix,
      AssistantResponse.payload;
    [change (lit "3: ") with (lit "3" ++ lit ": ")
    |change (lit "4: ") with (lit "4" ++ lit ": ")
    |change (lit "0: ") with (lit "0" ++ lit ": ")];
    rewrite <- ?app_assoc; reflexivity.
Qed.

(** X9.  The text of any sequence of events of the assistant response,
    split by the complex chunk decoder, gives one line per event, in
    order: the line [<prefix>: <json>] of the event.  The empty line that
    the encoder writes after each event is filtered out, and no payload
    breaks a line. *)
Theorem events_decode_line_by_line (events : list AssistantResponse.Send) :
  ChunkDecoder.decodedLines
    (concat (List.map AssistantResponse.encode events))
  = List.map
      (fun e => AssistantResponse.prefix e ++ lit ": "
                ++ AssistantResponse.stringify (AssistantResponse.payload e))
      events.
Proof.
  unfold ChunkDecoder.decodedLines.
  induction events as [|e events IH]; [reflexivity|].
  cbn [List.map concat]. rewrite encode_line, <- app_assoc.
  cbn [app].
  rewrite (AssistantResponseFacts.split_lines_break _ _ (event_line_noLF e)).
  cbn [split_lines]. rewrite N.eqb_refl.
  cbn [List.filter nonEmpty]. rewrite IH.
  destruct e; reflexivity.
Qed.

(** X10.  For a type whose prefix in [StreamStringPrefixes] is one
    character, [isStreamStringEqualToType] holds of the text that
    [sendStatus], [sendThreadId] or [sendMessage] enqueues exactly when
    that character is the prefix of the event: the encoder writes stream
    strings of the type of its prefix, and of no other. *)
Theorem encoded_event_is_stream_string {StreamPartName : Type}
    (StreamStringPrefixes : StreamPartName -> jsstring)
    (type : StreamPartName) (e : AssistantResponse.Send) (c : N) :
  StreamStringPrefixes type = [c] ->
  ChunkDecoder.isStreamStringEqualToType StreamStringPrefixes type
    (AssistantResponse.encode e)
  = bool_decide (AssistantResponse.prefix e = [c]).
Proof.
  intros Hprefix.
  unfold ChunkDecoder.isStreamStringEqualToType. rewrite Hprefix.
  assert (endsWith (AssistantResponse.encode e) [LF] = true) as ->.
  { apply JSFacts.endsWith_iff. rewrite encode_line.
    set (line := AssistantResponse.prefix e ++ _).
    exists (line ++ [LF]). rewrite <- (app_assoc line [LF] [LF]).
    reflexivity. }
  rewrite andb_true_r. change (lit ":") with [58%N].
  destruct e;
    unfold AssistantResponse.encode, AssistantResponse.prefix;
    [change (lit "3: ") with [51; 58; 32]%N; change (lit "3") with [51%N]
    |change (lit "4: ") with [52; 58; 32]%N; change (lit "4") with [52%N]
    |change (lit "0: ") with [48; 58; 32]%N; change (lit "0") with [48%N]];
    cbn [app startsWith]; case_bool_decide as Hp.
  all: try (injection Hp as <-; reflexivity).
  all: match goal with
       | |- (N.eqb ?x ?d && _ = false) =>
           destruct (N.eqb_spec x d) as [->|_];
           [now contradiction Hp | reflexivity]
       end.
Qed.

Lemma encoded_event_is_stream_string_witness :
  ChunkDecoder.isStreamStringEqualToType
    (fun type : bool => if type then lit "4" else lit "0") true
    (AssistantResponse.encode (AssistantResponse.sendThreadId (lit "t")))
  = bool_decide
      (AssistantResponse.prefix (AssistantResponse.sendThreadId (lit "t"))
       = [52%N]).
Proof.
  apply (encoded_event_is_stream_string
           (fun type : bool => if type then lit "4" else lit "0") true
           (AssistantResponse.sendThreadId (lit "t")) 52%N).
  reflexivity.
Defined.

End CodecFacts.

(** ** Properties of the Mistral chat model *)

Module MistralFacts.
Import JS Mistral.



(** *** The transform of [doStream] *)

Section Parts.
Variable nanoid : nat -> jsstring.

Lemma enqueueToolCalls_parts (calls : list ToolCallChunk) (n : nat) :
  flat_map textOf (enqueueToolCalls nanoid calls n).1 = [] /\
  flat_map errorOf (enqueueToolCalls nanoid calls n).1 = [] /\
  flat_map toolPartOf (enqueueToolCalls nanoid calls n).1
    = flat_map (fun c => [(false, c); (true, c)]) calls /\
  flat_map idOf (enqueueToolCalls nanoid calls n).1
    = List.map nanoid (seq n (2 * length calls)) /\
  (enqueueToolCalls nanoid calls n).2 = n + 2 * length calls.
Proof.
  revert n. induction calls as [|[fname fargs] rest IH]; intros n.
  - cbn. auto.
  - cbn [enqueueToolCalls].
    destruct (IH (S (S n))) as (Htext & Herr & Htool & Hid & Hn).
    destruct (enqueueToolCalls nanoid rest (S (S n))) as [parts n'].
    cbn [fst snd flat_map textOf errorOf toolPartOf idOf app
           function_name function_arguments] in *.
    rewrite Htext, Herr, Htool, Hid, Hn.
    replace (2 * length (mkToolCallChunk fname fargs :: rest))
      with (S (S (2 * length rest))) by (cbn [length]; lia).
    cbn [seq List.map]. repeat split; try reflexivity. lia.
Qed.

Lemma transform_parts (chunk : ParsedChunk) (n : nat) :
  flat_map textOf (transform nanoid chunk n).1 = contentsOf chunk /\
  flat_map errorOf (transform nanoid chunk n).1 = errorsOf chunk /\
  flat_map toolPartOf (transform nanoid chunk n).1
    = flat_map (fun c => [(false, c); (true, c)]) (toolCallsOf chunk) /\
  flat_map idOf (transform nanoid chunk n).1
    = List.map nanoid (seq n (2 * length (toolCallsOf chunk))) /\
  (transform nanoid chunk n).2 = n + 2 * length (toolCallsOf chunk).
Proof.
  destruct chunk as [e|value]; cbn [transform contentsOf errorsOf toolCallsOf].
  - cbn. auto.
  - destruct (firstDelta value) as [[text calls]|]; [|cbn; auto].
    cbn [content tool_calls].
    destruct calls as [calls|].
    + destruct (enqueueToolCalls_parts calls n)
        as (Htext & Herr & Htool & Hid & Hn).
      destruct (enqueueToolCalls nanoid calls n) as [parts n'].
      cbn [fst snd default] in *.
      rewrite !flat_map_app, Htext, Herr, Htool, Hid, Hn.
      destruct text; cbn; auto.
    + destruct text; cbn; auto.
Qed.

Lemma pipeThrough_parts (chunks : list ParsedChunk) (n : nat) :
  flat_map textOf (pipeThrough nanoid chunks n).1
    = flat_map contentsOf chunks /\
  flat_map errorOf (pipeThrough nanoid chunks n).1
    = flat_map errorsOf chunks /\
  flat_map toolPartOf (pipeThrough nanoid chunks n).1
    = flat_map (fun c => [(false, c); (true, c)])
        (flat_map toolCallsOf chunks) /\
  flat_map idOf (pipeThrough nanoid chunks n).1
    = List.map nanoid
        (seq n (2 * length (flat_map toolCallsOf chunks))) /\
  (pipeThrough nanoid chunks n).2
    = n + 2 * length (flat_map toolCallsOf chunks).
Proof.
  revert n. induction chunks as [|chunk rest IH]; intros n.
  - cbn. auto.
  - cbn [pipeThrough].
    destruct (transform_parts chunk n) as (Htext & Herr & Htool & Hid & Hn).
    destruct (transform nanoid chunk n) as [parts n'].
    cbn [fst snd] in *. subst n'.
    destruct (IH (n + 2 * length (toolCallsOf chunk)))
      as (Htext' & Herr' & Htool' & Hid' & Hn').
    destruct (pipeThrough nanoid rest (n + 2 * length (toolCallsOf chunk)))
      as [parts' n''].
    cbn [fst snd flat_map] in *.
    rewrite !flat_map_app, Htext, Herr, Htool, Hid, Htext', Herr', Htool',
      Hid', Hn', length_app.
    repeat split; try reflexivity; try lia.
    rewrite <- List.map_app, <- seq_app. f_equal. f_equal. lia.
Qed.

End Parts.

(** X22.  The transform of [doStream] loses nothing and keeps the order:
    the text deltas are the contents of the first choices of the chunks;
    the error parts are the error chunks; and every tool call of a first
    choice gives a [tool-call-delta] followed by a [tool-call] with its
    name and its arguments. *)
Theorem stream_keeps_content (nanoid : nat -> jsstring)
    (chunks : list ParsedChunk) (n : nat) :
  flat_map textOf (pipeThrough nanoid chunks n).1
    = flat_map contentsOf chunks /\
  flat_map errorOf (pipeThrough nanoid chunks n).1
    = flat_map errorsOf chunks /\
  flat_map toolPartOf (pipeThrough nanoid chunks n).1
    = flat_map (fun c => [(false, c); (true, c)])
        (flat_map toolCallsOf chunks).
Proof.
  destruct (pipeThrough_parts nanoid chunks n) as (? & ? & ? & _). auto.
Qed.

(** X23.  Every tool part gets an identifier of its own: the transform
    calls [nanoid] twice for each tool call, so as long as [nanoid] never
    repeats itself no two tool parts of a stream share a [toolCallId],
    not even the [tool-call-delta] and the [tool-call] of one tool
    call. *)
Theorem tool_parts_have_their_own_ids (nanoid : nat -> jsstring)
    (chunks : list ParsedChunk) (n : nat) :
  (forall i j, nanoid i = nanoid j -> i = j) ->
  (pipeThrough nanoid chunks n).2
    = n + 2 * length (flat_map toolCallsOf chunks) /\
  NoDup (flat_map idOf (pipeThrough nanoid chunks n).1).
Proof.
  intros Hinj.
  destruct (pipeThrough_parts nanoid chunks n) as (_ & _ & _ & Hid & Hn).
  split; [exact Hn|]. rewrite Hid.
  apply NoDup_fmap_2; [|apply NoDup_seq].
  intros i j. apply Hinj.
Qed.

Lemma tool_parts_have_their_own_ids_witness :
  let nanoid := fun n : nat => replicate n 97%N in
  let chunks :=
    [value_chunk
       (mkChunkValue
          (Some [mkChoice
                   (Some (mkDelta (Some (lit "Hi"))
                            (Some [mkToolCallChunk (lit "lookup")
                                     (lit "{}")])))]))] in
  (pipeThrough nanoid chunks 0).1
  = [text_delta (lit "Hi");
     tool_call_delta [] (lit "lookup") (lit "{}");
     tool_call [97%N] (lit "lookup") (lit "{}")] /\
  (pipeThrough nanoid chunks 0).2
    = 0 + 2 * length (flat_map toolCallsOf chunks) /\
  NoDup (flat_map idOf (pipeThrough nanoid chunks 0).1).
Proof.
  intros nanoid chunks. split; [reflexivity|].
  apply (tool_parts_have_their_own_ids nanoid chunks 0).
  intros i j Heq. apply (f_equal length) in Heq.
  unfold nanoid in Heq. now rewrite !length_replicate in Heq.
Defined.

End MistralFacts.

(** ** Properties of the OpenAI chat model *)

Module OpenAIFacts.
Import JS OpenAI.

(** *** The guard and the text *)

Lemma guard_typeError (chunk : Chunk) :
  guard chunk = typeError <-> emptyChoices chunk.
Proof.
  unfold guard, emptyChoices.
  destruct (choices chunk) as [[|choice rest]|].
  - tauto.
  - destruct (delta choice); split; discriminate.
  - split; discriminate.
Qed.

Lemma enqueueText_text (d : Delta) :
  enqueueText d
  = List.map text_delta match content d with Some c => [c] | None => [] end.
Proof. unfold enqueueText. now destruct (content d). Qed.

Section Regular.
Variable tryParseJSON : jsstring -> option JSONValue.
Variable nanoid : nat -> jsstring.

Lemma mergeToolCall_no_text (d : ToolCallDelta) (st st' : Regular)
    (parts : list StreamPart) :
  mergeToolCall tryParseJSON nanoid d st = Returned (st', parts) ->
  flat_map textOf parts = [].
Proof.
  unfold mergeToolCall.
  destruct (toolCalls st !! index d) as [toolCall|];
    [|now intros [= <- <-]].
  destruct (match argumentsOf d with
            | Some argumentsDelta =>
                match function toolCall with
                | Some f => Returned _
                | None => Threw _
                end
            | None => Returned toolCall
            end) as [toolCall'|e]; [|discriminate].
  destruct (nameOf toolCall'), (argumentsOf toolCall') as [text|];
    try (now intros [= <- <-]).
  destruct (tryParseJSON text); [|now intros [= <- <-]].
  destruct (id toolCall'); now intros [= <- <-].
Qed.

Lemma mergeToolCalls_no_text (deltas : list ToolCallDelta) (st st' : Regular)
    (parts : list StreamPart) :
  mergeToolCalls tryParseJSON nanoid deltas st = Returned (st', parts) ->
  flat_map textOf parts = [].
Proof.
  revert st st' parts.
  induction deltas as [|d rest IH]; intros st st' parts; cbn [mergeToolCalls].
  - now intros [= <- <-].
  - destruct (mergeToolCall tryParseJSON nanoid d st) as [[st1 parts1]|e]
      eqn:Hone; [|discriminate].
    destruct (mergeToolCalls tryParseJSON nanoid rest st1)
      as [[st2 parts2]|e] eqn:Hrest; [|discriminate].
    intros [= <- <-]. rewrite flat_map_app.
    now rewrite (mergeToolCall_no_text _ _ _ _ Hone), (IH _ _ _ Hrest).
Qed.

Lemma transformRegular_text (chunk : Chunk) (st st' : Regular)
    (parts : list StreamPart) :
  transformRegular tryParseJSON nanoid chunk st = Returned (st', parts) ->
  flat_map textOf parts = contentsOf chunk.
Proof.
  unfold transformRegular, contentsOf.
  destruct (guard chunk) as [| |d]; [now intros [= <- <-]|discriminate|].
  assert (flat_map textOf (enqueueText d)
          = match content d with Some c => [c] | None => [] end) as Htext
    by (unfold enqueueText; now destruct (content d)).
  destruct (tool_calls d) as [deltas|].
  - destruct (mergeToolCalls tryParseJSON nanoid deltas st)
      as [[st1 parts1]|e] eqn:Hmerge; [|discriminate].
    intros [= <- <-]. rewrite flat_map_app, Htext.
    rewrite (mergeToolCalls_no_text _ _ _ _ Hmerge). apply app_nil_r.
  - now intros [= <- <-].
Qed.

Lemma pipeRegular_text (chunks : list Chunk) (st st' : Regular)
    (parts : list StreamPart) :
  pipeRegular tryParseJSON nanoid chunks st = Returned (st', parts) ->
  flat_map textOf parts = flat_map contentsOf chunks.
Proof.
  revert st st' parts.
  induction chunks as [|chunk rest IH]; intros st st' parts; cbn [pipeRegular].
  - now intros [= <- <-].
  - destruct (transformRegular tryParseJSON nanoid chunk st)
      as [[st1 parts1]|e] eqn:Hone; [|discriminate].
    destruct (pipeRegular tryParseJSON nanoid rest st1)
      as [[st2 parts2]|e] eqn:Hrest; [|discriminate].
    intros [= <- <-]. cbn [flat_map]. rewrite flat_map_app.
    now rewrite (transformRegular_text _ _ _ _ Hone), (IH _ _ _ Hrest).
Qed.

Lemma pipeRegular_typeError (chunks : list Chunk) (st : Regular) :
  Exists emptyChoices chunks ->
  exists e, pipeRegular tryParseJSON nanoid chunks st = Threw e.
Proof.
  intros Hex. revert st.
  induction Hex as [chunk rest Hempty|chunk rest _ IH]; intros st;
    cbn [pipeRegular].
  - unfold transformRegular.
    rewrite (proj2 (guard_typeError chunk) Hempty). eauto.
  - destruct (transformRegular tryParseJSON nanoid chunk st)
      as [[st1 parts1]|e]; [|eauto].
    destruct (IH st1) as [e ->]. eauto.
Qed.

End Regular.

Lemma transformJson_parts (chunk : Chunk) (parts : list StreamPart) :
  transformJson chunk = Returned parts ->
  parts = List.map text_delta (contentsOf chunk).
Proof.
  unfold transformJson, contentsOf.
  destruct (guard chunk) as [| |d]; [now intros [= <-]|discriminate|].
  intros [= <-]. apply enqueueText_text.
Qed.

Lemma pipeJson_parts (chunks : list Chunk) (parts : list StreamPart) :
  pipeJson chunks = Returned parts ->
  parts = List.map text_delta (flat_map contentsOf chunks).
Proof.
  revert parts. induction chunks as [|chunk rest IH]; intros parts;
    cbn [pipeJson flat_map].
  - now intros [= <-].
  - destruct (transformJson chunk) as [parts1|e] eqn:Hone; [|discriminate].
    destruct (pipeJson rest) as [parts2|e]; [|discriminate].
    intros [= <-]. rewrite List.map_app.
    now rewrite (transformJson_parts _ _ Hone), (IH parts2 eq_refl).
Qed.

(** How a failure travels through a pipe: the chunk fails, or a later
    one does. *)
Lemma threw_later {A : Type} (rest : Result A) (P Q : Prop) :
  ((exists e, rest = Threw e) <-> Q) ->
  ~ P ->
  forall (k : A -> Result A),
    (forall a, exists b, k a = Returned b) ->
    (exists e, match rest with
               | Threw e => Threw e
               | Returned a => k a
               end = Threw e) <-> P \/ Q.
Proof.
  intros HQ HP k Hk. rewrite <- HQ. destruct rest as [a|e'].
  - destruct (Hk a) as [b ->].
    split; [intros [e He]; discriminate|].
    intros [Hc|[e He]]; [contradiction|discriminate].
  - split; [intros _; right; eauto|intros _; eauto].
Qed.

Lemma pipeJson_typeError (chunks : list Chunk) :
  (exists e, pipeJson chunks = Threw e) <-> Exists emptyChoices chunks.
Proof.
  induction chunks as [|chunk rest IH]; cbn [pipeJson].
  - split; [intros [e He]; discriminate|intros Hex; inversion Hex].
  - rewrite Exists_cons, <- guard_typeError. unfold transformJson.
    destruct (guard chunk) as [| |d].
    + apply (threw_later (pipeJson rest) _ _ IH); [discriminate|eauto].
    + split; [now left|eauto].
    + apply (threw_later (pipeJson rest) _ _ IH); [discriminate|eauto].
Qed.

(** *** [object-tool] mode *)

Lemma storedAfter_app (st : option StoredToolCall)
    (zs1 zs2 : list ToolCallDelta) :
  storedAfter (storedAfter st zs1) zs2 = storedAfter st (zs1 ++ zs2).
Proof. destruct st, zs1; reflexivity. Qed.

Lemma forwarded_app (st : option StoredToolCall)
    (zs1 zs2 : list ToolCallDelta) :
  forwarded st zs1 ++ forwarded (storedAfter st zs1) zs2
  = forwarded st (zs1 ++ zs2).
Proof.
  unfold forwarded. rewrite storedAfter_app.
  destruct st as [toolCall|]; [|destruct zs1 as [|d zs1]].
  - cbn [storedAfter]. now rewrite omap_app, List.map_app.
  - reflexivity.
  - change (storedAfter None ((d :: zs1) ++ zs2))
      with (storedAfter None (d :: zs1)).
    destruct (storedAfter None (d :: zs1)); [|reflexivity].
    now rewrite omap_app, List.map_app.
Qed.

Lemma forwardToolCalls_closed (deltas : list ToolCallDelta)
    (st : option StoredToolCall) :
  forwardToolCalls deltas st
  = (storedAfter st (zeros deltas), forwarded st (zeros deltas)).
Proof.
  revert st. induction deltas as [|d rest IH]; intros st.
  - cbn. unfold forwarded. destruct st; reflexivity.
  - cbn [forwardToolCalls]. unfold forwardToolCall, zeros.
    cbn [List.filter]. fold (zeros rest).
    destruct (index d) as [|i] eqn:Hi; cbn [Nat.eqb].
    + rewrite IH.
      change (d :: zeros rest) with ([d] ++ zeros rest).
      rewrite <- storedAfter_app, <- forwarded_app.
      f_equal; [destruct st; reflexivity|].
      f_equal; [|destruct st; reflexivity].
      unfold forwarded. destruct st as [toolCall|]; cbn;
        now destruct (argumentsOf d).
    + rewrite IH. reflexivity.
Qed.

Lemma transformTool_closed (chunk : Chunk) (st st' : option StoredToolCall)
    (parts : list StreamPart) :
  transformTool chunk st = Returned (st', parts) ->
  st' = storedAfter st (zeros (toolCallDeltasOf chunk)) /\
  parts = forwarded st (zeros (toolCallDeltasOf chunk)).
Proof.
  unfold transformTool, toolCallDeltasOf.
  assert (storedAfter st [] = st /\ forwarded st [] = []) as [Hst Hparts]
    by (unfold forwarded; destruct st; auto).
  destruct (guard chunk) as [| |d]; [|discriminate|].
  - intros [= <- <-]. auto.
  - destruct (tool_calls d) as [deltas|]; cbn [default].
    + rewrite forwardToolCalls_closed. intros [= <- <-]. auto.
    + intros [= <- <-]. auto.
Qed.

Lemma pipeTool_closed (chunks : list Chunk) (st st' : option StoredToolCall)
    (parts : list StreamPart) :
  pipeTool chunks st = Returned (st', parts) ->
  st' = storedAfter st (zeros (flat_map toolCallDeltasOf chunks)) /\
  parts = forwarded st (zeros (flat_map toolCallDeltasOf chunks)).
Proof.
  revert st st' parts.
  induction chunks as [|chunk rest IH]; intros st st' parts;
    cbn [pipeTool flat_map].
  - intros [= <- <-]. unfold forwarded. now destruct st.
  - destruct (transformTool chunk st) as [[st1 parts1]|e] eqn:Hone;
      [|discriminate].
    destruct (pipeTool rest st1) as [[st2 parts2]|e] eqn:Hrest;
      [|discriminate].
    intros [= <- <-].
    destruct (transformTool_closed _ _ _ _ Hone) as [-> ->].
    destruct (IH _ _ _ Hrest) as [-> ->].
    unfold zeros. rewrite List.filter_app.
    now rewrite storedAfter_app, forwarded_app.
Qed.


Lemma pipeTool_typeError (chunks : list Chunk) (st : option StoredToolCall) :
  (exists e, pipeTool chunks st = Threw e) <-> Exists emptyChoices chunks.
Proof.
  revert st. induction chunks as [|chunk rest IH]; intros st; cbn [pipeTool].
  - split; [intros [e He]; discriminate|intros Hex; inversion Hex].
  - rewrite Exists_cons, <- guard_typeError. unfold transformTool.
    destruct (guard chunk) as [| |d].
    + apply (threw_later (pipeTool rest st) _ _ (IH st));
        [discriminate|intros [? ?]; eauto].
    + split; [now left|eauto].
    + destruct (tool_calls d) as [deltas|].
      * destruct (forwardToolCalls deltas st) as [st1 parts1].
        apply (threw_later (pipeTool rest st1) _ _ (IH st1));
          [discriminate|intros [? ?]; eauto].
      * apply (threw_later (pipeTool rest st) _ _ (IH st));
          [discriminate|intros [? ?]; eauto].
Qed.

(** *** Tool calls in [regular] mode *)

Section ToolCalls.
Variable tryParseJSON : jsstring -> option JSONValue.
Variable nanoid : nat -> jsstring.

(** Deltas for indices that are not in [toolCalls] yet are stored and
    nothing is enqueued. *)
Lemma mergeToolCalls_new (deltas : list ToolCallDelta) (st : Regular) :
  NoDup (index <$> deltas) ->
  (forall d, d ∈ deltas -> toolCalls st !! index d = None) ->
  exists st',
    mergeToolCalls tryParseJSON nanoid deltas st = Returned (st', []) /\
    ids st' = ids st /\
    (forall j, j ∉ index <$> deltas ->
               toolCalls st' !! j = toolCalls st !! j).
Proof.
  revert st. induction deltas as [|d rest IH]; intros st Hnodup Hnew.
  - exists st. auto.
  - cbn [mergeToolCalls]. unfold mergeToolCall.
    rewrite (Hnew d) by apply list_elem_of_here.
    rewrite fmap_cons in Hnodup. apply NoDup_cons in Hnodup as [Hd Hrest].
    destruct (IH (mkRegular (<[index d := d]> (toolCalls st)) (ids st))
                Hrest) as (st' & -> & Hids & Hsame).
    { intros d' Hd'. cbn [toolCalls].
      rewrite lookup_insert_ne.
      - apply Hnew. now apply list_elem_of_further.
      - intros Heq. apply Hd. rewrite Heq.
        now apply list_elem_of_fmap_2. }
    exists st'. split; [reflexivity|]. split; [exact Hids|].
    intros j Hj. rewrite fmap_cons in Hj.
    apply not_elem_of_cons in Hj as [Hne Hj].
    rewrite (Hsame j Hj). cbn [toolCalls].
    now apply lookup_insert_ne.
Qed.

Lemma pipeRegular_new (chunks : list Chunk) (st : Regular) :
  NoDup (index <$> flat_map toolCallDeltasOf chunks) ->
  (forall d, d ∈ flat_map toolCallDeltasOf chunks ->
             toolCalls st !! index d = None) ->
  Forall (fun chunk => ~ emptyChoices chunk) chunks ->
  exists st',
    pipeRegular tryParseJSON nanoid chunks st
      = Returned (st', List.map text_delta (flat_map contentsOf chunks)) /\
    ids st' = ids st.
Proof.
  intros Hnodup Hnew Hall. revert st Hnodup Hnew.
  induction Hall as [|chunk rest Hchunk _ IH]; intros st Hnodup Hnew.
  - exists st. auto.
  - cbn [flat_map] in Hnodup, Hnew. rewrite fmap_app in Hnodup.
    apply NoDup_app in Hnodup as (Hhere & Hapart & Hrest).
    assert (exists st1,
               transformRegular tryParseJSON nanoid chunk st
                 = Returned (st1, List.map text_delta (contentsOf chunk)) /\
               ids st1 = ids st /\
               (forall j, j ∉ index <$> toolCallDeltasOf chunk ->
                          toolCalls st1 !! j = toolCalls st !! j))
      as (st1 & Hone & Hids1 & Hsame).
    { unfold transformRegular, contentsOf, toolCallDeltasOf in *.
      rewrite <- guard_typeError in Hchunk.
      destruct (guard chunk) as [| |d]; [eauto|contradiction|].
      rewrite enqueueText_text.
      destruct (tool_calls d) as [deltas|]; cbn [default] in *.
      - destruct (mergeToolCalls_new deltas st Hhere)
          as (st1 & -> & Hids1 & Hsame).
        + intros d' Hd'. apply Hnew. apply elem_of_app. now left.
        + exists st1. now rewrite app_nil_r.
      - eauto. }
    destruct (IH st1 Hrest) as (st' & Hpipe & Hids).
    { intros d' Hd'. rewrite Hsame.
      - apply Hnew. apply elem_of_app. now right.
      - intros Hin. apply (Hapart _ Hin). now apply list_elem_of_fmap_2. }
    exists st'. cbn [pipeRegular flat_map].
    rewrite Hone, Hpipe, List.map_app. split; [reflexivity|congruence].
Qed.

(** A chunk with one piece of a tool call goes through the loop once. *)
Lemma transformRegular_piece (d : ToolCallDelta) (st : Regular) :
  transformRegular tryParseJSON nanoid (piece d) st
  = mergeToolCall tryParseJSON nanoid d st.
Proof.
  unfold transformRegular, piece. cbn.
  destruct (mergeToolCall tryParseJSON nanoid d st) as [[st' parts]|e];
    [|reflexivity].
  now rewrite app_nil_r.
Qed.

(** A later piece of a tool call whose first piece had an id, a name and
    arguments: the arguments grow, and the tool call is enqueued when
    they parse. *)
Lemma mergeToolCall_later (d : ToolCallDelta) (st : Regular)
    (i : nat) (toolCallId toolName stored argumentsDelta : jsstring) :
  toolCalls st !! index d
    = Some (mkToolCallDelta i (Some toolCallId)
              (Some (mkFunctionDelta (Some toolName) (Some stored)))) ->
  argumentsOf d = Some argumentsDelta ->
  mergeToolCall tryParseJSON nanoid d st
  = Returned
      (mkRegular
         (<[index d :=
              mkToolCallDelta i (Some toolCallId)
                (Some (mkFunctionDelta (Some toolName)
                         (Some (stored ++ argumentsDelta))))]>
            (toolCalls st)) (ids st),
       match tryParseJSON (stored ++ argumentsDelta) with
       | Some args => [tool_call toolCallId toolName args]
       | None => []
       end).
Proof.
  intros Hstored Hargs. unfold mergeToolCall.
  rewrite Hstored, Hargs. cbn.
  now destruct (tryParseJSON (stored ++ argumentsDelta)).
Qed.

Lemma pieces_accumulate (later : list ToolCallDelta)
    (pieces : list jsstring) (st : Regular) (k i : nat)
    (toolCallId toolName stored : jsstring) (args : JSONValue) :
  Forall2 (fun d a => index d = k /\ argumentsOf d = Some a) later pieces ->
  toolCalls st !! k
    = Some (mkToolCallDelta i (Some toolCallId)
              (Some (mkFunctionDelta (Some toolName) (Some stored)))) ->
  pieces <> [] ->
  tryParseJSON (stored ++ concat pieces) = Some args ->
  (forall n, 0 < n < length pieces ->
             tryParseJSON (stored ++ concat (take n pieces)) = None) ->
  exists st',
    pipeRegular tryParseJSON nanoid (List.map piece later) st
      = Returned (st', [tool_call toolCallId toolName args]) /\
    ids st' = ids st.
Proof.
  intros Hall. revert st stored.
  induction Hall as [|d a later pieces [Hk Ha] Hall IH];
    intros st stored Hstored Hne Hwhole Hprefix; [contradiction|].
  cbn [List.map pipeRegular]. rewrite transformRegular_piece.
  rewrite <- Hk in Hstored.
  rewrite (mergeToolCall_later d st i toolCallId toolName stored a Hstored Ha).
  rewrite Hk.
  destruct pieces as [|a' pieces'].
  - inversion Hall; subst. cbn [concat] in Hwhole.
    rewrite app_nil_r in Hwhole. rewrite Hwhole.
    eexists. split; [reflexivity|reflexivity].
  - assert (tryParseJSON (stored ++ a) = None) as ->.
    { specialize (Hprefix 1). simpl in Hprefix.
      rewrite app_nil_r in Hprefix. apply Hprefix. lia. }
    edestruct (IH (mkRegular
                     (<[k := mkToolCallDelta i (Some toolCallId)
                               (Some (mkFunctionDelta (Some toolName)
                                        (Some (stored ++ a))))]>
                        (toolCalls st)) (ids st)) (stored ++ a))
      as (st' & -> & Hids).
    + cbn [toolCalls]. apply lookup_insert_eq.
    + discriminate.
    + rewrite <- app_assoc. exact Hwhole.
    + intros n Hn. rewrite <- app_assoc.
      apply (Hprefix (S n)). cbn [length] in *. lia.
    + exists st'. split; [reflexivity|exact Hids].
Qed.

End ToolCalls.

(** X24.  The three transforms of [doStream] and the text: in [regular]
    mode the text deltas that are enqueued are the contents of the first
    choices of the chunks, in order, whatever tool calls come with them;
    in [object-json] mode the stream consists of exactly these text
    deltas; in [object-tool] mode no text is ever enqueued. *)
Theorem text_through_the_transforms (chunks : list Chunk) :
  (forall tryParseJSON nanoid st st' parts,
      pipeRegular tryParseJSON nanoid chunks st = Returned (st', parts) ->
      flat_map textOf parts = flat_map contentsOf chunks) /\
  (forall parts,
      pipeJson chunks = Returned parts ->
      parts = List.map text_delta (flat_map contentsOf chunks)) /\
  (forall st st' parts,
      pipeTool chunks st = Returned (st', parts) ->
      flat_map textOf parts = []).
Proof.
  split; [|split].
  - intros tryParseJSON nanoid st st' parts.
    apply pipeRegular_text.
  - apply pipeJson_parts.
  - intros st st' parts Hpipe.
    destruct (pipeTool_closed _ _ _ _ Hpipe) as [_ ->].
    unfold forwarded. destruct (storedAfter st _); [|reflexivity].
    induction (omap argumentsOf _); [reflexivity|assumption].
Qed.

Lemma text_through_the_transforms_witness :
  let chunks :=
    [mkChunk (Some [mkChoice (Some (mkDelta (Some (lit "Hel")) None))]);
     mkChunk None;
     mkChunk (Some [mkChoice
                      (Some (mkDelta (Some (lit "lo"))
                               (Some [mkToolCallDelta 0 None None])))])] in
  pipeJson chunks = Returned [text_delta (lit "Hel"); text_delta (lit "lo")] /\
  [text_delta (lit "Hel"); text_delta (lit "lo")]
  = List.map text_delta (flat_map contentsOf chunks).
Proof.
  intros chunks. split; [reflexivity|].
  apply (proj1 (proj2 (text_through_the_transforms chunks))).
  reflexivity.
Defined.

(** X25.  In [regular] mode the first delta for an index is only stored:
    when every tool call of a stream arrives in one piece (no index
    occurs twice) and no chunk has an empty [choices], the stream that
    comes out holds the text deltas and no tool call at all, whatever the
    deltas contain, and [nanoid] is never called. *)
Theorem tool_call_in_one_piece_is_not_enqueued
    (tryParseJSON : jsstring -> option JSONValue) (nanoid : nat -> jsstring)
    (chunks : list Chunk) :
  NoDup (index <$> flat_map toolCallDeltasOf chunks) ->
  Forall (fun chunk => ~ emptyChoices chunk) chunks ->
  exists st',
    pipeRegular tryParseJSON nanoid chunks regularInitial
      = Returned (st', List.map text_delta (flat_map contentsOf chunks)) /\
    ids st' = 0.
Proof.
  intros Hnodup Hall.
  apply (pipeRegular_new tryParseJSON nanoid chunks regularInitial Hnodup);
    [|exact Hall].
  intros d _. apply lookup_empty.
Qed.

Lemma tool_call_in_one_piece_is_not_enqueued_witness :
  let complete :=
    mkToolCallDelta 0 (Some (lit "call_1"))
      (Some (mkFunctionDelta (Some (lit "lookup")) (Some (lit "{}")))) in
  let chunks :=
    [mkChunk (Some [mkChoice (Some (mkDelta (Some (lit "Hi"))
                                      (Some [complete])))])] in
  exists st',
    pipeRegular (fun _ => Some (Streamable.VObject 0))
      (fun _ => lit "id") chunks regularInitial
      = Returned (st', List.map text_delta (flat_map contentsOf chunks)) /\
    ids st' = 0.
Proof.
  intros complete chunks.
  apply (tool_call_in_one_piece_is_not_enqueued
           (fun _ => Some (Streamable.VObject 0)) (fun _ => lit "id") chunks).
  - cbn. apply NoDup_singleton.
  - apply Forall_cons_2; [discriminate|apply Forall_nil_2].
Defined.

(** X26.  A tool call of [regular] mode that arrives in pieces, one
    piece a chunk: the first piece brings the id, the name and the start
    of the arguments, the later ones more of the arguments.  When the
    arguments parse once all the pieces are joined and at no piece before
    the last, exactly one tool call is enqueued: with the id and the name
    of the first piece and the parsed arguments. *)
Theorem tool_call_in_pieces_is_enqueued_once
    (tryParseJSON : jsstring -> option JSONValue) (nanoid : nat -> jsstring)
    (k : nat) (toolCallId toolName start : jsstring)
    (later : list ToolCallDelta) (pieces : list jsstring)
    (args : JSONValue) (st : Regular) :
  toolCalls st !! k = None ->
  Forall2 (fun d a => index d = k /\ argumentsOf d = Some a) later pieces ->
  pieces <> [] ->
  tryParseJSON (start ++ concat pieces) = Some args ->
  (forall n, 0 < n < length pieces ->
             tryParseJSON (start ++ concat (take n pieces)) = None) ->
  exists st',
    pipeRegular tryParseJSON nanoid
      (piece (mkToolCallDelta k (Some toolCallId)
                (Some (mkFunctionDelta (Some toolName) (Some start))))
       :: List.map piece later) st
    = Returned (st', [tool_call toolCallId toolName args]) /\
    ids st' = ids st.
Proof.
  intros Hnew Hall Hne Hwhole Hprefix.
  cbn [pipeRegular]. rewrite transformRegular_piece.
  unfold mergeToolCall at 1. cbn [index]. rewrite Hnew.
  edestruct (pieces_accumulate tryParseJSON nanoid later pieces
               (mkRegular
                  (<[k := mkToolCallDelta k (Some toolCallId)
                            (Some (mkFunctionDelta (Some toolName)
                                     (Some start)))]> (toolCalls st))
                  (ids st))
               k k toolCallId toolName start args Hall)
    as (st' & -> & Hids); try eassumption.
  - cbn [toolCalls]. apply lookup_insert_eq.
  - exists st'. split; [reflexivity|exact Hids].
Qed.

Lemma tool_call_in_pieces_is_enqueued_once_witness :
  let parse := fun text : jsstring =>
                 if bool_decide (text = lit "{}")
                 then Some (Streamable.VObject 0) else None in
  exists st',
    pipeRegular parse (fun _ => lit "id")
      (piece (mkToolCallDelta 0 (Some (lit "call_1"))
                (Some (mkFunctionDelta (Some (lit "lookup")) (Some []))))
       :: List.map piece
            [mkToolCallDelta 0 None
               (Some (mkFunctionDelta None (Some (lit "{"))));
             mkToolCallDelta 0 None
               (Some (mkFunctionDelta None (Some (lit "}"))))])
      regularInitial
    = Returned (st', [tool_call (lit "call_1") (lit "lookup")
                        (Streamable.VObject 0)]) /\
    ids st' = ids regularInitial.
Proof.
  intros parse.
  apply (tool_call_in_pieces_is_enqueued_once parse (fun _ => lit "id") 0
           (lit "call_1") (lit "lookup") []
           [mkToolCallDelta 0 None
              (Some (mkFunctionDelta None (Some (lit "{"))));
            mkToolCallDelta 0 None
              (Some (mkFunctionDelta None (Some (lit "}"))))]
           [lit "{"; lit "}"] (Streamable.VObject 0) regularInitial).
  - apply lookup_empty.
  - repeat (apply Forall2_cons_2; [split; reflexivity|]). apply Forall2_nil_2.
  - discriminate.
  - reflexivity.
  - intros n Hn. cbn [length] in Hn.
    assert (n = 1) as -> by lia. reflexivity.
Defined.

(** X27.  In [object-tool] mode only the deltas with index 0 count.  The
    first of them fixes the id and the name (the empty string where it
    has none), and every one that has arguments is forwarded as a
    [tool-call-delta] with that id, that name and its arguments, in
    order; deltas with another index are dropped. *)
Theorem object_tool_forwards_index_zero (chunks : list Chunk)
    (st' : option StoredToolCall) (parts : list StreamPart) :
  pipeTool chunks None = Returned (st', parts) ->
  match zeros (flat_map toolCallDeltasOf chunks) with
  | [] => st' = None /\ parts = []
  | first :: others =>
      st' = Some (mkStoredToolCall (default [] (id first))
                    (default [] (nameOf first))) /\
      parts = List.map (tool_call_delta (default [] (id first))
                          (default [] (nameOf first)))
                (omap argumentsOf (first :: others))
  end.
Proof.
  intros Hpipe. destruct (pipeTool_closed _ _ _ _ Hpipe) as [-> ->].
  unfold forwarded.
  destruct (zeros (flat_map toolCallDeltasOf chunks)); auto.
Qed.

Lemma object_tool_forwards_index_zero_witness :
  let first :=
    mkToolCallDelta 0 (Some (lit "call_1"))
      (Some (mkFunctionDelta (Some (lit "json")) (Some (lit "{")))) in
  let other :=
    mkToolCallDelta 1 (Some (lit "call_2"))
      (Some (mkFunctionDelta (Some (lit "other")) (Some (lit "x")))) in
  let more :=
    mkToolCallDelta 0 None (Some (mkFunctionDelta None (Some (lit "}")))) in
  let chunks := [piece first; piece other; piece more] in
  let stored := Some (mkStoredToolCall (lit "call_1") (lit "json")) in
  let parts := [tool_call_delta (lit "call_1") (lit "json") (lit "{");
                tool_call_delta (lit "call_1") (lit "json") (lit "}")] in
  pipeTool chunks None = Returned (stored, parts) /\
  stored = Some (mkStoredToolCall (default [] (id first))
                   (default [] (nameOf first))) /\
  parts = List.map (tool_call_delta (default [] (id first))
                      (default [] (nameOf first)))
            (omap argumentsOf [first; more]).
Proof.
  intros first other more chunks stored parts.
  split; [reflexivity|].
  exact (object_tool_forwards_index_zero chunks stored parts eq_refl).
Defined.

(** X28.  A chunk whose [choices] is an empty array fails the stream:
    in [object-json] and in [object-tool] mode the pipe throws exactly
    when there is such a chunk (a chunk without [choices] or with a
    [null] delta is skipped), and in [regular] mode it throws whenever
    there is one. *)
Theorem empty_choices_fail_the_stream (chunks : list Chunk) :
  ((exists e, pipeJson chunks = Threw e) <-> Exists emptyChoices chunks) /\
  (forall st,
      (exists e, pipeTool chunks st = Threw e)
      <-> Exists emptyChoices chunks) /\
  (forall tryParseJSON nanoid st,
      Exists emptyChoices chunks ->
      exists e, pipeRegular tryParseJSON nanoid chunks st = Threw e).
Proof.
  split; [apply pipeJson_typeError|]. split.
  - intros st. apply pipeTool_typeError.
  - intros tryParseJSON nanoid st. apply pipeRegular_typeError.
Qed.

Lemma empty_choices_fail_the_stream_witness :
  exists e,
    pipeRegular (fun _ => None) (fun _ => lit "id")
      [mkChunk None; mkChunk (Some [])] regularInitial = Threw e.
Proof.
  apply (proj2 (proj2 (empty_choices_fail_the_stream
                         [mkChunk None; mkChunk (Some [])]))).
  apply Exists_cons_tl, Exists_cons_hd. reflexivity.
Defined.

End OpenAIFacts.

(** ** Properties of [render] *)

Module RenderFacts.
Import JS Streamable Render.

Lemma updateEach_publishes (development : bool) (values : list ReactNode)
    (ui : UI.Cell) (rows : list UI.Row) :
  UI.reachable development ui -> UI.closed ui = false ->
  UI.published ui rows ->
  exists ui' new,
    updateEach development values ui = Returned ui' /\
    UI.reachable development ui' /\
    UI.closed ui' = false /\
    UI.published ui' (rows ++ new) /\
    List.map UI.value new = changes (UI.currentValue ui) values /\
    Forall (fun r => UI.done_flag r = false /\ UI.append_flag r = false) new.
Proof.
  revert ui rows.
  induction values as [|v rest IH]; intros ui rows Hreach Hopen Hpub.
  - exists ui, []. rewrite app_nil_r. cbn. auto 10 using Forall_nil_2.
  - cbn [updateEach changes].
    pose proof (StreamableFacts.ui_reachable_inv _ _ Hreach) as Hinv.
    destruct (strictEq v (UI.currentValue ui)) eqn:Heq.
    + assert (UI.update development v ui
              = Returned (UI.mkCell (UI.currentValue ui) (UI.closed ui)
                            (UI.row ui) (UI.resolve ui) (UI.reject ui)
                            (warnUnclosedStream development (UI.timers ui))
                            (UI.store ui))) as Hupdate.
      { unfold UI.update, UI.assertStream. now rewrite Hopen, Heq. }
      rewrite Hupdate.
      edestruct (IH (UI.mkCell (UI.currentValue ui) (UI.closed ui)
                       (UI.row ui) (UI.resolve ui) (UI.reject ui)
                       (warnUnclosedStream development (UI.timers ui))
                       (UI.store ui)) rows)
        as (ui' & new & Hrun & Hreach' & Hopen' & Hpub' & Hvalues & Hflags).
      * eapply (UI.reachable_call development ui (UI.CallUpdate v));
          [exact Hreach|exact Hupdate].
      * exact Hopen.
      * exact Hpub.
      * exists ui', new. auto 10.
    + pose proof (StreamableFacts.ui_update_fresh development v ui Hinv Hopen
                    Heq) as Hupdate.
      rewrite Hupdate.
      destruct Hinv as (_ & Hfresh & Hpend & rows0 & Hchain).
      edestruct (IH (UI.mkCell v false (UI.row ui) (fresh (UI.store ui))
                       (fresh (UI.store ui))
                       (warnUnclosedStream development (UI.timers ui))
                       (publish (UI.resolve ui)
                          (UI.mkRow v false false
                             (Some (fresh (UI.store ui))))
                          (UI.store ui)))
                   (rows ++ [UI.mkRow v false false
                               (Some (fresh (UI.store ui)))]))
        as (ui' & new & Hrun & Hreach' & Hopen' & Hpub' & Hvalues & Hflags).
      * eapply (UI.reachable_call development ui (UI.CallUpdate v));
          [exact Hreach|exact Hupdate].
      * reflexivity.
      * unfold UI.published. cbn [UI.store UI.row publish cells].
        eapply StreamableFacts.revisions_publish; eauto.
      * exists ui',
          (UI.mkRow v false false (Some (fresh (UI.store ui))) :: new).
        rewrite <- app_assoc in Hpub'.
        split; [exact Hrun|]. split; [exact Hreach'|].
        split; [exact Hopen'|]. split; [exact Hpub'|].
        split; [cbn; now rewrite Hvalues|].
        apply Forall_cons_2; [now split|exact Hflags].
Qed.



Lemma onText_content (chunks : list jsstring) (st : Text) :
  content (foldl onText st chunks) = content st ++ concat chunks /\
  textRenders (foldl onText st chunks)
  = textRenders st
    ++ List.map (fun n => content st ++ concat (take (S n) chunks))
         (seq 0 (length chunks)).
Proof.
  revert st. induction chunks as [|chunk rest IH]; intros st.
  - cbn [foldl concat length seq List.map]. now rewrite !app_nil_r.
  - cbn [foldl]. destruct (IH (onText st chunk)) as [-> ->].
    cbn [onText content textRenders concat length seq List.map].
    rewrite <- !app_assoc. split; [reflexivity|].
    f_equal. cbn [app]. f_equal.
    + simpl. now rewrite app_nil_r.
    + rewrite <- seq_shift, List.map_map.
      apply List.map_ext. intros n. simpl. now rewrite <- app_assoc.
Qed.

Lemma onText_after_text (chunks : list jsstring) (st : Text) :
  content st <> [] ->
  composedUpdates (foldl onText st chunks) = composedUpdates st.
Proof.
  revert st. induction chunks as [|chunk rest IH]; intros st Hne;
    [reflexivity|].
  cbn [foldl]. rewrite IH.
  - cbn [onText composedUpdates].
    rewrite bool_decide_eq_false_2; [reflexivity|].
    intros Heq. apply (f_equal length) in Heq. rewrite length_app in Heq.
    destruct (content st); [contradiction|cbn in Heq; lia].
  - cbn [onText content]. now destruct (content st).
Qed.

(** X30.  [onText]: the text renderer is called for every chunk with all
    the text so far, and the composed UI is updated when the text so far
    is the chunk itself, that is for the first chunk that is not empty
    and for every empty chunk before it, and for no chunk after it. *)
Theorem onText_updates_composed_ui_once (empties rest : list jsstring)
    (first : jsstring) :
  Forall (fun chunk => chunk = []) empties ->
  first <> [] ->
  composedUpdates (foldl onText noText empties) = length empties /\
  composedUpdates (foldl onText noText (empties ++ first :: rest))
    = S (length empties) /\
  textRenders (foldl onText noText (empties ++ first :: rest))
    = List.map (fun n => concat (take (S n) (empties ++ first :: rest)))
        (seq 0 (length (empties ++ first :: rest))).
Proof.
  intros Hempty Hfirst.
  assert (forall st,
             content st = [] ->
             content (foldl onText st empties) = [] /\
             composedUpdates (foldl onText st empties)
             = composedUpdates st + length empties) as Hrun.
  { induction Hempty as [|chunk empties -> _ IH]; intros st Hst.
    - cbn. split; [exact Hst|lia].
    - cbn [foldl length].
      destruct (IH (onText st [])) as [-> ->].
      + cbn [onText content]. now rewrite Hst.
      + cbn [onText composedUpdates]. rewrite Hst.
        rewrite bool_decide_eq_true_2 by reflexivity.
        split; [reflexivity|lia]. }
  destruct (Hrun noText eq_refl) as [Hcontent Hcount].
  split; [exact Hcount|]. split.
  - rewrite foldl_app. cbn [foldl].
    rewrite onText_after_text.
    + cbn [onText composedUpdates]. rewrite Hcontent, Hcount.
      now rewrite bool_decide_eq_true_2 by reflexivity.
    + cbn [onText content]. rewrite Hcontent. exact Hfirst.
  - now destruct (onText_content (empties ++ first :: rest) noText) as [_ ->].
Qed.

Lemma onText_updates_composed_ui_once_witness :
  composedUpdates (foldl onText noText [[]]) = 1 /\
  composedUpdates (foldl onText noText ([[]] ++ lit "Hel" :: [lit "lo"]))
    = 2 /\
  textRenders (foldl onText noText ([[]] ++ lit "Hel" :: [lit "lo"]))
    = [[]; lit "Hel"; lit "Hello"].
Proof.
  apply (onText_updates_composed_ui_once [[]] [lit "lo"] (lit "Hel")).
  - apply Forall_cons_2; [reflexivity|apply Forall_nil_2].
  - discriminate.
Defined.

End RenderFacts.
